(** * FSTDict: a shallow embedding of [fst.h]

    The development follows the header from top to bottom: the two stream
    helpers [WriteUint]/[ReadUint], the construction-time [State] with its
    incremental signature, the instruction cell, the virtual machine
    ([run] and the three queries), the codec ([Write]/[Read]), the
    compiler ([buildMachine]) and the builder ([buildMAST], [BuildFST]).

    Platform conventions fixed by the embedding (x86-64, System V, libstdc++):
    [int] is 32 bits, [size_t] is 64 bits, [char] is signed, the
    [Instruction] union is laid out little-endian ([op] in bits 0-7, [ch]
    in bits 8-15, [jump] in bits 16-31, [v32] the whole cell).

    Everything the C++ code can do besides returning is a constructor of
    [res]: [Throw] for an exception that leaves the function (the
    [std::out_of_range] of [unordered_map::at]; in [Read] the
    [std::length_error] and [std::bad_alloc] of [vector::reserve]), and
    [Fault] for behaviour the language leaves undefined (reads and writes
    outside a vector, dereferencing an end iterator, using a byte buffer
    that no read has filled, signed overflow). *)

From stdpp Require Import gmap list sorting pretty.
From Stdlib Require Import ZArith Lia.
From coqutil Require Import Z.bitblast.

Local Open Scope Z_scope.

(** ** Outcomes *)

Inductive fault : Set :=
| OobRead          (* operator[] or iterator read outside the container *)
| OobWrite         (* write through an iterator outside the container *)
| EndIterDeref     (* it->second with it == end() *)
| StreamEnd        (* the byte buffer is used and no read has filled it *)
| SignedOverflow   (* int arithmetic left the 32-bit range *)
| BadRange.        (* iterator range [first, last) with first > last *)

Inductive res (A : Type) : Type :=
| Ok (a : A)
| Throw            (* std::out_of_range; std::length_error, std::bad_alloc *)
| Fault (f : fault).
Arguments Ok {A} a.
Arguments Throw {A}.
Arguments Fault {A} f.

Definition rbind {A B} (m : res A) (k : A -> res B) : res B :=
  match m with
  | Ok a => k a
  | Throw => Throw
  | Fault f => Fault f
  end.

Global Instance res_ret : MRet res := @Ok.
Global Instance res_bind : MBind res := fun A B k m => rbind m k.

(** ** Fixed-width integers *)

Definition to_uint8 (z : Z) : Z := z mod 256.
Definition to_uint16 (z : Z) : Z := z mod 65536.
Definition to_uint32 (z : Z) : Z := z mod 2 ^ 32.
Definition to_size_t (z : Z) : Z := z mod 2 ^ 64.
Definition to_int32 (z : Z) : Z := (z + 2 ^ 31) mod 2 ^ 32 - 2 ^ 31.

(** The signature [hcode] is an [int64_t] that only ever receives sums of
    small products; it is kept in range by two's complement wrap-around. *)
Definition to_int64 (z : Z) : Z := (z + 2 ^ 63) mod 2 ^ 64 - 2 ^ 63.

Definition UINT16_MAX : Z := 65535.
Definition INT_MAX : Z := 2147483647.
Definition INT_MIN : Z := -2147483648.

(** [int] arithmetic: the result when it is representable. *)
Definition int_checked (z : Z) : res Z :=
  if (INT_MIN <=? z) && (z <=? INT_MAX) then Ok z else Fault SignedOverflow.

(** [static_cast<int>(c)] for a [char] holding the byte [b]. *)
Definition char_to_int (b : Z) : Z :=
  let u := to_uint8 b in if u <? 128 then u else u - 256.

(** A [std::string] is its sequence of bytes, each in [0, 256). *)
Abbreviation bytes := (list Z) (only parsing).

(** ** Stream helpers (fst.h 25-47) *)

(** [sizeof(T)] for the unsigned types the header instantiates. *)
Definition sizeof_uint8 : nat := 1.
Definition sizeof_uint16 : nat := 2.
Definition sizeof_uint32 : nat := 4.
Definition sizeof_size_t : nat := 8.

(** [WriteUint<T>(os, value)], with [w = sizeof(T)] iterations left: the
    stream is the list of bytes written so far. *)
Fixpoint WriteUint (w : nat) (os : bytes) (value : Z) : bytes :=
  match w with
  | O => os
  | S w' => WriteUint w' (os ++ [to_uint8 value]) (value / 256)
  end.

(** [is->read(&buf, 1)]: the stream is the list of bytes not yet
    consumed and [buf] the local [char buf], [None] as long as nothing has
    been stored in it. On a stream that has ended the read stores nothing
    (it sets the failure bits of the stream, which nobody tests): [buf]
    keeps what it held. *)
Definition istream_read (is_ : bytes) (buf : option Z) : option Z * bytes :=
  match is_ with
  | [] => (buf, [])
  | b :: is_' => (Some b, is_')
  end.

(** [ReadUint<T>(is)]: [T] is [8 * sizeofT] bits wide and [w] iterations
    are left. The result of the read is not tested, so after the end of
    the stream the loop goes on with the byte read last; only when not
    one byte was read in this call is the buffer used without a value. *)
Fixpoint ReadUint_loop (sizeofT w : nat) (is_ : bytes) (buf : option Z)
    (value : Z) : res (Z * bytes) :=
  match w with
  | O => Ok (value, is_)
  | S w' =>
      let value := (value * 256) mod 2 ^ (8 * Z.of_nat sizeofT) in
      let '(buf, is_) := istream_read is_ buf in
      match buf with
      | None => Fault StreamEnd
      | Some b => ReadUint_loop sizeofT w' is_ buf (Z.lor value (to_uint8 b))
      end
  end.

Definition ReadUint (sizeofT : nat) (is_ : bytes) : res (Z * bytes) :=
  ReadUint_loop sizeofT sizeofT is_ None 0.

(** The bytes one call of [WriteUint] appends. *)
Fixpoint le_bytes (w : nat) (value : Z) : bytes :=
  match w with
  | O => []
  | S w' => to_uint8 value :: le_bytes w' (value / 256)
  end.

(** ** Containers of the standard library *)

(** [unordered_map::insert(make_pair(k, v))]: an existing key keeps its
    value. *)
Definition umap_insert {V} (k : Z) (v : V) (m : gmap Z V) : gmap Z V :=
  match m !! k with
  | Some _ => m
  | None => <[k:=v]> m
  end.

(** [unordered_map::at(k)] throws [std::out_of_range] on an absent key. *)
Definition umap_at {V} (m : gmap Z V) (k : Z) : res V :=
  match m !! k with
  | Some v => Ok v
  | None => Throw
  end.

(** A [std::set<T>] of integers is the ascending list of its elements. *)
Fixpoint set_insert (x : Z) (s : list Z) : list Z :=
  match s with
  | [] => [x]
  | y :: s' =>
      if x <? y then x :: s
      else if x =? y then s
      else y :: set_insert x s'
  end.

(** [v[i]] for a [std::vector] or [std::string] and a non-negative index;
    out of range is a fault. *)
Definition vec_at {A} (v : list A) (i : Z) : res A :=
  if i <? 0 then Fault OobRead
  else match v !! Z.to_nat i with
       | Some a => Ok a
       | None => Fault OobRead
       end.

Definition vec_size {A} (v : list A) : Z := Z.of_nat (length v).

(** ** State (fst.h 87-185) *)

(** A [shared_ptr<State>] is the address of the state in the store. *)
Abbreviation loc := nat (only parsing).

Record State : Type := mkState {
  id : Z;
  trans : gmap Z loc;
  output : gmap Z Z;
  tail : list Z;
  isFinal : bool;
  hcode : Z
}.

(** [make_shared<State>()] value-initialises: every scalar is zero. *)
Definition State_zero : State := mkState 0 ∅ ∅ [] false 0.

Definition hasTail (s : State) : bool :=
  match tail s with [] => false | _ => true end.

Definition addTail (t : Z) (s : State) : State :=
  mkState (id s) (trans s) (output s) (set_insert t (tail s)) (isFinal s) (hcode s).

Definition removeOutput (ch : Z) (s : State) : State :=
  let magic := 8191 in
  let it := output s !! ch in
  let hcode1 :=
    match it with
    | Some second =>
        if second =? 0 then hcode s
        else to_int64 (hcode s - (ch + second) * magic)
    | None => hcode s
    end in
  let output1 :=
    match it with
    | Some _ => delete ch (output s)
    | None => output s
    end in
  mkState (id s) (trans s) output1 (tail s) (isFinal s) hcode1.

Definition setOutput (ch out : Z) (s : State) : State :=
  if out =? 0 then s
  else
    let magic := 8191 in
    mkState (id s) (trans s) (umap_insert ch out (output s)) (tail s)
      (isFinal s) (to_int64 (hcode s + (ch + out) * magic)).

(** [setTransition(ch, next)]; [next_id] is [next->id]. *)
Definition setTransition (ch : Z) (next : loc) (next_id : Z) (s : State) : State :=
  let magic := 1001 in
  mkState (id s) (umap_insert ch next (trans s)) (output s) (tail s)
    (isFinal s) (to_int64 (hcode s + (ch + next_id) * magic)).

Definition renew (s : State) : State :=
  mkState (id s) ∅ ∅ [] false 0.

Definition set_isFinal (b : bool) (s : State) : State :=
  mkState (id s) (trans s) (output s) (tail s) b (hcode s).

Definition set_id (n : Z) (s : State) : State :=
  mkState n (trans s) (output s) (tail s) (isFinal s) (hcode s).

(** [State::operator==]; [this_] and [that] are the two addresses, the
    successors in [trans] are compared as pointers. *)
Definition State_eqb (this_ that : loc) (a b : State) : bool :=
  if bool_decide (this_ = that) then true
  else if negb (hcode a =? hcode b) then false
  else if negb (Nat.eqb (size (trans a)) (size (trans b)))
          || negb (Nat.eqb (size (output a)) (size (output b)))
          || negb (Nat.eqb (length (tail a)) (length (tail b)))
          || negb (eqb (isFinal a) (isFinal b)) then false
  else if negb (bool_decide (trans a = trans b))
          || negb (bool_decide (output a = output b))
          || negb (bool_decide (tail a = tail b)) then false
  else true.

(** ** Instructions (fst.h 187-213) *)

Inductive Operation : Set :=
| Accept | AcceptBreak | Match | Break | Output | OutputBreak.

Definition Operation_value (o : Operation) : Z :=
  match o with
  | Accept => 1 | AcceptBreak => 2 | Match => 3
  | Break => 4 | Output => 5 | OutputBreak => 6
  end.

(** [switch (op)] on the raw opcode byte; [None] is the [default] label. *)
Definition Operation_of (b : Z) : option Operation :=
  if b =? 1 then Some Accept
  else if b =? 2 then Some AcceptBreak
  else if b =? 3 then Some Match
  else if b =? 4 then Some Break
  else if b =? 5 then Some Output
  else if b =? 6 then Some OutputBreak
  else None.

(** [getOperationString(op)], on the byte of the opcode. *)
Definition opStr : list string := ["NA"; "ACC"; "ACB"; "MTC"; "BRK"; "OUT"; "OUB"].

Definition getOperationString (op : Z) : string :=
  let opNum := to_uint8 op in
  if opNum <? vec_size opStr
  then match opStr !! Z.to_nat opNum with Some s => s | None => "NA" end
  else "NA".

(** An [Instruction] is one 32-bit cell, kept as its unsigned value; the
    union gives two views of it. *)
Abbreviation Instruction := Z (only parsing).

Definition ops_op (c : Instruction) : Z := Z.land c 255.
Definition ops_ch (c : Instruction) : Z := Z.land (Z.shiftr c 8) 255.
Definition ops_jump (c : Instruction) : Z := Z.land (Z.shiftr c 16) 65535.
Definition v32 (c : Instruction) : Z := to_int32 c.

Definition set_ops_op (o : Z) (c : Instruction) : Instruction :=
  Z.lor (Z.land c 4294967040) (to_uint8 o).
Definition set_ops_ch (ch : Z) (c : Instruction) : Instruction :=
  Z.lor (Z.land c 4294902015) (Z.shiftl (to_uint8 ch) 8).
Definition set_ops_jump (j : Z) (c : Instruction) : Instruction :=
  Z.lor (Z.land c 65535) (Z.shiftl (to_uint16 j) 16).
Definition set_v32 (v : Z) (c : Instruction) : Instruction := to_uint32 v.

(** The op cell with the three fields given, and the raw cell. *)
Definition op_cell (o : Operation) (ch jump : Z) : Instruction :=
  set_ops_jump jump (set_ops_ch ch (set_ops_op (Operation_value o) 0)).
Definition raw_cell (v : Z) : Instruction := set_v32 v 0.

(** ** The virtual machine (fst.h 215-438) *)

Record Configuration : Type := mkConfiguration {
  c_pc : Z;          (* program counter *)
  c_hd : Z;          (* input head *)
  c_out : list Z     (* outputs *)
}.

Record FST : Type := mkFST {
  prog : list Instruction;
  data : list Z
}.

(** The locals of [run]. [out] and [op] are declared without an
    initialiser: their first values are whatever [uninit] supplies. *)
Record regs : Type := mkRegs {
  pc : Z;
  hd : Z;
  out : Z;
  op : Z;
  snap : list Configuration
}.

Record uninit : Type := mkUninit { uninit_out : Z; uninit_op : Z }.

(** How one pass through the loop body ends. *)
Inductive ctl : Type :=
| Continue (r : regs)
| Goto_L_END (r : regs)
| Return (snap : list Configuration).

(** [data.begin() + from, data.begin() + to] as an iterator range. *)
Definition data_range (data : list Z) (from to : Z) : res (list Z) :=
  if (from <? 0) || (vec_size data <? to) then Fault OobRead
  else if to <? from then Fault BadRange
  else Ok (take (Z.to_nat (to - from)) (drop (Z.to_nat from) data)).

(** The jump of a matched transition: [pc += jump], or the immediate in
    the next cell when the 16-bit field is zero. *)
Definition take_jump (prog : list Instruction) (pc jump : Z) : res Z :=
  if 0 <? jump then int_checked (pc + jump)
  else
    pc ← int_checked (pc + 1);
    code ← vec_at prog pc;
    int_checked (pc + v32 code).

(** The body of the [while] loop, entered with the loop condition true. *)
Definition run_body (t : FST) (input : bytes) (r : regs) : res ctl :=
  code ← vec_at (prog t) (pc r);
  let op := ops_op code in
  let ch := ops_ch code in
  let jump := ops_jump code in
  let r := mkRegs (pc r) (hd r) (out r) op (snap r) in
  match Operation_of op with
  | Some Match | Some Break =>
      if hd r =? vec_size input then Ok (Goto_L_END r)
      else
        c ← vec_at input (hd r);
        if negb (ch =? char_to_int c) then
          if op =? Operation_value Break then Ok (Return (snap r))
          else
            pc1 ← (if jump =? 0 then int_checked (pc r + 1) else Ok (pc r));
            pc2 ← int_checked (pc1 + 1);
            Ok (Continue (mkRegs pc2 (hd r) (out r) op (snap r)))
        else
          pc' ← take_jump (prog t) (pc r) jump;
          hd' ← int_checked (hd r + 1);
          Ok (Continue (mkRegs pc' hd' (out r) op (snap r)))
  | Some Output | Some OutputBreak =>
      if hd r =? vec_size input then Ok (Goto_L_END r)
      else
        c ← vec_at input (hd r);
        if negb (ch =? char_to_int c) then
          if op =? Operation_value OutputBreak then Ok (Return (snap r))
          else
            pc1 ← (if jump =? 0 then int_checked (pc r + 1) else Ok (pc r));
            pc2 ← int_checked (pc1 + 1);
            pc3 ← int_checked (pc2 + 1);
            Ok (Continue (mkRegs pc3 (hd r) (out r) op (snap r)))
        else
          pc1 ← int_checked (pc r + 1);
          code1 ← vec_at (prog t) pc1;
          let out := v32 code1 in
          pc' ← take_jump (prog t) pc1 jump;
          hd' ← int_checked (hd r + 1);
          Ok (Continue (mkRegs pc' hd' out op (snap r)))
  | Some Accept | Some AcceptBreak =>
      pc1 ← int_checked (pc r + 1);
      '(pc', c_out) ←
        (if ch =? 0 then Ok (pc1, [out r])
         else
           code1 ← vec_at (prog t) pc1;
           let to := v32 code1 in
           pc2 ← int_checked (pc1 + 1);
           code2 ← vec_at (prog t) pc2;
           let from := v32 code2 in
           o ← data_range (data t) from to;
           pc3 ← int_checked (pc2 + 1);
           Ok (pc3, o));
      let c := mkConfiguration (pc r) (hd r) c_out in
      let r' := mkRegs pc' (hd r) (out r) op (snap r ++ [c]) in
      if (op =? Operation_value AcceptBreak) || (hd r =? vec_size input)
      then Ok (Goto_L_END r')
      else Ok (Continue r')
  | None => Ok (Return (snap r))
  end.

(** The code from the label [L_END] on: the snapshots and [*accept]. *)
Definition run_end (input : bytes) (r : regs) : list Configuration * bool :=
  if negb (hd r =? vec_size input) then (snap r, false)
  else if negb (op r =? Operation_value Accept)
          && negb (op r =? Operation_value AcceptBreak) then (snap r, false)
  else (snap r, true).

(** [pc < prog.size() && hd <= input.size()]. Both comparisons are made
    in [size_t]; a negative [pc] converts to a value above every vector
    size, so the test is the signed one together with [0 <= pc]. *)
Definition run_cond (t : FST) (input : bytes) (r : regs) : bool :=
  (0 <=? pc r) && (pc r <? vec_size (prog t)) && (hd r <=? vec_size input).

(** The loop, unrolled [fuel] times; [None] when the fuel runs out. *)
Fixpoint run_loop (fuel : nat) (t : FST) (input : bytes) (r : regs)
  : option (res (list Configuration * bool)) :=
  match fuel with
  | O => None
  | S fuel' =>
      if run_cond t input r then
        match run_body t input r with
        | Ok (Continue r') => run_loop fuel' t input r'
        | Ok (Goto_L_END r') => Some (Ok (run_end input r'))
        | Ok (Return s) => Some (Ok (s, false))
        | Throw => Some Throw
        | Fault f => Some (Fault f)
        end
      else Some (Ok (run_end input r))
  end.

Definition run_init (u : uninit) : regs :=
  mkRegs 0 0 (uninit_out u) (uninit_op u) [].

(** Enough iterations for any run: see [run_loop_total]. *)
Definition run_fuel (t : FST) (input : bytes) : nat :=
  S (S (length input) * S (length (prog t))).

Definition run (u : uninit) (t : FST) (input : bytes)
  : res (list Configuration * bool) :=
  match run_loop (run_fuel t input) t input (run_init u) with
  | Some r => r
  | None => Ok ([], false)
  end.

Definition Search (u : uninit) (t : FST) (input : bytes) : res (list Z) :=
  '(snap, accept) ← run u t input;
  if negb accept || (vec_size snap =? 0) then Ok []
  else match last snap with
       | Some c => Ok (c_out c)
       | None => Ok []
       end.

(** The outputs and [*length]. *)
Definition PrefixSearch (u : uninit) (t : FST) (input : bytes)
  : res (list Z * Z) :=
  '(snap, _) ← run u t input;
  match last snap with
  | None => Ok ([], -1)
  | Some c => Ok (c_out c, c_hd c)
  end.

(** The outputs and [*lens]. *)
Definition CommonPrefixSearch (u : uninit) (t : FST) (input : bytes)
  : res (list (list Z) * list Z) :=
  '(snap, _) ← run u t input;
  Ok (map c_out snap, map c_hd snap).

(** ** The codec (fst.h 440-579) *)

(** The [for] loop of [Write] over the program. The loop variable [pc]
    is the position of the head of [cells] in [prog]; the [++pc] inside
    the cases move to the following cells, a fault when there is none.
    The result is what [Write] returns and the stream. *)
Fixpoint Write_prog (cells : list Instruction) (w : bytes) : res (bool * bytes) :=
  match cells with
  | [] => Ok (true, w)
  | code :: rest =>
      let op := ops_op code in
      let ch := ops_ch code in
      let jump := ops_jump code in
      (* write op and ch *)
      let w := WriteUint sizeof_uint8 w (to_uint8 op) in
      let w := WriteUint sizeof_uint8 w (to_uint8 ch) in
      match Operation_of op with
      | Some Accept | Some AcceptBreak =>
          if ch =? 0 then Write_prog rest w
          else
            match rest with
            | to :: from :: rest' =>
                let w := WriteUint sizeof_uint32 w (to_uint32 (v32 to)) in
                let w := WriteUint sizeof_uint32 w (to_uint32 (v32 from)) in
                Write_prog rest' w
            | _ => Fault OobRead
            end
      | Some Match | Some Break =>
          let w := WriteUint sizeof_uint16 w (to_uint16 jump) in
          if negb (jump =? 0) then Write_prog rest w
          else
            match rest with
            | code1 :: rest' =>
                let w := WriteUint sizeof_uint32 w (to_uint32 (v32 code1)) in
                Write_prog rest' w
            | [] => Fault OobRead
            end
      | Some Output | Some OutputBreak =>
          let w := WriteUint sizeof_uint16 w (to_uint16 jump) in
          match rest with
          | code1 :: rest' =>
              let w := WriteUint sizeof_uint32 w (to_uint32 (v32 code1)) in
              if negb (jump =? 0) then Write_prog rest' w
              else
                match rest' with
                | code2 :: _ =>
                    let w := WriteUint sizeof_uint32 w (to_uint32 (v32 code2)) in
                    (* no break: control falls into the default label *)
                    Ok (false, w)
                | [] => Fault OobRead
                end
          | [] => Fault OobRead
          end
      | None => Ok (false, w)
      end
  end.

Definition Write_data (data : list Z) (w : bytes) : bytes :=
  foldl (fun w v => WriteUint sizeof_uint32 w (to_uint32 v)) w data.

Definition Write (t : FST) (w : bytes) : res (bool * bytes) :=
  let dataLen := vec_size (data t) in
  let w := WriteUint sizeof_size_t w dataLen in
  let w := Write_data (data t) w in
  let progLen := vec_size (prog t) in
  let w := WriteUint sizeof_size_t w progLen in
  Write_prog (prog t) w.

(** The first loop of [Read], with [n = dataLen - i] iterations to go.
    Every iteration takes at least one byte from the stream or uses a
    buffer without a value, so the loop cannot run more often than the
    stream has bytes: [fuel] counts those. *)
Fixpoint Read_data (fuel : nat) (n : Z) (r : bytes) (data : list Z)
  : res (list Z * bytes) :=
  if n =? 0 then Ok (data, r)
  else
    match fuel with
    | O => '(_, _) ← ReadUint sizeof_uint32 r; Fault StreamEnd
    | S fuel' =>
        '(v, r) ← ReadUint sizeof_uint32 r;
        Read_data fuel' (n - 1) r (data ++ [to_int32 v])
    end.

(** The second loop of [Read], [n = progLen - pc] iterations to go; [code]
    is the local [Instruction] the cells are assembled in. Every iteration
    takes at least one byte or uses a buffer without a value. *)
Fixpoint Read_prog (fuel : nat) (n : Z) (r : bytes) (code : Instruction)
    (prog : list Instruction) : res (bool * list Instruction * bytes) :=
  if n =? 0 then Ok (true, prog, r)
  else
    match fuel with
    | O => '(_, _) ← ReadUint sizeof_uint8 r; Fault StreamEnd
    | S fuel' =>
        '(op, r) ← ReadUint sizeof_uint8 r;
        '(ch, r) ← ReadUint sizeof_uint8 r;
        match Operation_of op with
        | Some Accept | Some AcceptBreak =>
            let code := set_ops_jump 0 (set_ops_ch ch (set_ops_op op code)) in
            let prog := prog ++ [code] in
            if ch =? 0 then Read_prog fuel' (n - 1) r code prog
            else
              '(v, r) ← ReadUint sizeof_uint32 r;
              let code := set_v32 (to_int32 v) code in
              let prog := prog ++ [code] in
              '(v, r) ← ReadUint sizeof_uint32 r;
              let code := set_v32 (to_int32 v) code in
              let prog := prog ++ [code] in
              Read_prog fuel' (n - 1) r code prog
        | Some Match | Some Break =>
            '(jump, r) ← ReadUint sizeof_uint16 r;
            let code := set_ops_jump jump (set_ops_ch ch (set_ops_op op code)) in
            let prog := prog ++ [code] in
            if negb (ops_jump code =? 0) then Read_prog fuel' (n - 1) r code prog
            else
              '(v, r) ← ReadUint sizeof_uint32 r;
              let code := set_v32 (to_int32 v) code in
              let prog := prog ++ [code] in
              Read_prog fuel' (n - 1) r code prog
        | Some Output | Some OutputBreak =>
            '(jump, r) ← ReadUint sizeof_uint16 r;
            let code := set_ops_jump jump (set_ops_ch ch (set_ops_op op code)) in
            let prog := prog ++ [code] in
            '(v, r) ← ReadUint sizeof_uint32 r;
            let code := set_v32 (to_int32 v) code in
            let prog := prog ++ [code] in
            if negb (jump =? 0) then Read_prog fuel' (n - 1) r code prog
            else
              '(v, r) ← ReadUint sizeof_uint32 r;
              let code := set_v32 (to_int32 v) code in
              let prog := prog ++ [code] in
              Read_prog fuel' (n - 1) r code prog
        | None => Ok (false, prog, r)
        end
    end.

(** [vector::max_size()] for the two vectors, both of 4-byte elements. *)
Definition vector_max_size : Z := 2 ^ 61 - 1.

(** [v.reserve(n)]. A request above [max_size()] throws
    [std::length_error]; a request the vector holds as many elements as
    does nothing; any other request succeeds when the vector has the
    capacity or the allocator has a block of that size, and throws
    [std::bad_alloc] otherwise. [avail] is the largest request that
    succeeds; it belongs to the environment of the call, as the stream
    does. (The growth of a vector in [push_back] asks for room in
    proportion to what is stored, not to what the stream announces, and
    is taken to succeed.) *)
Definition reserve {A} (avail : Z) (v : list A) (n : Z) : res unit :=
  if vector_max_size <? n then Throw
  else if n <=? vec_size v then Ok tt
  else if n <=? avail then Ok tt
  else Throw.

(** The largest requests [data.reserve] and [prog.reserve] are granted. *)
Record room : Type := mkRoom { room_data : Z; room_prog : Z }.

(** [Read] on the object [t] (its vectors are appended to) and the stream
    [r]: the returned flag, the object afterwards, the rest of the
    stream. *)
Definition Read (a : room) (t : FST) (r : bytes) : res (bool * FST * bytes) :=
  '(dataLen, r) ← ReadUint sizeof_size_t r;
  _ ← reserve (room_data a) (data t) dataLen;
  '(data', r) ← Read_data (length r) dataLen r (data t);
  '(progLen, r) ← ReadUint sizeof_size_t r;
  _ ← reserve (room_prog a) (prog t) progLen;
  '(ok, prog', r) ← Read_prog (length r) progLen r 0 (prog t);
  Ok (ok, mkFST prog' data', r).

Definition FST_new : FST := mkFST [] [].

(** ** The store and the MAST (fst.h 583-595) *)

(** The states [shared_ptr<State>] values point to, by address. *)
Abbreviation heap := (list State) (only parsing).

(** Reading through a pointer [p], and [p->f(...)] for a mutator [f]; a
    dangling or null [p] is a fault. *)
Definition deref (h : heap) (p : loc) : res State :=
  match h !! p with
  | Some s => Ok s
  | None => Fault OobRead
  end.

Definition mutate (p : loc) (f : State -> State) (h : heap) : res heap :=
  s ← deref h p; Ok (<[p := f s]> h).

(** [make_shared<State>(s)]: a fresh address holding a copy of [s]. *)
Definition make_shared (s : State) (h : heap) : loc * heap :=
  (length h, h ++ [s]).

Record Mast : Type := mkMast {
  initialState : option loc;
  states : list loc;
  finalStates : list loc
}.

Definition Mast_new : Mast := mkMast None [] [].

Definition addState (n : loc) (m : Mast) (h : heap) : res (Mast * heap) :=
  h ← mutate n (set_id (to_int32 (vec_size (states m)))) h;
  s ← deref h n;
  let states' := states m ++ [n] in
  let finalStates' := if isFinal s then finalStates m ++ [n] else finalStates m in
  Ok (mkMast (initialState m) states' finalStates', h).

(** ** Running the MAST itself (fst.h 597-630) *)

(** Reading through a [shared_ptr] that may be null. *)
Definition deref_ptr (h : heap) (s : option loc) : res State :=
  match s with
  | Some p => deref h p
  | None => Fault OobRead
  end.

(** The loop of [Mast::accept] from the state [s] on. *)
Fixpoint Mast_accept_from (h : heap) (s : option loc) (input : bytes) : res bool :=
  match input with
  | [] => Ok true
  | c :: input' =>
      st ← deref_ptr h s;
      match trans st !! to_uint8 c with
      | Some next => Mast_accept_from h (Some next) input'
      | None => Ok false
      end
  end.

Definition Mast_accept (h : heap) (m : Mast) (input : bytes) : res bool :=
  Mast_accept_from h (initialState m) input.

(** The loop of [Mast::run] from the state [s] on, and the tails after
    it: the outputs, and [*ok] afterwards. *)
Fixpoint Mast_run_from (h : heap) (s : option loc) (input : bytes)
    (out : list Z) (ok : bool) : res (list Z * bool) :=
  match input with
  | [] =>
      st ← deref_ptr h s;
      Ok (foldl (fun out t => out ++ [t]) out (tail st), ok)
  | c :: input' =>
      st ← deref_ptr h s;
      let out :=
        match output st !! to_uint8 c with
        | Some second => out ++ [second]
        | None => out
        end in
      match trans st !! to_uint8 c with
      | Some next => Mast_run_from h (Some next) input' out ok
      | None => Ok (out, false)
      end
  end.

Definition Mast_run (h : heap) (m : Mast) (input : bytes) (ok : bool)
  : res (list Z * bool) :=
  Mast_run_from h (initialState m) input [] ok.

(** ** The compiler (fst.h 658-739) *)

(** The locals of [buildMachine]. *)
Record cstate : Type := mkCstate {
  cs_prog : list Instruction;
  cs_data : list Z;
  cs_code : Instruction;          (* tmp instruction *)
  cs_addrMap : gmap Z Z
}.

Definition push_code (c : cstate) : cstate :=
  mkCstate (cs_prog c ++ [cs_code c]) (cs_data c) (cs_code c) (cs_addrMap c).
Definition with_code (f : Instruction -> Instruction) (c : cstate) : cstate :=
  mkCstate (cs_prog c) (cs_data c) (f (cs_code c)) (cs_addrMap c).
Definition push_data (t : Z) (c : cstate) : cstate :=
  mkCstate (cs_prog c) (cs_data c ++ [t]) (cs_code c) (cs_addrMap c).
Definition record_addr (k v : Z) (c : cstate) : cstate :=
  mkCstate (cs_prog c) (cs_data c) (cs_code c) (umap_insert k v (cs_addrMap c)).

(** The message assembled in the [stringstream]: [s->id] in decimal, and
    [ch], a [uint8_t], as the character it is. *)
Definition next_addr_message (s_id ch : Z) : string :=
  "next addr is undefined: state(" +:+ pretty s_id +:+ "), input("
    +:+ String (Ascii.ascii_of_N (Z.to_N (to_uint8 ch))) "" +:+ ")".

(** [set<uint8_t> edges], filled from the keys of [s->trans]. *)
Definition edges_of (s : State) : list Z :=
  foldr set_insert [] (map fst (map_to_list (trans s))).

(** One pass through the loop over [edges.crbegin() .. edges.crend()];
    [first] is [it == edges.crbegin()]. The caller's [*err] is threaded
    through and survives a throw or a fault. *)
Definition emit_edge (h : heap) (s : State) (first : bool) (ch : Z)
    (c : cstate) (err : string) : string * res cstate :=
  match umap_at (trans s) ch with
  | Ok next =>
      match umap_at (output s) ch with
      | Ok out =>
          match deref h next with
          | Ok nexts =>
              let itAddr := cs_addrMap c !! id nexts in
              let err :=
                if bool_decide (itAddr = None) && negb (isFinal nexts)
                then next_addr_message (id s) ch
                else err in
              match itAddr with
              | None => (err, Fault EndIterDeref)
              | Some second =>
                  let jump := to_size_t (vec_size (cs_prog c) - to_size_t second + 1) in
                  let op :=
                    if negb (out =? 0) then
                      if first then OutputBreak else Output
                    else if first then Break
                    else Match in
                  let '(c, jump) :=
                    if UINT16_MAX <? jump
                    then (push_code (with_code (set_v32 (to_int32 jump)) c), 0)
                    else (c, jump) in
                  let c :=
                    if negb (out =? 0)
                    then push_code (with_code (set_v32 out) c)
                    else c in
                  let c := with_code (set_ops_op (Operation_value op)) c in
                  let c := with_code (set_ops_ch ch) c in
                  let c := with_code (set_ops_jump (to_uint16 jump)) c in
                  (err, Ok (push_code c))
              end
          | Throw => (err, Throw)
          | Fault f => (err, Fault f)
          end
      | Throw => (err, Throw)
      | Fault f => (err, Fault f)
      end
  | Throw => (err, Throw)
  | Fault f => (err, Fault f)
  end.

Fixpoint emit_edges (h : heap) (s : State) (first : bool) (edges : list Z)
    (c : cstate) (err : string) : string * res cstate :=
  match edges with
  | [] => (err, Ok c)
  | ch :: edges' =>
      match emit_edge h s first ch c err with
      | (err, Ok c) => emit_edges h s false edges' c err
      | (err, Throw) => (err, Throw)
      | (err, Fault f) => (err, Fault f)
      end
  end.

(** The block [if (s->isFinal) { ... }]. *)
Definition emit_final (s : State) (c : cstate) : cstate :=
  if isFinal s then
    let c :=
      if negb (bool_decide (tail s = [])) then
        let c := push_code (with_code (set_v32 (to_int32 (vec_size (cs_data c)))) c) in
        let c := foldl (fun c t => push_data t c) c (tail s) in
        push_code (with_code (set_v32 (to_int32 (vec_size (cs_data c)))) c)
      else c in
    let c :=
      if bool_decide (trans s = ∅)
      then with_code (set_ops_op (Operation_value Accept)) c
      else with_code (set_ops_op (Operation_value AcceptBreak)) c in
    (* clear *)
    let c := with_code (set_ops_ch 0) c in
    let c := with_code (set_ops_jump 0) c in
    let c :=
      if negb (bool_decide (tail s = []))
      then with_code (set_ops_ch 1) c
      else c in
    push_code c
  else c.

(** One pass through [for (auto s : states)]. *)
Definition emit_state (h : heap) (p : loc) (c : cstate) (err : string)
  : string * res cstate :=
  match deref h p with
  | Ok s =>
      match emit_edges h s true (rev (edges_of s)) c err with
      | (err, Ok c) =>
          let c := emit_final s c in
          (err, Ok (record_addr (id s) (to_int32 (vec_size (cs_prog c))) c))
      | bad => bad
      end
  | Throw => (err, Throw)
  | Fault f => (err, Fault f)
  end.

Fixpoint emit_states (h : heap) (ps : list loc) (c : cstate) (err : string)
  : string * res cstate :=
  match ps with
  | [] => (err, Ok c)
  | p :: ps' =>
      match emit_state h p c err with
      | (err, Ok c) => emit_states h ps' c err
      | bad => bad
      end
  end.

Definition cstate_init : cstate := mkCstate [] [] 0 ∅.

(** The provisional stream: the locals after the loop over the states. *)
Definition provisional (h : heap) (m : Mast) (err : string)
  : string * res cstate :=
  emit_states h (states m) cstate_init err.

(** [std::reverse_copy(first, last, d_first)] with [d_first] the
    beginning of the vector [dst]: it assigns to the [last - first]
    elements from [d_first] on and never changes the size of [dst]; they
    have to exist. *)
Definition reverse_copy {A} (src dst : list A) : res (list A) :=
  if (length dst <? length src)%nat then Fault OobWrite
  else Ok (rev src ++ drop (length src) dst).

(** [buildMachine(err)]: [*err] afterwards and the machine returned. *)
Definition buildMachine (h : heap) (m : Mast) (err : string)
  : string * res FST :=
  match provisional h m err with
  | (err, Ok c) =>
      let t := FST_new in
      match reverse_copy (cs_prog c) (prog t) with
      | Ok prog' => (err, Ok (mkFST prog' (cs_data c)))
      | Throw => (err, Throw)
      | Fault f => (err, Fault f)
      end
  | (err, Throw) => (err, Throw)
  | (err, Fault f) => (err, Fault f)
  end.

(** ** [std::sort] (libstdc++, bits/stl_algo.h and bits/stl_heap.h) *)

(** [buildMAST] sorts its input with [std::sort], which libstdc++
    implements as an introsort: quicksort with a median of three down to
    ranges of 16 elements, heap sort once the depth limit is used up, and
    one insertion sort over the whole range at the end.  The functions
    below are those of the library with the leading underscores taken
    off; an iterator is a position in the vector, and a read or a write
    outside the vector is a fault.

    The loops of the library that no count bounds take a fuel.  They are
    started with more fuel than they can use: every turn of
    [scan_up] and of [unguarded_partition] moves a position up that is
    read inside the vector, every turn of [push_heap] moves the hole to
    its parent, and every turn of [sift_down] moves it to a child. *)

Section Sort.
Context {A : Type} (lt : A -> A -> bool).

(** [*(first + i)] as a read and as the target of an assignment. *)
Definition vget (v : list A) (i : nat) : res A :=
  match v !! i with
  | Some x => Ok x
  | None => Fault OobRead
  end.

Definition vset (v : list A) (i : nat) (x : A) : res (list A) :=
  if decide (i < length v)%nat then Ok (<[i := x]> v) else Fault OobWrite.

Definition iter_swap (v : list A) (i j : nat) : res (list A) :=
  x ← vget v i;
  y ← vget v j;
  v ← vset v i y;
  vset v j x.

(** The loop of [__unguarded_linear_insert]: [last] is the hole, the test
    reads the element before it. *)
Fixpoint linear_insert_loop (val : A) (last : nat) (v : list A) : res (list A) :=
  match last with
  | O => Fault OobRead
  | S next =>
      x ← vget v next;
      if lt val x then
        v ← vset v (S next) x;
        linear_insert_loop val next v
      else vset v (S next) val
  end.

Definition unguarded_linear_insert (last : nat) (v : list A) : res (list A) :=
  val ← vget v last;
  linear_insert_loop val last v.

(** [std::move_backward(first, first + n, first + n + 1)]. *)
Fixpoint move_backward (first n : nat) (v : list A) : res (list A) :=
  match n with
  | O => Ok v
  | S n' =>
      x ← vget v (first + n')%nat;
      v ← vset v (first + n' + 1)%nat x;
      move_backward first n' v
  end.

(** The loop of [__insertion_sort], [n] elements from [i] on to go. *)
Fixpoint insertion_sort_loop (first i n : nat) (v : list A) : res (list A) :=
  match n with
  | O => Ok v
  | S n' =>
      x ← vget v i;
      f ← vget v first;
      v ← (if lt x f then
             v ← move_backward first (i - first) v;
             vset v first x
           else unguarded_linear_insert i v);
      insertion_sort_loop first (S i) n' v
  end.

Definition insertion_sort (first last : nat) (v : list A) : res (list A) :=
  if decide (first = last) then Ok v
  else insertion_sort_loop first (S first) (last - S first) v.

Fixpoint unguarded_insertion_sort_loop (i n : nat) (v : list A) : res (list A) :=
  match n with
  | O => Ok v
  | S n' =>
      v ← unguarded_linear_insert i v;
      unguarded_insertion_sort_loop (S i) n' v
  end.

Definition unguarded_insertion_sort (first last : nat) (v : list A)
  : res (list A) :=
  unguarded_insertion_sort_loop first (last - first) v.

Definition S_threshold : nat := 16.

Definition final_insertion_sort (first last : nat) (v : list A) : res (list A) :=
  if (S_threshold <? last - first)%nat then
    v ← insertion_sort first (first + S_threshold) v;
    unguarded_insertion_sort (first + S_threshold) last v
  else insertion_sort first last v.

Definition move_median_to_first (result a b c : nat) (v : list A)
  : res (list A) :=
  va ← vget v a;
  vb ← vget v b;
  vc ← vget v c;
  if lt va vb then
    if lt vb vc then iter_swap v result b
    else if lt va vc then iter_swap v result c
    else iter_swap v result a
  else if lt va vc then iter_swap v result a
  else if lt vb vc then iter_swap v result c
  else iter_swap v result b.

(** [while (comp(first, pivot)) ++first;] *)
Fixpoint scan_up (fuel : nat) (v : list A) (pivot first : nat) : res nat :=
  match fuel with
  | O => Fault OobRead
  | S fuel' =>
      x ← vget v first;
      p ← vget v pivot;
      if lt x p then scan_up fuel' v pivot (S first) else Ok first
  end.

(** [while (comp(pivot, last)) --last;] *)
Fixpoint scan_down (v : list A) (pivot last : nat) : res nat :=
  p ← vget v pivot;
  x ← vget v last;
  if lt p x then
    match last with
    | O => Fault OobRead
    | S last' => scan_down v pivot last'
    end
  else Ok last.

Fixpoint unguarded_partition (fuel : nat) (first last pivot : nat) (v : list A)
  : res (nat * list A) :=
  match fuel with
  | O => Fault OobRead
  | S fuel' =>
      first ← scan_up (S (length v)) v pivot first;
      match last with
      | O => Fault OobRead
      | S last =>
          last ← scan_down v pivot last;
          if negb (first <? last)%nat then Ok (first, v)
          else
            v ← iter_swap v first last;
            unguarded_partition fuel' (S first) last pivot v
      end
  end.

Definition unguarded_partition_pivot (first last : nat) (v : list A)
  : res (nat * list A) :=
  let mid := (first + (last - first) / 2)%nat in
  v ← move_median_to_first first (first + 1)%nat mid (last - 1)%nat v;
  unguarded_partition (S (length v)) (first + 1)%nat last first v.

(** [__push_heap]; [(holeIndex - 1) / 2] is 0 for the hole 0. *)
Fixpoint push_heap (fuel : nat) (first hole top : nat) (value : A) (v : list A)
  : res (list A) :=
  match fuel with
  | O => Fault OobRead
  | S fuel' =>
      let parent := ((hole - 1) / 2)%nat in
      if (top <? hole)%nat then
        p ← vget v (first + parent)%nat;
        if lt p value then
          v ← vset v (first + hole)%nat p;
          push_heap fuel' first parent top value v
        else vset v (first + hole)%nat value
      else vset v (first + hole)%nat value
  end.

(** The first loop of [__adjust_heap]: the hole moves down to the larger
    child while it has two children. *)
Fixpoint sift_down (fuel : nat) (first hole len : nat) (v : list A)
  : res (nat * list A) :=
  match fuel with
  | O => Fault OobRead
  | S fuel' =>
      if (hole <? (len - 1) / 2)%nat then
        let secondChild := (2 * (hole + 1))%nat in
        a ← vget v (first + secondChild)%nat;
        b ← vget v (first + (secondChild - 1))%nat;
        let secondChild := if lt a b then (secondChild - 1)%nat else secondChild in
        x ← vget v (first + secondChild)%nat;
        v ← vset v (first + hole)%nat x;
        sift_down fuel' first secondChild len v
      else Ok (hole, v)
  end.

(** [__adjust_heap]; in the test for a last node with one child,
    [(len - 2) / 2] is -1 for the length 0. *)
Definition adjust_heap (first hole len : nat) (value : A) (v : list A)
  : res (list A) :=
  let topIndex := hole in
  '(hole, v) ← sift_down (S len) first hole len v;
  '(hole, v) ←
    (if Nat.even len && (0 <? len)%nat && (hole =? (len - 2) / 2)%nat then
       let secondChild := (2 * (hole + 1))%nat in
       x ← vget v (first + (secondChild - 1))%nat;
       v ← vset v (first + hole)%nat x;
       Ok ((secondChild - 1)%nat, v)
     else Ok (hole, v));
  push_heap (S hole) first hole topIndex value v.

Definition pop_heap (first last result : nat) (v : list A) : res (list A) :=
  value ← vget v result;
  x ← vget v first;
  v ← vset v result x;
  adjust_heap first 0 (last - first) value v.

Fixpoint make_heap_loop (first len parent : nat) (v : list A) : res (list A) :=
  value ← vget v (first + parent)%nat;
  v ← adjust_heap first parent len value v;
  match parent with
  | O => Ok v
  | S parent' => make_heap_loop first len parent' v
  end.

Definition make_heap (first last : nat) (v : list A) : res (list A) :=
  if (last - first <? 2)%nat then Ok v
  else
    let len := (last - first)%nat in
    make_heap_loop first len ((len - 2) / 2) v.

(** [__sort_heap], [n = last - first]. *)
Fixpoint sort_heap (first n : nat) (v : list A) : res (list A) :=
  match n with
  | O => Ok v
  | S n' =>
      if (1 <? n)%nat then
        v ← pop_heap first (first + n')%nat (first + n')%nat v;
        sort_heap first n' v
      else Ok v
  end.

(** The loop of [__heap_select], [n] elements from [i] on to go. *)
Fixpoint heap_select_loop (first middle i n : nat) (v : list A) : res (list A) :=
  match n with
  | O => Ok v
  | S n' =>
      x ← vget v i;
      f ← vget v first;
      v ← (if lt x f then pop_heap first middle i v else Ok v);
      heap_select_loop first middle (S i) n' v
  end.

Definition partial_sort (first middle last : nat) (v : list A) : res (list A) :=
  v ← make_heap first middle v;
  v ← heap_select_loop first middle middle (last - middle) v;
  sort_heap first (middle - first) v.

Fixpoint introsort_loop (depth_limit : nat) (first last : nat) (v : list A)
  : res (list A) :=
  if (S_threshold <? last - first)%nat then
    match depth_limit with
    | O => partial_sort first last last v
    | S depth_limit =>
        '(cut, v) ← unguarded_partition_pivot first last v;
        v ← introsort_loop depth_limit cut last v;
        introsort_loop depth_limit first cut v
    end
  else Ok v.

(** [std::__sort(first, last, comp)]. *)
Definition sort (first last : nat) (v : list A) : res (list A) :=
  if decide (first = last) then Ok v
  else
    v ← introsort_loop (Nat.log2 (last - first) * 2) first last v;
    final_insertion_sort first last v.

End Sort.

(** ** Input pairs and their order (fst.h 19-23, 78-85) *)

Record Pair : Type := mkPair {
  Pair_in : bytes;
  Pair_out : Z
}.

(** [std::string::operator<]: bytes compared as unsigned values, a proper
    prefix before its extensions. *)
Fixpoint string_lt (a b : bytes) : bool :=
  match a, b with
  | _, [] => false
  | [], _ :: _ => true
  | x :: a', y :: b' =>
      if x <? y then true
      else if y <? x then false
      else string_lt a' b'
  end.

(** [Pair::operator<]. *)
Definition Pair_lt (this_ that : Pair) : bool :=
  string_lt (Pair_in this_) (Pair_in that).

(** [a] may stand before [b] in a sequence sorted by [operator<]. *)
Definition Pair_le (a b : Pair) : Prop := Pair_lt b a = false.

Global Instance Pair_le_dec (a b : Pair) : Decision (Pair_le a b).
Proof. unfold Pair_le. apply _. Defined.

(** [std::sort(input.begin(), input.end())] with [operator<].  The sort of
    a whole vector always returns ([std_sort_Ok]); the second branch is
    never taken. *)
Definition std_sort (v : list Pair) : list Pair :=
  match sort Pair_lt 0 (length v) v with
  | Ok v' => v'
  | _ => v
  end.

(** [s[i]] for a [std::string]: position [s.size()] holds the terminating
    zero. *)
Definition str_at (s : bytes) (i : Z) : res Z :=
  if i =? vec_size s then Ok 0 else vec_at s i.

(** [commonPrefixLen(a, b)], that is [std::mismatch] over all of [a]
    against the characters from [b.begin()] on; [n] positions are behind.
    When [b] is used up the next character read is its terminating zero,
    and the one after that lies outside the string. *)
Fixpoint commonPrefixLen_from (n : Z) (a b : bytes) : res Z :=
  match a with
  | [] => Ok n
  | x :: a' =>
      match b with
      | y :: b' => if x =? y then commonPrefixLen_from (n + 1) a' b' else Ok n
      | [] =>
          if x =? 0
          then match a' with [] => Ok (n + 1) | _ :: _ => Fault OobRead end
          else Ok n
      end
  end.

Definition commonPrefixLen (a b : bytes) : res Z := commonPrefixLen_from 0 a b.

(** ** The builder (fst.h 742-855) *)

(** The store, the registry [dict] and the MAST under construction. *)
Record bstate : Type := mkBstate {
  b_heap : heap;
  b_dict : gmap Z (list loc);
  b_m : Mast
}.

Fixpoint for_each {S} (idx : list nat) (body : nat -> S -> res S) (st : S) : res S :=
  match idx with
  | [] => Ok st
  | i :: idx' => st ← body i st; for_each idx' body st
  end.

(** The search of a bucket [cs] for a state equal to the one at [buf[i]]:
    the first [c] with [c == buf[i]] under [State::operator==]. *)
Fixpoint find_equal (h : heap) (cs : list loc) (bi : loc) (sbi : State)
  : res (option loc) :=
  match cs with
  | [] => Ok None
  | c :: cs' =>
      sc ← deref h c;
      if State_eqb c bi sc sbi then Ok (Some c) else find_equal h cs' bi sbi
  end.

(** The registry lookup both freezing loops start with: the state found,
    if any, and the registry (with an empty bucket added when the
    signature was new). *)
Definition lookup_dict (h : heap) (dict : gmap Z (list loc)) (bi : loc)
  : res (option loc * gmap Z (list loc)) :=
  sbi ← deref h bi;
  match dict !! hcode sbi with
  | Some cs => s ← find_equal h cs bi sbi; Ok (s, dict)
  | None => Ok (None, umap_insert (hcode sbi) [] dict)
  end.

(** [dict.at(buf[i]->hcode).push_back(s)]. *)
Definition dict_push (h : heap) (bi s : loc) (dict : gmap Z (list loc))
  : res (gmap Z (list loc)) :=
  sbi ← deref h bi;
  cs ← umap_at dict (hcode sbi);
  Ok (<[hcode sbi := cs ++ [s]]> dict).

(** [buf[i-1]->setTransition((uint8_t)word[i-1], s)]. *)
Definition link (buf : list loc) (word : bytes) (i : nat) (s : loc) (h : heap)
  : res heap :=
  p ← vec_at buf (Z.of_nat i - 1);
  ch ← str_at word (Z.of_nat i - 1);
  ss ← deref h s;
  mutate p (setTransition (to_uint8 ch) s (id ss)) h.

(** The body of the loop that freezes the suffix of [prev] (772-793). *)
Definition freeze_step (buf : list loc) (prev : bytes) (i : nat) (st : bstate)
  : res bstate :=
  let '(mkBstate h dict m) := st in
  bi ← vec_at buf (Z.of_nat i);
  '(s, dict) ← lookup_dict h dict bi;
  '(s, h, dict, m) ←
    match s with
    | Some s => Ok (s, h, dict, m)
    | None =>
        sbi ← deref h bi;
        let '(s, h) := make_shared sbi h in
        '(m, h) ← addState s m h;
        dict ← dict_push h bi s dict;
        Ok (s, h, dict, m)
    end;
  h ← mutate bi renew h;
  h ← link buf prev i s h;
  Ok (mkBstate h dict m).

(** The body of the loop that flushes the buffer (823-844). *)
Definition flush_step (buf : list loc) (prev : bytes) (i : nat) (st : bstate)
  : res bstate :=
  let '(mkBstate h dict m) := st in
  bi ← vec_at buf (Z.of_nat i);
  '(s, dict) ← lookup_dict h dict bi;
  '(s, h, dict, m) ←
    match s with
    | Some s => Ok (s, h, dict, m)
    | None =>
        sbi ← deref h bi;
        let '(s, h) := make_shared sbi h in
        h ← mutate bi renew h;
        '(m, h) ← addState s m h;
        dict ← dict_push h bi s dict;
        Ok (s, h, dict, m)
    end;
  h ← link buf prev i s h;
  Ok (mkBstate h dict m).

(** The body of the loop that extends the new suffix (794-796). *)
Definition extend_step (buf : list loc) (in_ : bytes) (i : nat) (h : heap)
  : res heap :=
  bi ← vec_at buf (Z.of_nat i);
  link buf in_ i bi h.

(** The loop that moves outputs along the common prefix (800-814), over
    the remaining values [js] of [j]; the result is [out] afterwards. *)
Fixpoint redistribute (buf : list loc) (in_ : bytes) (js : list nat) (out : Z)
    (h : heap) : res (Z * heap) :=
  match js with
  | [] => Ok (out, h)
  | j :: js' =>
      p ← vec_at buf (Z.of_nat j - 1);
      c ← str_at in_ (Z.of_nat j - 1);
      let ch := to_uint8 c in
      sp ← deref h p;
      o ← umap_at (output sp) ch;
      if o =? out then Ok (0, h)
      else
        outSuff ← umap_at (output sp) ch;
        h ← mutate p (removeOutput ch) h;  (* clear the prev edge *)
        bj ← vec_at buf (Z.of_nat j);
        sj ← deref h bj;
        h ← mutate bj
              (fun s => foldr (fun ch s => setOutput ch outSuff s) s
                          (map fst (map_to_list (trans sj)))) h;
        sj ← deref h bj;
        h ← (if isFinal sj && negb (outSuff =? 0)
             then mutate bj (addTail outSuff) h
             else Ok h);
        redistribute buf in_ js' out h
  end.

(** The body of the main loop (767-821) for one pair; [prev] is the key
    before it. *)
Definition add_pair (buf : list loc) (prev : bytes) (pr : Pair) (st : bstate)
  : res bstate :=
  let in_ := Pair_in pr in
  let out := Pair_out pr in
  let fZero := out =? 0 in  (* flag *)
  prefixLen ← commonPrefixLen in_ prev;
  let prefixLen := Z.to_nat prefixLen in
  st ← for_each (rev (seq (S prefixLen) (length prev - prefixLen)))
         (freeze_step buf prev) st;
  let '(mkBstate h dict m) := st in
  h ← for_each (seq (S prefixLen) (length in_ - S prefixLen))
        (extend_step buf in_) h;
  bl ← vec_at buf (vec_size in_);
  h ← (if negb (bool_decide (in_ = prev))
       then mutate bl (set_isFinal true) h
       else Ok h);
  '(out, h) ← redistribute buf in_ (seq 1 prefixLen) out h;
  h ← (if negb (bool_decide (in_ = prev)) then
         p ← vec_at buf (Z.of_nat prefixLen);
         c ← str_at in_ (Z.of_nat prefixLen);
         mutate p (setOutput (to_uint8 c) out) h
       else if fZero || negb (out =? 0) then
         mutate bl (addTail out) h
       else Ok h);
  Ok (mkBstate h dict m).

(** The main loop: the state afterwards and the last key, [prev]. *)
Fixpoint add_pairs (buf : list loc) (prev : bytes) (input : list Pair)
    (st : bstate) : res (bytes * bstate) :=
  match input with
  | [] => Ok (prev, st)
  | pr :: input' =>
      st ← add_pair buf prev pr st;
      add_pairs buf (Pair_in pr) input' st
  end.

Definition maxInputWordLen (input : list Pair) : nat :=
  foldl (fun m pr => if (m <? length (Pair_in pr))%nat
                       then length (Pair_in pr) else m) 0%nat input.

(** The ring buffer [buf] of [n + 1] fresh states, at the addresses
    0 .. n, and the state [buildMAST] starts from. *)
Definition buf_for (n : nat) : list loc := seq 0 (S n).
Definition bstate_for (n : nat) : bstate :=
  mkBstate (replicate (S n) State_zero) ∅ Mast_new.

(** [buildMAST(input)]: the caller's vector afterwards, and the MAST
    together with the store its pointers refer to. The vector is sorted
    before anything can throw. *)
Definition buildMAST (input : list Pair) : list Pair * res (Mast * heap) :=
  let input := std_sort input in
  let buf := buf_for (maxInputWordLen input) in
  let st := bstate_for (maxInputWordLen input) in
  (input,
   '(prev, st) ← add_pairs buf [] input st;
   (* flush the buf *)
   st ← for_each (rev (seq 1 (length prev))) (flush_step buf prev) st;
   let '(mkBstate h _ m) := st in
   b0 ← vec_at buf 0;
   let m := mkMast (Some b0) (states m) (finalStates m) in
   addState b0 m h).

(** [BuildFST(input, err)]: the caller's vector and [*err] afterwards,
    and the machine returned. *)
Definition BuildFST (input : list Pair) (err : string)
  : list Pair * string * res FST :=
  match buildMAST input with
  | (input, Ok (m, h)) =>
      let '(err, ret) := buildMachine h m err in (input, err, ret)
  | (input, Throw) => (input, err, Throw)
  | (input, Fault f) => (input, err, Fault f)
  end.

(** * Predicates and sample data for the properties *)


(** [v'] holds what [v] holds outside the positions [first, last). *)
Definition same_outside {A} (first last : nat) (v v' : list A) : Prop :=
  forall k, (k < first \/ last <= k)%nat -> v' !! k = v !! k.

(** The elements at the positions [first, last). *)
Definition slice {A} (first last : nat) (v : list A) : list A :=
  take (last - first) (drop first v).

(** The heap in [first, first + len): the parent of the node [c], and
    the heap order for the nodes whose parent is [top] or behind it. *)
Definition heap_parent (c : nat) : nat := (c - 1) / 2.

Definition heap_ok {A} (lt : A -> A -> bool) (first len top : nat) (v : list A)
  : Prop :=
  forall c x y,
    (0 < c < len)%nat -> (top <= heap_parent c)%nat ->
    v !! (first + c)%nat = Some x ->
    v !! (first + heap_parent c)%nat = Some y ->
    lt y x = false.

(** [h] lies in the subtree of [top]. *)
Definition heap_desc (top h : nat) : Prop :=
  exists n, Nat.iter n heap_parent h = top.

Definition input_abc : list Pair :=
  [mkPair [97] 1; mkPair [97; 98] 2; mkPair [97; 98; 99] 3].

(** The MAST of the single pair (a, 1): address 2 is the accepting state
    (id 0), address 0 is [buf[0]], the initial state (id 1). *)
Definition mast_a1 : Mast := mkMast (Some 0%nat) [2%nat; 0%nat] [2%nat].
Definition heap_a1 : heap :=
  [ mkState 1 {[ 97 := 2%nat ]} {[ 97 := 1 ]} [] false 899815;
    mkState 0 ∅ ∅ [] false 0;
    mkState 0 ∅ ∅ [] true 0 ].

(** The MAST of {(a, 1), (ab, 2)}: address 3 is the state reached by [ab]
    (id 0, no outgoing transition), address 4 the state reached by [a]
    (id 1, final, with the transition [b] and the tail {1}). *)
Definition state_ab : State := mkState 0 ∅ ∅ [] true 0.
Definition state_a : State :=
  mkState 1 {[ 98 := 3%nat ]} {[ 98 := 2 ]} [1] true 917198.
Definition heap_a_ab : heap :=
  [ mkState 2 {[ 97 := 4%nat ]} ∅ [] false 98098;
    mkState 0 ∅ ∅ [] false 0;
    mkState 0 ∅ ∅ [] false 0;
    state_ab;
    state_a ].
Definition mast_a_ab : Mast :=
  mkMast (Some 0%nat) [3%nat; 4%nat; 0%nat] [3%nat; 4%nat].

(** The locals of [buildMachine] after the state reached by [ab]. *)
Definition cstate_after_ab : cstate :=
  mkCstate [op_cell Accept 0 0] [] (op_cell Accept 0 0) {[ 0 := 1 ]}.

(** The machine for {(a, 1), (b, 2)}: the reversal of the provisional
    stream the compiler emits for that MAST. *)
Definition F_ab : FST :=
  mkFST [op_cell Output 97 3; raw_cell 1;
         op_cell OutputBreak 98 1; raw_cell 2;
         op_cell Accept 0 0] [].

Definition F_ab_bytes : bytes :=
  [0; 0; 0; 0; 0; 0; 0; 0;   5; 0; 0; 0; 0; 0; 0; 0;
   5; 97; 3; 0; 1; 0; 0; 0;   6; 98; 1; 0; 2; 0; 0; 0;   1; 0].

(** The number of passes still possible: zero once the loop test fails,
    else one more than the bytes left times the longest stretch without
    consuming one, plus the cells left. *)
Definition run_measure (t : FST) (input : bytes) (r : regs) : Z :=
  if run_cond t input r
  then 1 + (vec_size input - hd r) * (vec_size (prog t) + 1)
         + (vec_size (prog t) - pc r)
  else 0.

(** [needle] occurs in [hay]. *)
Fixpoint contains (needle hay : string) : bool :=
  String.prefix needle hay ||
  match hay with
  | EmptyString => false
  | String _ hay' => contains needle hay'
  end.

(** A state with the one edge [a]/5 to address 1, and two stores: in the
    first the successor (id 3) is final, in the second it is not. No
    address has been recorded for id 3 in [cstate_init]. *)
Definition state_one_edge : State :=
  mkState 7 {[ 97 := 1%nat ]} {[ 97 := 5 ]} [] false 0.
Definition heap_final_succ : heap :=
  [state_one_edge; mkState 3 ∅ ∅ [] true 0].
Definition heap_nonfinal_succ : heap :=
  [state_one_edge; mkState 3 ∅ ∅ [] false 0].

(** The successor of the edge [ch] of [s] has no recorded address. *)
Definition successor_unregistered (h : heap) (s : State) (ch : Z) (c : cstate)
  : Prop :=
  exists next nexts,
    trans s !! ch = Some next /\ h !! next = Some nexts /\
    cs_addrMap c !! id nexts = None.

(** Only non-zero outputs are stored. *)
Definition State_sparse (s : State) : Prop :=
  map_Forall (fun _ o => o <> 0) (output s).

Definition heap_sparse (h : heap) : Prop := Forall State_sparse h.

(** A transition byte has an entry in the output map. *)
Definition outputs_defined (s : State) : Prop :=
  forall ch, is_Some (trans s !! ch) -> is_Some (output s !! ch).

(** The value of a sequence of bytes taken high-order byte first. *)
Definition be_value (bs : list Z) : Z :=
  foldl (fun acc b => acc * 256 + b) 0 bs.

Definition is_byte (b : Z) : Prop := 0 <= b < 256.

(** The signature stays a value of [int64_t]. *)
Definition hcode_in_range (s : State) : Prop :=
  - 2 ^ 63 <= hcode s < 2 ^ 63.

(** One pass through the loop body either leaves the snapshots alone,
    never moves the head back and ends on an opcode other than the two
    accepting ones, or appends one snapshot taken at the current program
    counter and head and leaves the head where it is. *)
Definition step_shape (r r' : regs) : Prop :=
  (snap r' = snap r /\ hd r <= hd r' /\ op r' <> 1 /\ op r' <> 2) \/
  (exists o, snap r' = snap r ++ [mkConfiguration (pc r) (hd r) o] /\
             hd r' = hd r).

(** A snapshot taken inside the program and inside the input. *)
Definition snap_ok (t : FST) (input : list Z) (c : Configuration) : Prop :=
  0 <= c_hd c <= vec_size input /\ 0 <= c_pc c < vec_size (prog t).

Definition hd_le (c1 c2 : Configuration) : Prop := c_hd c1 <= c_hd c2.

(** What holds of the locals of [run] each time the loop test is made. *)
Definition regs_inv (t : FST) (input : list Z) (r : regs) : Prop :=
  0 <= hd r /\
  Forall (fun c => snap_ok t input c /\ c_hd c <= hd r) (snap r) /\
  StronglySorted hd_le (snap r) /\
  (op r = 1 \/ op r = 2 -> forall c, last (snap r) = Some c -> c_hd c = hd r).

(** The jump distance and the opcode of an edge, as [buildMachine]
    computes them. *)
Definition edge_jump (c : cstate) (addr : Z) : Z :=
  to_size_t (vec_size (cs_prog c) - to_size_t addr + 1).

Definition edge_op (first : bool) (out : Z) : Operation :=
  if negb (out =? 0) then (if first then OutputBreak else Output)
  else if first then Break else Match.

(** The initial state of the MAST of {(a, 1)} and the locals of
    [buildMachine] when its edge is reached. *)
Definition state_a1_initial : State :=
  mkState 1 {[ 97 := 2%nat ]} {[ 97 := 1 ]} [] false 899815.
Definition cstate_a1_edge : cstate :=
  mkCstate [op_cell Accept 0 0] [] (op_cell Accept 0 0) {[ 0 := 1 ]}.

Definition res_map {A B} (f : A -> B) (m : res A) : res B :=
  match m with
  | Ok a => Ok (f a)
  | Throw => Throw
  | Fault e => Fault e
  end.

(** A stream that announces one data entry and no program, with one
    more byte behind, and the machine [Read] makes of it. *)
Definition stream_one_entry : list Z :=
  [0; 0; 0; 0; 0; 0; 0; 1; 0; 0; 0; 5; 0; 0; 0; 0; 0; 0; 0; 0; 9].
Definition fst_one_entry : FST := mkFST [] [5].

Definition is_final_at (h : heap) (p : loc) : bool :=
  match h !! p with
  | Some s => isFinal s
  | None => false
  end.

(** The MAST under construction, with [nb] buffer states at the
    addresses below [nb]: the registered states live above the buffer, in
    the order of their addresses, the id of each is its position in
    [states], and [finalStates] lists the final ones among them. *)
Definition Mast_inv (nb : nat) (h : heap) (m : Mast) : Prop :=
  (nb <= length h)%nat /\
  Forall (fun p => (nb <= p < length h)%nat) (states m) /\
  StronglySorted lt (states m) /\
  (forall (k : nat) p, states m !! k = Some p ->
     exists s, h !! p = Some s /\ id s = to_int32 (Z.of_nat k)) /\
  finalStates m = List.filter (is_final_at h) (states m).

(** The registry holds registered states only. *)
Definition dict_ok (dict : gmap Z (list loc)) (m : Mast) : Prop :=
  forall k cs, dict !! k = Some cs -> Forall (fun p => p ∈ states m) cs.

(** [h'] differs from [h] in buffer states only. *)
Definition buf_only (nb : nat) (h h' : heap) : Prop :=
  length h' = length h /\ forall q, (nb <= q)%nat -> h' !! q = h !! q.

(** What the builder keeps true of its state between steps. *)
Definition build_inv (nb : nat) (st : bstate) : Prop :=
  Mast_inv nb (b_heap st) (b_m st) /\
  dict_ok (b_dict st) (b_m st) /\
  initialState (b_m st) = None.

(** * Properties *)

(** ** Cells and bytes *)

Lemma WriteUint_app (w : nat) (os : bytes) (value : Z) :
  WriteUint w os value = os ++ le_bytes w value.
Proof.
  revert os value. induction w as [|w IH]; intros os value; simpl.
  - by rewrite app_nil_r.
  - by rewrite IH, <- app_assoc.
Qed.

Lemma le_bytes_length (w : nat) (value : Z) : length (le_bytes w value) = w.
Proof. revert value. induction w; intros; simpl; auto. Qed.

Lemma le_bytes_lookup (w i : nat) (value : Z) :
  (i < w)%nat ->
  le_bytes w value !! i = Some ((value / 256 ^ Z.of_nat i) mod 256).
Proof.
  revert i value. induction w as [|w IH]; intros i value Hi; [lia|].
  destruct i as [|i]; simpl le_bytes.
  - simpl. by rewrite Z.div_1_r.
  - change ((to_uint8 value :: le_bytes w (value / 256)) !! S i)
      with (le_bytes w (value / 256) !! i).
    rewrite IH by lia. f_equal. f_equal.
    rewrite Nat2Z.inj_succ, Z.pow_succ_r by lia.
    rewrite Z.div_div by lia. reflexivity.
Qed.

Example WriteUint_u16_1 : WriteUint sizeof_uint16 [] 1 = [1; 0].
Proof. reflexivity. Qed.

Example ReadUint_u16_1 : ReadUint sizeof_uint16 [1; 0] = Ok (256, []).
Proof. reflexivity. Qed.

Example op_cell_fields :
  let c := op_cell OutputBreak 97 3 in
  (ops_op c, ops_ch c, ops_jump c) = (6, 97, 3).
Proof. reflexivity. Qed.

Example raw_cell_neg : v32 (raw_cell (-5)) = -5.
Proof. reflexivity. Qed.

(** The three fields of a cell are independent of one another. *)
Ltac cell_bits :=
  unfold set_ops_jump, set_ops_ch, set_ops_op, ops_op, ops_ch, ops_jump,
    to_uint8, to_uint16;
  change 255 with (Z.ones 8); change 65535 with (Z.ones 16);
  change 4294967040 with (Z.shiftl (Z.ones 24) 8);
  change 4294902015 with (Z.lor (Z.ones 8) (Z.shiftl (Z.ones 16) 16));
  change 256 with (2 ^ 8); change 65536 with (2 ^ 16);
  rewrite <- ?Z.land_ones by lia;
  Z.bitblast.

Lemma ops_op_set_op (o c : Z) : ops_op (set_ops_op o c) = to_uint8 o.
Proof. cell_bits. Qed.
Lemma ops_op_set_ch (x c : Z) : ops_op (set_ops_ch x c) = ops_op c.
Proof. cell_bits. Qed.
Lemma ops_op_set_jump (j c : Z) : ops_op (set_ops_jump j c) = ops_op c.
Proof. cell_bits. Qed.
Lemma ops_ch_set_ch (x c : Z) : ops_ch (set_ops_ch x c) = to_uint8 x.
Proof. cell_bits. Qed.
Lemma ops_ch_set_jump (j c : Z) : ops_ch (set_ops_jump j c) = ops_ch c.
Proof. cell_bits. Qed.
Lemma ops_jump_set_jump (j c : Z) : ops_jump (set_ops_jump j c) = to_uint16 j.
Proof. cell_bits. Qed.
Lemma ops_jump_set_ch (x c : Z) : ops_jump (set_ops_ch x c) = ops_jump c.
Proof. cell_bits. Qed.

Create Rewrite HintDb cell.
#[global] Hint Rewrite ops_op_set_op ops_op_set_ch ops_op_set_jump ops_ch_set_ch
  ops_ch_set_jump ops_jump_set_jump ops_jump_set_ch : cell.

(** ** The stream helpers *)

(** X1: [WriteUint] appends exactly [w] bytes, byte [i] being digit [i] of
    the value in base 256: the low-order byte comes first. *)
Lemma WriteUint_little_endian (w : nat) (os : bytes) (value : Z) :
  length (WriteUint w os value) = (length os + w)%nat /\
  forall i : nat, (i < w)%nat ->
    WriteUint w os value !! (length os + i)%nat
    = Some ((value / 256 ^ Z.of_nat i) mod 256).
Proof.
  rewrite WriteUint_app. split.
  - by rewrite length_app, le_bytes_length.
  - intros i Hi. rewrite lookup_app_r by lia.
    replace (length os + i - length os)%nat with i by lia.
    by apply le_bytes_lookup.
Qed.

(** [ReadUint] takes the first byte of the stream as the high-order one. *)
Lemma ReadUint_loop_step (sizeofT w : nat) (b : Z) (r : bytes) (buf : option Z)
    (value : Z) :
  ReadUint_loop sizeofT (S w) (b :: r) buf value
  = ReadUint_loop sizeofT w r (Some b)
      (Z.lor ((value * 256) mod 2 ^ (8 * Z.of_nat sizeofT)) (to_uint8 b)).
Proof. reflexivity. Qed.

(** X4: for one-byte values [ReadUint] and [WriteUint] are inverse: a
    value written as a [uint8_t] is read back as it was, and the rest of
    the stream is left in place. *)
Lemma ReadUint_WriteUint_uint8 (value : Z) (r : bytes) :
  0 <= value < 256 ->
  ReadUint sizeof_uint8 (WriteUint sizeof_uint8 [] value ++ r) = Ok (value, r).
Proof.
  intros Hv. unfold ReadUint, sizeof_uint8. simpl.
  unfold to_uint8. rewrite Z.mod_mod by lia. rewrite (Z.mod_small value) by lia.
  reflexivity.
Qed.

Lemma ReadUint_WriteUint_uint8_witness :
  ReadUint sizeof_uint8 (WriteUint sizeof_uint8 [] 200 ++ [7]) = Ok (200, [7]).
Proof. apply (ReadUint_WriteUint_uint8 200 [7]). lia. Defined.

(** Written and read back, a 16-bit value comes out with its two bytes
    exchanged. *)
Lemma ReadUint_WriteUint_uint16 (value : Z) :
  0 <= value < 65536 ->
  ReadUint sizeof_uint16 (WriteUint sizeof_uint16 [] value)
  = Ok (value mod 256 * 256 + value / 256, []).
Proof.
  intros Hv. unfold ReadUint, sizeof_uint16.
  cbn [WriteUint ReadUint_loop istream_read app].
  unfold to_uint8. do 2 f_equal.
  change (8 * Z.of_nat 2) with 16.
  rewrite Z.mul_0_l, Z.mod_0_l, Z.lor_0_l by lia.
  rewrite !Z.mod_mod by lia.
  assert (0 <= value mod 256 < 256) as H0 by (apply Z.mod_pos_bound; lia).
  assert (0 <= value / 256 < 256) as H1.
  { split; [apply Z.div_pos; lia|apply Z.div_lt_upper_bound; lia]. }
  rewrite (Z.mod_small (value / 256)) by lia.
  rewrite (Z.mod_small (value mod 256 * 256)) by lia.
  set (a := value mod 256) in *. set (b := value / 256) in *.
  rewrite <- (Z.add_lor_land (a * 256) b).
  assert (Z.land (a * 256) b = 0) as ->; [|lia].
  change 256 with (2 ^ 8) in *. rewrite <- Z.shiftl_mul_pow2 by lia.
  rewrite <- (Z.mod_small b (2 ^ 8)) by lia. rewrite <- Z.land_ones by lia.
  Z.bitblast. rewrite Z.testbit_neg_r by lia. reflexivity.
Qed.

(** C6, at the failing input: the 16-bit value 1 is written as the bytes
    01 00, low-order byte first, and [ReadUint] turns these two bytes into
    256, not 1: it reads in the opposite byte order, so it is not the
    inverse of [WriteUint] for any type wider than a byte. *)
Theorem C6_ReadUint_reverses_bytes :
  WriteUint sizeof_uint16 [] 1 = [1; 0] /\
  ReadUint sizeof_uint16 (WriteUint sizeof_uint16 [] 1) = Ok (256, []) /\
  ReadUint sizeof_uint32 (WriteUint sizeof_uint32 [] 1) = Ok (16777216, []) /\
  ReadUint sizeof_size_t (WriteUint sizeof_size_t [] 5)
  = Ok (360287970189639680, []).
Proof. repeat split; vm_compute; reflexivity. Qed.

(** ** The builder and the compiler on concrete inputs *)

(** Where the run on [input_abc] stops: after (a, 1) and (ab, 2) the output
    of the edge [a] has been moved from [buf[0]] into the tail of [buf[1]],
    and the redistribution for (abc, 3) looks it up again. *)
Lemma abc_third_pair :
  exists st s0,
    add_pairs (buf_for 3) [] (take 2 input_abc) (bstate_for 3)
      = Ok ([97; 98], st) /\
    b_heap st !! 0%nat = Some s0 /\
    output s0 !! 97 = None /\
    add_pair (buf_for 3) [97; 98] (mkPair [97; 98; 99] 3) st = Throw.
Proof.
  eexists. eexists. split; [vm_compute; reflexivity|].
  split; [vm_compute; reflexivity|].
  split.
  - vm_compute. reflexivity.
  - vm_compute. reflexivity.
Qed.

(** C1, at the claim's input: [BuildFST] does not return a machine. The
    vector is sorted (it already was), and while the third pair is added
    [buildMAST] throws [std::out_of_range] from
    [buf[0]->output.at('a')]; no query can be asked. *)
Theorem C1_BuildFST_abc_throws (err : string) :
  BuildFST input_abc err = (input_abc, err, Throw).
Proof. vm_compute. reflexivity. Qed.

(** C3, at two failing inputs. For {(a, 0), (ab, 1)} the lookup in the
    redistribution step of [buildMAST] is on an absent key: [setOutput]
    stored nothing for the zero output of [a]. For {(ab, 1)} [buildMAST]
    returns, and the lookup in the per-edge emission of [buildMachine] is
    on an absent key: the edge [b] never had an output. *)
Theorem C3_output_lookups_throw :
  snd (buildMAST [mkPair [97] 0; mkPair [97; 98] 1]) = Throw /\
  (exists m h,
     snd (buildMAST [mkPair [97; 98] 1]) = Ok (m, h) /\
     buildMachine h m "" = ("", Throw)) /\
  (forall err, snd (BuildFST [mkPair [97; 98] 1] err) = Throw).
Proof.
  split; [vm_compute; reflexivity|]. split.
  - eexists. eexists. split.
    + vm_compute. reflexivity.
    + vm_compute. reflexivity.
  - intros err. vm_compute. reflexivity.
Qed.

Lemma buildMAST_a1 : buildMAST [mkPair [97] 1] = ([mkPair [97] 1], Ok (mast_a1, heap_a1)).
Proof. vm_compute. reflexivity. Qed.

(** What [buildMachine] returns when it returns: [reverse_copy] can only
    have had nothing to copy. *)
Lemma buildMachine_Ok_nil (h : heap) (m : Mast) (err err' : string) (t : FST) :
  buildMachine h m err = (err', Ok t) ->
  prog t = [] /\
  exists c, provisional h m err = (err', Ok c) /\ cs_prog c = [].
Proof.
  unfold buildMachine. destruct (provisional h m err) as [e [c| |f]]; try congruence.
  unfold reverse_copy, FST_new. simpl.
  destruct (cs_prog c) as [|x l] eqn:Hp; simpl.
  - intros [= <- <-]. simpl. split; [reflexivity|].
    exists c. split; [reflexivity|assumption].
  - congruence.
Qed.

(** C4, at the failing input: for the MAST of {(a, 1)} the provisional
    stream has the three cells Accept, raw 1, OutputBreak 'a' 1, and
    [buildMachine] returns no machine whose stream is their reversal:
    [reverse_copy] is given the beginning of the empty [t->prog], which is
    never resized, and writes three cells outside it. *)
Theorem C4_reverse_copy_overruns :
  (exists c,
     provisional heap_a1 mast_a1 "" = ("", Ok c) /\
     cs_prog c = [op_cell Accept 0 0; raw_cell 1; op_cell OutputBreak 97 1]) /\
  prog FST_new = [] /\
  buildMachine heap_a1 mast_a1 "" = ("", Fault OobWrite).
Proof.
  split.
  - eexists. split.
    + vm_compute. reflexivity.
    + vm_compute. reflexivity.
  - split; vm_compute; reflexivity.
Qed.

Lemma buildMAST_a_ab :
  snd (buildMAST [mkPair [97] 1; mkPair [97; 98] 2]) = Ok (mast_a_ab, heap_a_ab).
Proof. vm_compute. reflexivity. Qed.

(** X24: what the block for a final state appends last, for every final state
    and whatever the locals hold: an op cell whose opcode is Accept when
    the state has no transition and AcceptBreak when it has one, whose
    character field is 1 exactly when the state has a tail, and whose
    jump field is 0. *)
Lemma emit_final_cell (s : State) (c : cstate) :
  isFinal s = true ->
  exists cell,
    last (cs_prog (emit_final s c)) = Some cell /\
    ops_op cell
    = Operation_value (if bool_decide (trans s = ∅) then Accept else AcceptBreak) /\
    ops_ch cell = (if bool_decide (tail s = []) then 0 else 1) /\
    ops_jump cell = 0.
Proof.
  intros Hf. unfold emit_final. rewrite Hf.
  eexists. split; [unfold push_code at 1; cbn [cs_prog]; apply last_snoc|].
  destruct (bool_decide (tail s = [])), (bool_decide (trans s = ∅));
    cbn [negb with_code push_code cs_code cs_prog cs_data cs_addrMap];
    autorewrite with cell; repeat split; reflexivity.
Qed.

Lemma emit_final_cell_witness :
  exists cell,
    last (cs_prog (emit_final state_ab cstate_init)) = Some cell /\
    ops_op cell
    = Operation_value (if bool_decide (trans state_ab = ∅) then Accept else AcceptBreak) /\
    ops_ch cell = (if bool_decide (tail state_ab = []) then 0 else 1) /\
    ops_jump cell = 0.
Proof. apply (emit_final_cell state_ab cstate_init). reflexivity. Defined.

(** C5, at the failing input: in the MAST of {(a, 1), (ab, 2)} the final
    state without outgoing transitions (reached by [ab]) gets the opcode
    Accept, and the final state with an outgoing transition (reached by
    [a]) gets AcceptBreak, the reverse of the rule; the character field
    (1 with a tail range, else 0) and the zero jump field are as stated. *)
Theorem C5_accept_opcodes_swapped :
  (trans state_ab = ∅ /\ isFinal state_ab = true /\
   emit_state heap_a_ab 3%nat cstate_init "" = ("", Ok cstate_after_ab)) /\
  (trans state_a !! 98 = Some 3%nat /\ isFinal state_a = true /\
   exists c,
     emit_state heap_a_ab 4%nat cstate_after_ab "" = ("", Ok c) /\
     cs_prog c = [op_cell Accept 0 0;
                  raw_cell 2; op_cell OutputBreak 98 1;
                  raw_cell 0; raw_cell 1; op_cell AcceptBreak 1 0] /\
     cs_data c = [1]).
Proof.
  split.
  - repeat split; vm_compute; reflexivity.
  - split; [vm_compute; reflexivity|]. split; [reflexivity|].
    eexists. split; [|split].
    + vm_compute. reflexivity.
    + vm_compute. reflexivity.
    + vm_compute. reflexivity.
Qed.

(** ** The codec on a concrete machine *)

Lemma F_ab_is_compiled :
  exists m h c,
    snd (buildMAST [mkPair [97] 1; mkPair [98] 2]) = Ok (m, h) /\
    provisional h m "" = ("", Ok c) /\
    prog F_ab = rev (cs_prog c) /\ data F_ab = cs_data c.
Proof.
  eexists. eexists. eexists.
  split; [vm_compute; reflexivity|].
  split; [vm_compute; reflexivity|].
  split; vm_compute; reflexivity.
Qed.

Lemma F_ab_answers (u : uninit) :
  Search u F_ab [97] = Ok [1] /\
  Search u F_ab [98] = Ok [2] /\
  Search u F_ab [99] = Ok [] /\
  PrefixSearch u F_ab [97; 98] = Ok ([1], 1) /\
  CommonPrefixSearch u F_ab [97; 98] = Ok ([[1]], [1]).
Proof. repeat split; vm_compute; reflexivity. Qed.

(** What [Write] and [Read] make of [F_ab], a machine that is compiled
    but that [BuildFST] cannot return: [Write] succeeds and produces 34
    bytes, and [Read] takes the length 5 for 5 * 2^56 (the bytes are read
    in the opposite order) and asks [reserve] for that many cells. *)
Lemma Write_Read_F_ab (a : room) :
  room_prog a < 5 * 2 ^ 56 ->
  Write F_ab [] = Ok (true, F_ab_bytes) /\
  ReadUint sizeof_size_t (drop 8 F_ab_bytes)
  = Ok (5 * 2 ^ 56, drop 16 F_ab_bytes) /\
  Read a FST_new F_ab_bytes = Throw.
Proof.
  intros Ha. split; [vm_compute; reflexivity|].
  split; [vm_compute; reflexivity|].
  assert (ReadUint sizeof_size_t F_ab_bytes = Ok (0, drop 8 F_ab_bytes)) as E1
    by (vm_compute; reflexivity).
  assert (Read_data (length (drop 8 F_ab_bytes)) 0 (drop 8 F_ab_bytes) (data FST_new)
          = Ok ([], drop 8 F_ab_bytes)) as E2 by (vm_compute; reflexivity).
  assert (ReadUint sizeof_size_t (drop 8 F_ab_bytes)
          = Ok (5 * 2 ^ 56, drop 16 F_ab_bytes)) as E3 by (vm_compute; reflexivity).
  unfold Read, mbind, res_bind. rewrite E1. cbn [rbind].
  change (reserve (room_data a) (data FST_new) 0) with (Ok tt : res unit).
  cbn [rbind]. rewrite E2. cbn [rbind]. rewrite E3. cbn [rbind].
  unfold reserve.
  change (vector_max_size <? 5 * 2 ^ 56) with false.
  change (5 * 2 ^ 56 <=? vec_size (prog FST_new)) with false.
  destruct (Z.leb_spec (5 * 2 ^ 56) (room_prog a)); [lia|reflexivity].
Qed.

(** [Write] reports failure on an Output instruction with an extended
    jump: that case has no [break] and runs into the default label. *)
Example Write_extended_output_jump :
  Write (mkFST [op_cell Output 97 0; raw_cell 1; raw_cell 70000] []) []
  = Ok (false,
        [0; 0; 0; 0; 0; 0; 0; 0;   3; 0; 0; 0; 0; 0; 0; 0;
         5; 97; 0; 0; 1; 0; 0; 0;   112; 17; 1; 0]).
Proof. vm_compute. reflexivity. Qed.

(** The one machine [BuildFST] does return, the empty one, survives the
    round trip. *)
Example roundtrip_empty (a : room) :
  BuildFST [] "" = ([], "", Ok FST_new) /\
  (exists w, Write FST_new [] = Ok (true, w) /\
             Read a FST_new w = Ok (true, FST_new, [])).
Proof.
  split; [vm_compute; reflexivity|].
  eexists. split.
  - vm_compute. reflexivity.
  - reflexivity.
Qed.








(** ** The loops of [Read] *)

Lemma ReadUint_loop_suffix (sizeofT w : nat) (r r' : list Z) (buf : option Z)
    (value v : Z) :
  ReadUint_loop sizeofT w r buf value = Ok (v, r') -> r' `suffix_of` r.
Proof.
  revert r buf value. induction w as [|w IH]; intros r buf value; cbn [ReadUint_loop].
  - by intros [= _ <-].
  - destruct r as [|b r]; cbn [istream_read].
    + destruct buf; [|discriminate]. apply IH.
    + intros H. apply suffix_cons_r. by eapply IH.
Qed.

(** A call that returns has taken at least one byte. *)
Lemma ReadUint_shorter (sizeofT : nat) (r r' : list Z) (v : Z) :
  sizeofT <> 0%nat -> ReadUint sizeofT r = Ok (v, r') ->
  r' `suffix_of` r /\ (length r' < length r)%nat.
Proof.
  unfold ReadUint. destruct sizeofT as [|w]; [done|]. intros _.
  cbn [ReadUint_loop]. destruct r as [|b r]; cbn [istream_read]; [discriminate|].
  intros H. apply ReadUint_loop_suffix in H.
  split; [by apply suffix_cons_r|]. apply suffix_length in H. simpl. lia.
Qed.

Lemma ReadUint_not_Throw (sizeofT : nat) (r : list Z) : ReadUint sizeofT r <> Throw.
Proof.
  unfold ReadUint. generalize (@None Z). generalize 0. generalize sizeofT at 2.
  intros w. revert r. induction w as [|w IH]; intros r value buf;
    cbn [ReadUint_loop]; [discriminate|].
  destruct (istream_read r buf) as [[b|] r']; [apply IH|discriminate].
Qed.

Lemma ReadUint_nil (sizeofT : nat) :
  sizeofT <> 0%nat -> ReadUint sizeofT [] = Fault StreamEnd.
Proof. destruct sizeofT; [done|reflexivity]. Qed.

(** More fuel than the stream has bytes changes nothing: the loops of
    [Read] are modelled for every stream by the fuel [Read] gives them. *)
Lemma Read_data_fuel (f1 f2 : nat) (n : Z) (r : list Z) (d : list Z) :
  (length r <= f1)%nat -> (length r <= f2)%nat ->
  Read_data f1 n r d = Read_data f2 n r d.
Proof.
  revert f2 n r d. induction f1 as [|f1 IH]; intros [|f2] n r d H1 H2;
    cbn [Read_data]; destruct (n =? 0); try reflexivity;
    unfold mbind, res_bind.
  - destruct r; [|simpl in H1; lia].
    rewrite (ReadUint_nil sizeof_uint32) by done. reflexivity.
  - destruct r; [|simpl in H2; lia].
    rewrite (ReadUint_nil sizeof_uint32) by done. reflexivity.
  - destruct (ReadUint sizeof_uint32 r) as [[v r']| |f] eqn:E; try reflexivity.
    apply ReadUint_shorter in E as [_ E]; [|done]. cbn [rbind].
    apply IH; lia.
Qed.

Ltac read_step :=
  match goal with
  | |- rbind (ReadUint ?w ?r) _ = rbind (ReadUint ?w ?r) _ =>
      let E := fresh "E" in
      destruct (ReadUint w r) as [[? ?]| |?] eqn:E;
      [apply ReadUint_shorter in E as [_ E]; [cbn [rbind]|done]
      |reflexivity|reflexivity]
  end.

Lemma Read_prog_fuel (f1 f2 : nat) (n : Z) (r : list Z) (code : Z)
    (p : list Z) :
  (length r <= f1)%nat -> (length r <= f2)%nat ->
  Read_prog f1 n r code p = Read_prog f2 n r code p.
Proof.
  revert f2 n r code p.
  induction f1 as [|f1 IH]; intros [|f2] n r code p H1 H2;
    cbn [Read_prog]; destruct (n =? 0); try reflexivity;
    unfold mbind, res_bind.
  - destruct r; [|simpl in H1; lia].
    rewrite (ReadUint_nil sizeof_uint8) by done. reflexivity.
  - destruct r; [|simpl in H2; lia].
    rewrite (ReadUint_nil sizeof_uint8) by done. reflexivity.
  - read_step. read_step.
    destruct (Operation_of _) as [[]|]; try reflexivity.
    all: repeat first
      [ read_step
      | match goal with
        | |- (if ?b then _ else _) = (if ?b then _ else _) => destruct b
        end
      | apply IH; lia ].
Qed.

(** ** Termination of the virtual machine *)

Lemma int_checked_Ok (z z' : Z) : int_checked z = Ok z' -> z' = z.
Proof. unfold int_checked. case_match; congruence. Qed.

Lemma rbind_Ok {A B} (m : res A) (k : A -> res B) (b : B) :
  rbind m k = Ok b -> exists a, m = Ok a /\ k a = Ok b.
Proof. destruct m; simpl; [eauto|discriminate|discriminate]. Qed.

Ltac res_inv :=
  repeat match goal with
    | H : mbind _ _ = Ok _ |- _ =>
        unfold mbind, res_bind in H
    | H : rbind _ _ = Ok _ |- _ =>
        let a := fresh "a" in let E := fresh "E" in
        apply rbind_Ok in H as (a & E & H)
    | H : (if ?b then _ else _) = Ok _ |- _ =>
        let E := fresh "E" in destruct b eqn:E
    | H : (let '(_, _) := ?p in _) = Ok _ |- _ => destruct p
    | H : int_checked _ = Ok _ |- _ => apply int_checked_Ok in H
    | H : Ok _ = Ok _ |- _ => injection H as H
    | H : Fault _ = Ok _ |- _ => discriminate H
    | H : Throw = Ok _ |- _ => discriminate H
    end.

Ltac progress_case :=
  res_inv;
  first
    [ congruence
    | repeat match goal with
        | H : (_ =? _) = false |- _ => apply Z.eqb_neq in H
        end;
      subst; cbn [pc hd];
      first [ left; split; [reflexivity|lia] | right; split; [reflexivity|lia] ] ].

(** Each pass through the loop body that comes back to the loop test
    has either consumed a byte of the input or moved the program counter
    forward with the head where it was. *)
Lemma run_body_progress (t : FST) (input : bytes) (r r' : regs) :
  run_cond t input r = true ->
  run_body t input r = Ok (Continue r') ->
  (hd r' = hd r + 1 /\ hd r < vec_size input) \/
  (hd r' = hd r /\ pc r < pc r').
Proof.
  unfold run_cond. intros Hc Hb.
  apply andb_true_iff in Hc as [Hc Hhd]. apply andb_true_iff in Hc as [Hpc0 HpcL].
  apply Z.leb_le in Hhd, Hpc0. apply Z.ltb_lt in HpcL.
  unfold run_body in Hb.
  unfold mbind, res_bind in Hb. apply rbind_Ok in Hb as (code & Hcode & Hb).
  cbv zeta in Hb.
  destruct (Operation_of (ops_op code)) as [[]|]; cbn [pc hd out op snap] in Hb.
  - progress_case.
  - progress_case.
  - progress_case.
  - progress_case.
  - progress_case.
  - progress_case.
  - progress_case.
Qed.

Lemma run_measure_nonneg (t : FST) (input : bytes) (r : regs) :
  0 <= run_measure t input r.
Proof.
  unfold run_measure, run_cond.
  destruct (0 <=? pc r) eqn:H0; simpl; [|lia].
  destruct (pc r <? vec_size (prog t)) eqn:H1; simpl; [|lia].
  destruct (hd r <=? vec_size input) eqn:H2; simpl; [|lia].
  apply Z.leb_le in H0, H2. apply Z.ltb_lt in H1. nia.
Qed.

Lemma run_measure_decreases (t : FST) (input : bytes) (r r' : regs) :
  run_cond t input r = true ->
  run_body t input r = Ok (Continue r') ->
  run_measure t input r' < run_measure t input r.
Proof.
  intros Hc Hb. pose proof (run_body_progress _ _ _ _ Hc Hb) as Hp.
  unfold run_measure. rewrite Hc.
  unfold run_cond in Hc.
  apply andb_true_iff in Hc as [Hc Hhd]. apply andb_true_iff in Hc as [Hpc0 HpcL].
  apply Z.leb_le in Hhd, Hpc0. apply Z.ltb_lt in HpcL.
  destruct (run_cond t input r') eqn:Hc'; [|nia].
  unfold run_cond in Hc'.
  apply andb_true_iff in Hc' as [Hc' Hhd']. apply andb_true_iff in Hc' as [Hpc0' HpcL'].
  apply Z.leb_le in Hhd', Hpc0'. apply Z.ltb_lt in HpcL'.
  destruct Hp as [[-> Hlt]|[-> Hlt]]; nia.
Qed.

Lemma run_loop_enough (t : FST) (input : bytes) (fuel : nat) (r : regs) :
  run_measure t input r < Z.of_nat fuel ->
  exists res, forall k : nat, run_loop (fuel + k) t input r = Some res.
Proof.
  revert r. induction fuel as [|fuel IH]; intros r Hm.
  - pose proof (run_measure_nonneg t input r). lia.
  - simpl. destruct (run_cond t input r) eqn:Hc; [|eauto].
    destruct (run_body t input r) as [[r'|r'|s]| |f] eqn:Hb; eauto.
    apply IH. pose proof (run_measure_decreases _ _ _ _ Hc Hb). lia.
Qed.

Lemma run_fuel_enough (u : uninit) (t : FST) (input : bytes) :
  run_measure t input (run_init u) < Z.of_nat (run_fuel t input).
Proof.
  unfold run_measure, run_fuel, vec_size. destruct (run_cond _ _ _); simpl hd; simpl pc; nia.
Qed.

(** C9: for every program, data array and input (and whatever the two
    uninitialised locals hold), the loop of [run] ends: within
    [run_fuel] = (len(input) + 1) * (len(prog) + 1) + 1 passes it has
    produced its outcome (the snapshots and the accept flag, or a fault
    of the pass that read outside the program, the data or the [int]
    range), more fuel does not change it, and [run] returns it. *)
Theorem C9_run_terminates (u : uninit) (t : FST) (input : bytes) :
  exists res,
    (forall k : nat,
       run_loop (run_fuel t input + k) t input (run_init u) = Some res) /\
    run u t input = res.
Proof.
  destruct (run_loop_enough t input _ _ (run_fuel_enough u t input)) as [res Hres].
  exists res. split; [exact Hres|].
  unfold run. specialize (Hres 0%nat). rewrite Nat.add_0_r in Hres.
  by rewrite Hres.
Qed.

(** ** [std::sort] sorts *)

Section SortProofs.
Context {A : Type} (lt : A -> A -> bool).
Local Open Scope nat_scope.

Hypothesis lt_asym : forall a b, lt a b = true -> lt b a = false.
Hypothesis not_after_trans :
  forall a b c, lt b a = false -> lt c b = false -> lt c a = false.

(** [a] may stand before [b]. *)
Local Abbreviation not_after := (fun a b => lt b a = false).

Lemma not_after_refl (a : A) : lt a a = false.
Proof.
  destruct (lt a a) eqn:E; [|reflexivity].
  by rewrite (lt_asym _ _ E) in E.
Qed.

(** *** Reads and writes *)

Lemma vget_Ok (v : list A) (i : nat) (x : A) :
  v !! i = Some x -> vget v i = Ok x.
Proof. unfold vget. by intros ->. Qed.

Lemma vset_Ok (v : list A) (i : nat) (x : A) :
  (i < length v)%nat -> vset v i x = Ok (<[i := x]> v).
Proof. unfold vset. intros H. by rewrite decide_True. Qed.

Lemma lookup_lt_Some_ex (v : list A) (i : nat) :
  (i < length v)%nat -> exists x, v !! i = Some x.
Proof. intros H. by apply lookup_lt_is_Some_2. Qed.

Lemma sorted_snoc (l : list A) (x : A) :
  StronglySorted not_after l -> Forall (fun y => lt x y = false) l ->
  StronglySorted not_after (l ++ [x]).
Proof.
  intros Hl Hx. apply StronglySorted_app. split; [|split].
  - intros y z Hy Hz. apply list_elem_of_singleton in Hz as ->.
    by apply (proj1 (Forall_forall _ _) Hx).
  - assumption.
  - repeat constructor.
Qed.

Lemma drop_insert_eq (v : list A) (i : nat) (x : A) :
  (i < length v)%nat -> drop i (<[i := x]> v) = x :: drop (S i) v.
Proof.
  intros H. rewrite insert_take_drop by done.
  rewrite drop_app_length'; [reflexivity|]. rewrite length_take. lia.
Qed.

Lemma take_S_insert (v : list A) (i : nat) (x : A) :
  (i < length v)%nat -> take (S i) (<[i := x]> v) = take i v ++ [x].
Proof.
  intros H. rewrite (take_S_r _ _ x) by (by apply list_lookup_insert_eq).
  by rewrite take_insert_ge by lia.
Qed.

Lemma drop_cons_lookup (v : list A) (i : nat) (x : A) (l : list A) :
  drop i v = x :: l -> v !! i = Some x /\ drop (S i) v = l.
Proof.
  intros H. split.
  - rewrite <- (Nat.add_0_r i), <- lookup_drop, H. reflexivity.
  - rewrite <- (Nat.add_1_r i), <- drop_drop, H. reflexivity.
Qed.

(** *** Insertion *)

Lemma linear_insert_loop_spec (val : A) (p : nat) (v : list A) :
  (p < length v)%nat ->
  StronglySorted not_after (take p v) ->
  (exists y, y ∈ take p v /\ lt val y = false) ->
  exists v',
    linear_insert_loop lt val p v = Ok v' /\
    length v' = length v /\
    drop (S p) v' = drop (S p) v /\
    StronglySorted not_after (take (S p) v') /\
    take (S p) v' ≡ₚ val :: take p v.
Proof.
  revert v. induction p as [|n IH]; intros v Hp Hs (y & Hy & Hvy).
  - rewrite take_0 in Hy. by apply elem_of_nil in Hy.
  - destruct (lookup_lt_Some_ex v n) as [x Hx]; [lia|].
    rewrite (take_S_r _ _ _ Hx) in Hs, Hy.
    cbn [linear_insert_loop]. rewrite (vget_Ok _ _ _ Hx).
    unfold mbind, res_bind. cbn [rbind].
    apply StronglySorted_app in Hs as (Hle & Hs & _).
    destruct (lt val x) eqn:Hvx.
    + rewrite vset_Ok by lia. cbn [rbind].
      destruct (IH (<[S n := x]> v)) as (v' & Hrun & Hlen & Hdrop & Hsort & Hperm).
      * rewrite length_insert. lia.
      * by rewrite take_insert_ge by lia.
      * exists y. split; [|assumption]. rewrite take_insert_ge by lia.
        apply elem_of_app in Hy as [Hy|Hy]; [assumption|].
        apply list_elem_of_singleton in Hy as ->. congruence.
      * rewrite length_insert in Hlen. rewrite take_insert_ge in Hperm by lia.
        rewrite drop_insert_eq in Hdrop by lia.
        apply drop_cons_lookup in Hdrop as [Hx' Hdrop].
        exists v'. split; [assumption|]. split; [assumption|].
        split; [assumption|].
        rewrite (take_S_r _ _ _ Hx'), (take_S_r _ _ _ Hx). split.
        -- apply sorted_snoc; [assumption|].
           apply Forall_forall. intros z Hz. rewrite Hperm in Hz.
           apply elem_of_cons in Hz as [->|Hz]; [by apply lt_asym|].
           apply Hle; [assumption|by constructor].
        -- rewrite Hperm. reflexivity.
    + rewrite vset_Ok by lia. exists (<[S n := val]> v).
      split; [reflexivity|]. split; [apply length_insert|].
      split; [by rewrite drop_insert_lt by lia|].
      rewrite take_S_insert by lia. rewrite (take_S_r _ _ _ Hx). split.
      * apply sorted_snoc.
        -- apply StronglySorted_app. split; [assumption|].
           split; [assumption|repeat constructor].
        -- apply Forall_app. split; [|by repeat constructor].
           apply Forall_forall. intros z Hz.
           apply (not_after_trans z x val); [|assumption].
           apply Hle; [assumption|by constructor].
      * by rewrite Permutation_app_comm.
Qed.

Lemma unguarded_linear_insert_spec (i : nat) (v : list A) (val : A) :
  v !! i = Some val ->
  StronglySorted not_after (take i v) ->
  (exists y, y ∈ take i v /\ lt val y = false) ->
  exists v',
    unguarded_linear_insert lt i v = Ok v' /\
    length v' = length v /\
    drop (S i) v' = drop (S i) v /\
    StronglySorted not_after (take (S i) v') /\
    take (S i) v' ≡ₚ take (S i) v.
Proof.
  intros Hi Hs Hy. unfold unguarded_linear_insert.
  rewrite (vget_Ok _ _ _ Hi). unfold mbind, res_bind. cbn [rbind].
  destruct (linear_insert_loop_spec val i v) as (v' & H1 & H2 & H3 & H4 & H5);
    [by eapply lookup_lt_Some|assumption|assumption|].
  exists v'. repeat (split; [assumption|]).
  rewrite H5, (take_S_r _ _ _ Hi). by rewrite Permutation_app_comm.
Qed.

Lemma move_backward_spec (n : nat) (v : list A) :
  (n < length v)%nat ->
  exists v',
    move_backward 0 n v = Ok v' /\
    length v' = length v /\
    drop (S n) v' = drop (S n) v /\
    take (S n) v' = take 1 v ++ take n v.
Proof.
  revert v. induction n as [|n IH]; intros v Hn.
  - exists v. repeat split; try reflexivity. by rewrite take_0, app_nil_r.
  - destruct (lookup_lt_Some_ex v n) as [x Hx]; [lia|].
    cbn [move_backward]. rewrite Nat.add_0_l, (vget_Ok _ _ _ Hx).
    unfold mbind, res_bind. cbn [rbind]. rewrite vset_Ok by lia. cbn [rbind].
    replace (n + 1)%nat with (S n) by lia.
    destruct (IH (<[S n := x]> v)) as (v' & Hrun & Hlen & Hdrop & Htake).
    { rewrite length_insert. lia. }
    rewrite length_insert in Hlen. rewrite drop_insert_eq in Hdrop by lia.
    apply drop_cons_lookup in Hdrop as [Hx' Hdrop].
    exists v'. split; [assumption|]. split; [assumption|]. split; [assumption|].
    rewrite (take_S_r _ _ _ Hx'), Htake, (take_S_r v n x Hx).
    rewrite !take_insert_ge by lia. by rewrite app_assoc.
Qed.

Lemma insertion_sort_loop_spec (i n : nat) (v : list A) :
  (0 < i)%nat -> (i + n <= length v)%nat ->
  StronglySorted not_after (take i v) ->
  exists v',
    insertion_sort_loop lt 0 i n v = Ok v' /\
    length v' = length v /\
    drop (i + n) v' = drop (i + n) v /\
    StronglySorted not_after (take (i + n) v') /\
    take (i + n) v' ≡ₚ take (i + n) v.
Proof.
  revert i v. induction n as [|n IH]; intros i v Hi Hlen Hs.
  - exists v. rewrite Nat.add_0_r. by repeat split.
  - destruct (lookup_lt_Some_ex v i) as [x Hx]; [lia|].
    destruct (lookup_lt_Some_ex v 0) as [f Hf]; [lia|].
    cbn [insertion_sort_loop]. rewrite (vget_Ok _ _ _ Hx), (vget_Ok _ _ _ Hf).
    unfold mbind, res_bind. cbn [rbind].
    assert (exists v1,
              (if lt x f
               then rbind (move_backward 0 (i - 0) v) (fun v0 => vset v0 0%nat x)
               else unguarded_linear_insert lt i v) = Ok v1 /\
              length v1 = length v /\ drop (S i) v1 = drop (S i) v /\
              StronglySorted not_after (take (S i) v1) /\
              take (S i) v1 ≡ₚ take (S i) v) as (v1 & -> & L1 & D1 & S1 & P1).
    { assert (take 1 v = [f]) as Hhd.
      { destruct v; [discriminate|]. by injection Hf as ->. }
      assert (Forall (fun y => lt y f = false) (take i v)) as Hmin.
      { destruct i as [|i]; [lia|]. destruct v as [|f' v]; [discriminate|].
        injection Hf as ->. cbn [take] in *.
        apply StronglySorted_cons in Hs as [Hall _].
        constructor; [apply not_after_refl|exact Hall]. }
      destruct (lt x f) eqn:Hxf.
      - rewrite Nat.sub_0_r.
        destruct (move_backward_spec i v) as (v0 & -> & L0 & D0 & T0); [lia|].
        cbn [rbind]. rewrite vset_Ok by lia.
        exists (<[0%nat := x]> v0). split; [reflexivity|].
        split; [by rewrite length_insert|].
        split; [by rewrite drop_insert_lt by lia|].
        assert (take (S i) (<[0%nat := x]> v0) = x :: take i v) as ->.
        { rewrite take_insert_lt by lia. rewrite T0, Hhd. reflexivity. }
        split.
        + apply StronglySorted_cons. split; [|assumption].
          eapply Forall_impl; [exact Hmin|]. intros y Hy. cbn beta in *.
          apply (not_after_trans x f y); [by apply lt_asym|assumption].
        + rewrite (take_S_r _ _ _ Hx). by rewrite Permutation_app_comm.
      - apply (unguarded_linear_insert_spec i v x); [assumption|assumption|].
        exists f. split; [|assumption]. apply elem_of_take. exists 0%nat.
        split; [assumption|lia]. }
    cbn [rbind].
    destruct (IH (S i) v1) as (v' & Hrun & L2 & D2 & S2 & P2);
      [lia|lia|assumption|].
    exists v'. replace (i + S n)%nat with (S i + n)%nat by lia.
    split; [assumption|]. split; [congruence|].
    split; [by rewrite D2, <- !drop_drop, D1|].
    split; [assumption|]. rewrite P2.
    by rewrite <- !take_take_drop, P1, D1.
Qed.

Lemma insertion_sort_spec (last : nat) (v : list A) :
  (last <= length v)%nat ->
  exists v',
    insertion_sort lt 0 last v = Ok v' /\
    length v' = length v /\
    drop last v' = drop last v /\
    StronglySorted not_after (take last v') /\
    take last v' ≡ₚ take last v.
Proof.
  intros Hlast. unfold insertion_sort. destruct last as [|n].
  - rewrite decide_True by done. exists v. repeat split; try reflexivity.
    rewrite take_0. constructor.
  - rewrite decide_False by done. cbn [Nat.sub]. rewrite Nat.sub_0_r.
    destruct (insertion_sort_loop_spec 1 n v) as (v' & H); [lia|lia| |].
    + destruct v as [|x [|y v]]; cbn; repeat constructor.
    + exists v'. exact H.
Qed.

Lemma unguarded_insertion_sort_loop_spec (i n : nat) (v : list A) :
  (i + n <= length v)%nat ->
  StronglySorted not_after (take i v) ->
  (exists y, y ∈ take i v /\
             Forall (fun x => lt x y = false) (take n (drop i v))) ->
  exists v',
    unguarded_insertion_sort_loop lt i n v = Ok v' /\
    length v' = length v /\
    drop (i + n) v' = drop (i + n) v /\
    StronglySorted not_after (take (i + n) v') /\
    take (i + n) v' ≡ₚ take (i + n) v.
Proof.
  revert i v. induction n as [|n IH]; intros i v Hlen Hs (y & Hy & Hmin).
  - exists v. rewrite Nat.add_0_r. by repeat split.
  - destruct (lookup_lt_Some_ex v i) as [x Hx]; [lia|].
    cbn [unguarded_insertion_sort_loop].
    assert (drop i v = x :: drop (S i) v) as Hd by (by apply drop_S).
    rewrite Hd in Hmin. cbn [take] in Hmin.
    apply Forall_cons in Hmin as [Hxy Hmin].
    destruct (unguarded_linear_insert_spec i v x) as (v1 & -> & L1 & D1 & S1 & P1);
      [assumption|assumption|by exists y|].
    unfold mbind, res_bind. cbn [rbind].
    destruct (IH (S i) v1) as (v' & Hrun & L2 & D2 & S2 & P2);
      [lia|assumption| |].
    { exists y. split; [|by rewrite D1]. rewrite P1.
      rewrite (take_S_r _ _ _ Hx). apply elem_of_app. by left. }
    exists v'. replace (i + S n)%nat with (S i + n)%nat by lia.
    split; [assumption|]. split; [congruence|].
    split; [by rewrite D2, <- !drop_drop, D1|].
    split; [assumption|]. rewrite P2.
    by rewrite <- !take_take_drop, P1, D1.
Qed.

(** The second phase of [std::sort]: it sorts whenever one of the first
    [_S_threshold] elements is a least one. *)
Lemma final_insertion_sort_spec (last : nat) (v : list A) :
  (last <= length v)%nat ->
  (exists y, y ∈ take S_threshold v /\
             Forall (fun x => lt x y = false) (take last v)) \/
  (last <= S_threshold)%nat ->
  exists v',
    final_insertion_sort lt 0 last v = Ok v' /\
    length v' = length v /\
    drop last v' = drop last v /\
    StronglySorted not_after (take last v') /\
    take last v' ≡ₚ take last v.
Proof.
  intros Hlast Hmin. unfold final_insertion_sort.
  rewrite Nat.sub_0_r, Nat.add_0_l.
  destruct (Nat.ltb_spec S_threshold last) as [Hbig|Hsmall];
    [|by apply insertion_sort_spec].
  destruct Hmin as [(y & Hy & Hmin)|?]; [|lia].
  unfold unguarded_insertion_sort.
  remember (last - S_threshold)%nat as d eqn:Hd.
  assert (last = S_threshold + d)%nat as -> by lia. clear Hd Hbig.
  destruct (insertion_sort_spec S_threshold v) as (v1 & -> & L1 & D1 & S1 & P1);
    [lia|].
  unfold mbind, res_bind. cbn [rbind].
  destruct (unguarded_insertion_sort_loop_spec S_threshold d v1)
    as (v' & Hrun & L2 & D2 & S2 & P2); [lia|assumption| |].
  { exists y. split; [by rewrite P1|]. rewrite D1.
    rewrite <- take_take_drop in Hmin.
    by apply Forall_app in Hmin as [_ Hmin]. }
  exists v'. split; [assumption|]. split; [congruence|].
  split; [by rewrite D2, <- !drop_drop, D1|].
  split; [assumption|]. rewrite P2.
  by rewrite <- !take_take_drop, P1, D1.
Qed.

End SortProofs.

Section SortProofs2.
Context {A : Type} (lt : A -> A -> bool).
Local Open Scope nat_scope.

Hypothesis lt_asym : forall a b, lt a b = true -> lt b a = false.
Hypothesis not_after_trans :
  forall a b c, lt b a = false -> lt c b = false -> lt c a = false.

(** *** Partition *)

Lemma same_outside_refl (first last : nat) (v : list A) :
  same_outside first last v v.
Proof. by intros k _. Qed.

Lemma same_outside_trans (first last : nat) (v1 v2 v3 : list A) :
  same_outside first last v1 v2 -> same_outside first last v2 v3 ->
  same_outside first last v1 v3.
Proof. intros H1 H2 k Hk. by rewrite H2, H1. Qed.

Lemma same_outside_mono (f l f' l' : nat) (v v' : list A) :
  (f' <= f)%nat -> (l <= l')%nat ->
  same_outside f l v v' -> same_outside f' l' v v'.
Proof. intros Hf Hl H k Hk. apply H. lia. Qed.

Lemma iter_swap_Ok (v : list A) (i j : nat) (a b : A) :
  v !! i = Some a -> v !! j = Some b ->
  iter_swap v i j = Ok (<[j := a]> (<[i := b]> v)).
Proof.
  intros Hi Hj. unfold iter_swap. rewrite (vget_Ok _ _ _ Hi), (vget_Ok _ _ _ Hj).
  unfold mbind, res_bind. cbn [rbind].
  rewrite vset_Ok by (by eapply lookup_lt_Some). cbn [rbind].
  rewrite vset_Ok; [reflexivity|].
  rewrite length_insert. by eapply lookup_lt_Some.
Qed.

Lemma swap_same_outside (first last : nat) (v : list A) (i j : nat) (a b : A) :
  (first <= i < last)%nat -> (first <= j < last)%nat ->
  same_outside first last v (<[j := a]> (<[i := b]> v)).
Proof.
  intros Hi Hj k Hk. rewrite !list_lookup_insert_ne by lia. reflexivity.
Qed.

Lemma move_median_to_first_spec (first last : nat) (v : list A) :
  (3 < last - first)%nat -> (last <= length v)%nat ->
  exists v' p k x,
    move_median_to_first lt first (first + 1) (first + (last - first) / 2)
      (last - 1) v = Ok v' /\
    v' ≡ₚ v /\ same_outside first last v v' /\
    v' !! first = Some p /\
    (first < k < last)%nat /\ v' !! k = Some x /\ lt x p = false.
Proof.
  intros Hbig Hlast.
  pose proof (Nat.div_mod_eq (last - first) 2) as Hdiv.
  pose proof (Nat.mod_upper_bound (last - first) 2 ltac:(lia)) as Hmod.
  set (mid := (first + (last - first) / 2)%nat) in *.
  assert (first + 1 < mid < last - 1)%nat as Hmid by (unfold mid; lia).
  destruct (lookup_lt_Some_ex v first) as [v0 H0]; [lia|].
  destruct (lookup_lt_Some_ex v (first + 1)) as [va Ha]; [lia|].
  destruct (lookup_lt_Some_ex v mid) as [vb Hb]; [lia|].
  destruct (lookup_lt_Some_ex v (last - 1)) as [vc Hc]; [lia|].
  unfold move_median_to_first.
  rewrite (vget_Ok _ _ _ Ha), (vget_Ok _ _ _ Hb), (vget_Ok _ _ _ Hc).
  unfold mbind, res_bind. cbn [rbind].
  assert (forall m vm k x,
            v !! m = Some vm -> (first < m < last)%nat ->
            v !! k = Some x -> (first < k < last)%nat -> k <> m ->
            lt x vm = false ->
            exists v' p k x,
              iter_swap v first m = Ok v' /\
              v' ≡ₚ v /\ same_outside first last v v' /\
              v' !! first = Some p /\
              (first < k < last)%nat /\ v' !! k = Some x /\ lt x p = false)
    as Hcase.
  { intros m vm k x Hm Hmr Hk Hkr Hkm Hlt.
    exists (<[m := v0]> (<[first := vm]> v)), vm, k, x.
    split; [by apply iter_swap_Ok|].
    split; [by apply Permutation_insert_swap|].
    split; [apply swap_same_outside; lia|].
    split.
    - rewrite list_lookup_insert_ne by lia. apply list_lookup_insert_eq.
      by eapply lookup_lt_Some.
    - split; [assumption|]. split; [|assumption].
      by rewrite !list_lookup_insert_ne by lia. }
  destruct (lt va vb) eqn:Hab.
  - destruct (lt vb vc) eqn:Hbc.
    + apply (Hcase mid vb (last - 1)%nat vc); try assumption; try lia.
      by apply lt_asym.
    + destruct (lt va vc) eqn:Hac.
      * apply (Hcase (last - 1)%nat vc mid vb); try assumption; lia.
      * apply (Hcase (first + 1)%nat va mid vb); try assumption; try lia.
        by apply lt_asym.
  - destruct (lt va vc) eqn:Hac.
    + apply (Hcase (first + 1)%nat va (last - 1)%nat vc); try assumption; try lia.
      by apply lt_asym.
    + destruct (lt vb vc) eqn:Hbc.
      * apply (Hcase (last - 1)%nat vc (first + 1)%nat va); try assumption; lia.
      * apply (Hcase mid vb (first + 1)%nat va); try assumption; lia.
Qed.

Lemma scan_up_spec (fuel : nat) (v : list A) (pivot f k : nat) (p x : A) :
  v !! pivot = Some p ->
  (f <= k)%nat -> v !! k = Some x -> lt x p = false ->
  (k - f < fuel)%nat ->
  exists f1 y,
    scan_up lt fuel v pivot f = Ok f1 /\
    (f <= f1 <= k)%nat /\ v !! f1 = Some y /\ lt y p = false /\
    forall j z, (f <= j < f1)%nat -> v !! j = Some z -> lt z p = true.
Proof.
  intros Hp. revert f. induction fuel as [|fuel IH]; intros f Hfk Hk Hx Hfuel;
    [lia|].
  destruct (lookup_lt_Some_ex v f) as [y Hy].
  { apply lookup_lt_Some in Hk. lia. }
  cbn [scan_up]. rewrite (vget_Ok _ _ _ Hy), (vget_Ok _ _ _ Hp).
  unfold mbind, res_bind. cbn [rbind].
  destruct (lt y p) eqn:Hyp.
  - assert (f <> k) by (intros ->; congruence).
    destruct (IH (S f)) as (f1 & y1 & Hrun & Hr & Hy1 & Hlt & Hall);
      [lia|assumption|assumption|lia|].
    exists f1, y1. split; [assumption|]. split; [lia|].
    split; [assumption|]. split; [assumption|].
    intros j z Hj Hz. destruct (decide (j = f)) as [->|?]; [congruence|].
    apply (Hall j); [lia|assumption].
  - exists f, y. split; [reflexivity|]. split; [lia|].
    split; [assumption|]. split; [assumption|]. intros j z Hj. lia.
Qed.

Lemma scan_down_spec (v : list A) (pivot l : nat) (p : A) :
  v !! pivot = Some p -> (pivot <= l < length v)%nat ->
  exists l1 y,
    scan_down lt v pivot l = Ok l1 /\
    (pivot <= l1 <= l)%nat /\ v !! l1 = Some y /\ lt p y = false /\
    forall j z, (l1 < j <= l)%nat -> v !! j = Some z -> lt p z = true.
Proof.
  intros Hp. induction l as [|l IH]; intros Hl.
  - assert (pivot = 0)%nat as -> by lia.
    exists 0%nat, p. cbn [scan_down]. rewrite (vget_Ok _ _ _ Hp).
    unfold mbind, res_bind. cbn [rbind]. rewrite (not_after_refl lt lt_asym).
    split; [reflexivity|]. split; [lia|]. split; [assumption|].
    split; [reflexivity|]. intros j z Hj. lia.
  - destruct (lookup_lt_Some_ex v (S l)) as [y Hy]; [lia|].
    cbn [scan_down]. rewrite (vget_Ok _ _ _ Hp), (vget_Ok _ _ _ Hy).
    unfold mbind, res_bind. cbn [rbind].
    destruct (lt p y) eqn:Hpy.
    + assert (pivot <> S l).
      { intros ->. assert (y = p) as -> by congruence.
        by rewrite (not_after_refl lt lt_asym) in Hpy. }
      destruct IH as (l1 & y1 & Hrun & Hr & Hy1 & Hlt & Hall); [lia|].
      exists l1, y1. split; [assumption|]. split; [lia|].
      split; [assumption|]. split; [assumption|].
      intros j z Hj Hz. destruct (decide (j = S l)) as [->|?]; [congruence|].
      apply (Hall j); [lia|assumption].
    + exists (S l), y. split; [reflexivity|]. split; [lia|].
      split; [assumption|]. split; [assumption|]. intros j z Hj. lia.
Qed.

Lemma unguarded_partition_spec (fuel f l pivot last0 : nat) (v : list A) (p : A) :
  v !! pivot = Some p ->
  (pivot < f)%nat -> (f <= l <= last0)%nat -> (last0 <= length v)%nat ->
  (forall k x, (pivot < k < f)%nat -> v !! k = Some x -> lt p x = false) ->
  (forall k x, (l <= k < last0)%nat -> v !! k = Some x -> lt x p = false) ->
  (exists k x, (f <= k < last0)%nat /\ v !! k = Some x /\ lt x p = false) ->
  (l - f < fuel)%nat ->
  exists cut v',
    unguarded_partition lt fuel f l pivot v = Ok (cut, v') /\
    v' ≡ₚ v /\ same_outside (S pivot) last0 v v' /\
    (pivot < cut <= last0)%nat /\
    (forall k x, (pivot < k < cut)%nat -> v' !! k = Some x -> lt p x = false) /\
    (forall k x, (cut <= k < last0)%nat -> v' !! k = Some x -> lt x p = false).
Proof.
  revert f l v. induction fuel as [|fuel IH];
    intros f l v Hp Hpf Hfl Hlast Hleft Hright (k & x & Hk & Hkx & Hxp) Hfuel;
    [lia|].
  cbn [unguarded_partition].
  destruct (scan_up_spec (S (length v)) v pivot f k p x)
    as (f1 & y1 & -> & Hf1 & Hy1 & Hy1p & Hup);
    [assumption|lia|assumption|assumption|lia|].
  unfold mbind, res_bind. cbn [rbind].
  destruct l as [|l0]; [lia|].
  destruct (scan_down_spec v pivot l0 p)
    as (l1 & z1 & -> & Hl1 & Hz1 & Hpz1 & Hdown); [assumption|lia|].
  cbn [rbind].
  assert (forall j z, (pivot < j < f1)%nat -> v !! j = Some z -> lt p z = false)
    as Hleft1.
  { intros j z Hj Hz. destruct (decide (j < f)%nat) as [?|?].
    - apply (Hleft j); [lia|assumption].
    - apply lt_asym. apply (Hup j); [lia|assumption]. }
  assert (forall j z, (l1 < j < last0)%nat -> v !! j = Some z -> lt z p = false)
    as Hright1.
  { intros j z Hj Hz. destruct (decide (S l0 <= j)%nat) as [?|?].
    - apply (Hright j); [lia|assumption].
    - apply lt_asym. apply (Hdown j); [lia|assumption]. }
  destruct (Nat.ltb_spec f1 l1) as [Hlt|Hge]; cbn [negb].
  - rewrite (iter_swap_Ok v f1 l1 y1 z1) by assumption. cbn [rbind].
    set (v2 := <[l1 := y1]> (<[f1 := z1]> v)).
    assert (length v2 = length v) as Hlen2 by (unfold v2; by rewrite !length_insert).
    destruct (IH (S f1) l1 v2) as (cut & v' & Hrun & Hperm & Hout & Hcut & HL & HR).
    + unfold v2. by rewrite !list_lookup_insert_ne by lia.
    + lia.
    + lia.
    + lia.
    + intros j z Hj Hz. unfold v2 in Hz.
      rewrite list_lookup_insert_ne in Hz by lia.
      destruct (decide (j = f1)) as [->|?].
      * rewrite list_lookup_insert_eq in Hz by lia. by injection Hz as <-.
      * rewrite list_lookup_insert_ne in Hz by lia. apply (Hleft1 j); [lia|assumption].
    + intros j z Hj Hz. unfold v2 in Hz.
      destruct (decide (j = l1)) as [->|?].
      * rewrite list_lookup_insert_eq in Hz by (rewrite length_insert; lia).
        by injection Hz as <-.
      * rewrite !list_lookup_insert_ne in Hz by lia.
        apply (Hright1 j); [lia|assumption].
    + exists l1, y1. split; [lia|]. split; [|assumption].
      unfold v2. apply list_lookup_insert_eq. rewrite length_insert. lia.
    + lia.
    + exists cut, v'. split; [assumption|].
      split; [by rewrite Hperm; apply Permutation_insert_swap|].
      split.
      { eapply same_outside_trans; [|exact Hout].
        apply swap_same_outside; lia. }
      split; [lia|]. split; assumption.
  - exists f1, v. split; [reflexivity|]. split; [reflexivity|].
    split; [apply same_outside_refl|]. split; [lia|]. split; [assumption|].
    intros j z Hj Hz. destruct (decide (j = l1)) as [->|?].
    + assert (f1 = l1) as -> by lia. congruence.
    + apply (Hright1 j); [lia|assumption].
Qed.

(** [__unguarded_partition_pivot]: no element before the cut comes after
    an element behind it. *)
Lemma unguarded_partition_pivot_spec (first last : nat) (v : list A) :
  (3 < last - first)%nat -> (last <= length v)%nat ->
  exists cut v',
    unguarded_partition_pivot lt first last v = Ok (cut, v') /\
    v' ≡ₚ v /\ same_outside first last v v' /\
    (first < cut <= last)%nat /\
    (forall i x j y, (first <= i < cut)%nat -> v' !! i = Some x ->
                     (cut <= j < last)%nat -> v' !! j = Some y ->
                     lt y x = false).
Proof.
  intros Hbig Hlast. unfold unguarded_partition_pivot.
  destruct (move_median_to_first_spec first last v Hbig Hlast)
    as (v1 & p & k & x & -> & Hperm1 & Hout1 & Hp & Hk & Hkx & Hxp).
  unfold mbind, res_bind. cbn [rbind].
  assert (length v1 = length v) as Hlen1 by (by apply Permutation_length).
  destruct (unguarded_partition_spec (S (length v1)) (first + 1) last first last v1 p)
    as (cut & v' & -> & Hperm & Hout & Hcut & HL & HR);
    [assumption|lia|lia|lia| | | |lia|].
  - intros j z Hj. lia.
  - intros j z Hj. lia.
  - exists k, x. split; [lia|]. by split.
  - exists cut, v'. split; [reflexivity|].
    split; [by rewrite Hperm|].
    split.
    { eapply same_outside_trans; [exact Hout1|].
      eapply same_outside_mono; [| |exact Hout]; lia. }
    split; [lia|].
    intros i a j b Hi Ha Hj Hb.
    assert (v' !! first = Some p) as Hp'.
    { rewrite (Hout first) by lia. assumption. }
    destruct (decide (i = first)) as [->|?].
    + assert (a = p) as -> by congruence. apply (HR j); [lia|assumption].
    + apply (not_after_trans a p b).
      * apply (HL i); [lia|assumption].
      * apply (HR j); [lia|assumption].
Qed.

End SortProofs2.

Section Slices.
Context {A : Type}.
Local Open Scope nat_scope.
Implicit Types v : list A.

Lemma slice_split (f l : nat) v :
  (f <= l <= length v)%nat -> v = take f v ++ slice f l v ++ drop l v.
Proof.
  intros H. unfold slice.
  rewrite <- (take_drop f v) at 1. f_equal.
  rewrite <- (take_drop (l - f) (drop f v)) at 1. f_equal.
  rewrite drop_drop. f_equal. lia.
Qed.

Lemma length_slice (f l : nat) v :
  (f <= l <= length v)%nat -> length (slice f l v) = (l - f)%nat.
Proof. intros H. unfold slice. rewrite length_take, length_drop. lia. Qed.

Lemma lookup_slice (f l i : nat) v :
  (i < l - f)%nat -> slice f l v !! i = v !! (f + i)%nat.
Proof. intros H. unfold slice. by rewrite lookup_take_lt, lookup_drop. Qed.

Lemma elem_of_slice (f l : nat) v (x : A) :
  x ∈ slice f l v <-> exists k, (f <= k < l)%nat /\ v !! k = Some x.
Proof.
  unfold slice. rewrite elem_of_take. split.
  - intros (i & Hi & Hlt). rewrite lookup_drop in Hi. exists (f + i)%nat.
    split; [lia|assumption].
  - intros (k & Hk & Hx). exists (k - f)%nat. rewrite lookup_drop.
    replace (f + (k - f))%nat with k by lia. split; [assumption|lia].
Qed.

Lemma slice_app (f m l : nat) v :
  (f <= m <= l)%nat -> slice f l v = slice f m v ++ slice m l v.
Proof.
  intros H. unfold slice.
  replace (l - f)%nat with ((m - f) + (l - m))%nat by lia.
  rewrite <- take_take_drop. f_equal. rewrite drop_drop.
  by replace (f + (m - f))%nat with m by lia.
Qed.

Lemma slice_snoc (f l : nat) v (x : A) :
  (f <= l)%nat -> v !! l = Some x -> slice f (S l) v = slice f l v ++ [x].
Proof.
  intros H Hx. rewrite (slice_app f l (S l)) by lia. f_equal.
  unfold slice. replace (S l - l)%nat with 1%nat by lia.
  rewrite (drop_S _ _ _ Hx). reflexivity.
Qed.

Lemma slice_0 (l : nat) v : slice 0 l v = take l v.
Proof. unfold slice. by rewrite Nat.sub_0_r, drop_0. Qed.

Lemma same_outside_take (f l : nat) v v' :
  length v' = length v -> same_outside f l v v' -> take f v' = take f v.
Proof.
  intros Hlen H. apply list_eq. intros i.
  destruct (decide (i < f)%nat) as [Hi|Hi].
  - rewrite !lookup_take_lt by done. apply H. lia.
  - rewrite !lookup_ge_None_2; [done|rewrite length_take; lia..].
Qed.

Lemma same_outside_drop (f l : nat) v v' :
  same_outside f l v v' -> drop l v' = drop l v.
Proof.
  intros H. apply list_eq. intros i. rewrite !lookup_drop. apply H. lia.
Qed.

Lemma same_outside_slice (f l a b : nat) v v' :
  same_outside f l v v' -> (b <= f \/ l <= a)%nat ->
  slice a b v' = slice a b v.
Proof.
  intros H Hab. apply list_eq. intros i.
  destruct (decide (i < b - a)%nat) as [Hi|Hi].
  - rewrite !lookup_slice by done. apply H. lia.
  - unfold slice. rewrite !lookup_take_ge by lia. reflexivity.
Qed.

(** A permutation that leaves the outside alone permutes the inside. *)
Lemma frame_slice (f l : nat) v v' :
  (f <= l <= length v)%nat -> v' ≡ₚ v -> same_outside f l v v' ->
  slice f l v' ≡ₚ slice f l v.
Proof.
  intros Hfl Hperm Hout.
  assert (length v' = length v) as Hlen by (by apply Permutation_length).
  pose proof (slice_split f l v Hfl) as E1.
  pose proof (slice_split f l v' ltac:(lia)) as E2.
  assert (take f v' ++ slice f l v' ++ drop l v'
          ≡ₚ take f v ++ slice f l v ++ drop l v) as Hperm'
    by (by rewrite <- E1, <- E2).
  clear Hperm E1 E2. rename Hperm' into Hperm.
  rewrite (same_outside_take f l v v' Hlen Hout) in Hperm.
  rewrite (same_outside_drop f l v v' Hout) in Hperm.
  apply Permutation_app_inv_l in Hperm.
  by apply Permutation_app_inv_r in Hperm.
Qed.

End Slices.

Section HeapProofs.
Context {A : Type} (lt : A -> A -> bool).
Local Open Scope nat_scope.

Hypothesis lt_asym : forall a b, lt a b = true -> lt b a = false.
Hypothesis not_after_trans :
  forall a b c, lt b a = false -> lt c b = false -> lt c a = false.

(** *** The heap *)

Lemma heap_parent_child (h c : nat) :
  (c = 2 * h + 1 \/ c = 2 * h + 2)%nat -> heap_parent c = h.
Proof.
  unfold heap_parent. intros [-> | ->].
  - replace (2 * h + 1 - 1)%nat with (h * 2)%nat by lia. apply Nat.div_mul. lia.
  - replace (2 * h + 2 - 1)%nat with (1 + h * 2)%nat by lia.
    rewrite Nat.div_add by lia. reflexivity.
Qed.

Lemma heap_parent_inv (c : nat) :
  (0 < c)%nat -> (c = 2 * heap_parent c + 1 \/ c = 2 * heap_parent c + 2)%nat.
Proof.
  unfold heap_parent. intros Hc.
  pose proof (Nat.div_mod_eq (c - 1) 2) as E.
  pose proof (Nat.mod_upper_bound (c - 1) 2 ltac:(lia)) as B. lia.
Qed.

Lemma heap_parent_lt (c : nat) : (0 < c)%nat -> (heap_parent c < c)%nat.
Proof. intros Hc. pose proof (heap_parent_inv c Hc). lia. Qed.

Lemma heap_parent_le (c : nat) : (heap_parent c <= c)%nat.
Proof.
  destruct c as [|c]; [reflexivity|].
  pose proof (heap_parent_lt (S c) ltac:(lia)). lia.
Qed.

Lemma heap_desc_refl (top : nat) : heap_desc top top.
Proof. by exists 0%nat. Qed.

Lemma heap_desc_child (top h c : nat) :
  heap_desc top h -> heap_parent c = h -> heap_desc top c.
Proof.
  intros [n Hn] Hc. exists (S n). rewrite Nat.iter_succ_r. by rewrite Hc.
Qed.

Lemma heap_iter_le (n h : nat) : (Nat.iter n heap_parent h <= h)%nat.
Proof.
  revert h. induction n as [|n IH]; intros h; [reflexivity|].
  rewrite Nat.iter_succ_r. etrans; [apply IH|apply heap_parent_le].
Qed.

Lemma heap_desc_parent (top h : nat) :
  heap_desc top h -> (top < h)%nat ->
  heap_desc top (heap_parent h) /\ (top <= heap_parent h)%nat.
Proof.
  intros [n Hn] Hlt. destruct n as [|n]; [simpl in Hn; lia|].
  rewrite Nat.iter_succ_r in Hn. split; [by exists n|].
  rewrite <- Hn. apply heap_iter_le.
Qed.

Lemma heap_desc_le (top h : nat) : heap_desc top h -> (top <= h)%nat.
Proof. intros [n <-]. apply heap_iter_le. Qed.

Lemma heap_ok_mono (first len top top' : nat) (v : list A) :
  (top <= top')%nat -> heap_ok lt first len top v -> heap_ok lt first len top' v.
Proof. intros Hle H c x y Hc Ht. apply H; [assumption|lia]. Qed.

(** One move of the hole: the element at the child [c] goes up into the
    hole [h]. *)
Lemma hole_move_perm (v : list A) (i j : nat) (x value : A) :
  i <> j -> (i < length v)%nat -> v !! j = Some x ->
  <[j := value]> (<[i := x]> v) ≡ₚ <[i := value]> v.
Proof.
  intros Hne Hi Hj.
  rewrite <- (list_insert_insert_eq v i x value).
  apply Permutation_insert_swap.
  - by apply list_lookup_insert_eq.
  - by rewrite list_lookup_insert_ne.
Qed.

Lemma hole_move_heap (first len top h c : nat) (v : list A) (x : A) :
  (first + len <= length v)%nat -> (top <= h)%nat -> (c < len)%nat ->
  heap_parent c = h -> (0 < c)%nat ->
  v !! (first + c)%nat = Some x ->
  (forall c' z, (0 < c' < len)%nat -> heap_parent c' = h ->
                v !! (first + c')%nat = Some z -> lt x z = false) ->
  heap_ok lt first len (S top) v ->
  (h <> top -> heap_ok lt first len top v) ->
  heap_ok lt first len top (<[(first + h)%nat := x]> v).
Proof.
  intros Hlen Hth Hc Hpc Hc0 Hx Hbig Hok1 Hok.
  assert (h < c)%nat as Hhc by (rewrite <- Hpc; by apply heap_parent_lt).
  intros c' a b Hc' Ht Ha Hb.
  pose proof (heap_parent_lt c' ltac:(lia)) as Hpl.
  destruct (decide (c' = h)) as [->|Hne1].
  - rewrite list_lookup_insert_eq in Ha by lia. injection Ha as <-.
    rewrite list_lookup_insert_ne in Hb by lia.
    assert (h <> top) as Hht by lia. specialize (Hok Hht).
    destruct (lookup_lt_Some_ex v (first + h)) as [y Hy]; [lia|].
    apply (not_after_trans x y b).
    + apply (Hok c); [lia|lia|assumption|by rewrite Hpc].
    + apply (Hok h); [lia|lia|assumption|assumption].
  - rewrite list_lookup_insert_ne in Ha by lia.
    destruct (decide (heap_parent c' = h)) as [Hp|Hne2].
    + rewrite Hp in Hb. rewrite list_lookup_insert_eq in Hb by lia.
      injection Hb as <-. by apply (Hbig c').
    + rewrite list_lookup_insert_ne in Hb by lia.
      destruct (decide (h = top)) as [->|Hht].
      * apply (Hok1 c'); [assumption|lia|assumption|assumption].
      * apply (Hok Hht c'); assumption.
Qed.

Lemma sift_down_spec (fuel first hole len top : nat) (v : list A) (value : A) :
  (first + len <= length v)%nat -> (top <= hole < len)%nat ->
  (len - hole < fuel)%nat ->
  heap_desc top hole ->
  heap_ok lt first len (S top) v ->
  (hole <> top -> heap_ok lt first len top v) ->
  exists h' v',
    sift_down lt fuel first hole len v = Ok (h', v') /\
    length v' = length v /\ same_outside first (first + len) v v' /\
    <[(first + h')%nat := value]> v' ≡ₚ <[(first + hole)%nat := value]> v /\
    (hole <= h' < len)%nat /\ ~ (h' < (len - 1) / 2)%nat /\
    heap_desc top h' /\
    heap_ok lt first len (S top) v' /\
    (h' <> top -> heap_ok lt first len top v').
Proof.
  revert hole v. induction fuel as [|fuel IH];
    intros hole v Hlen Hhole Hfuel Hdesc Hok1 Hok; [lia|].
  cbn [sift_down].
  pose proof (Nat.div_mod_eq (len - 1) 2) as Ediv.
  pose proof (Nat.mod_upper_bound (len - 1) 2 ltac:(lia)) as Bdiv.
  destruct (Nat.ltb_spec hole ((len - 1) / 2)) as [Hlt|Hge].
  - destruct (lookup_lt_Some_ex v (first + 2 * (hole + 1))) as [a Ha]; [lia|].
    destruct (lookup_lt_Some_ex v (first + (2 * (hole + 1) - 1))) as [b Hb]; [lia|].
    rewrite (vget_Ok _ _ _ Ha), (vget_Ok _ _ _ Hb).
    unfold mbind, res_bind. cbn [rbind].
    set (sc := if lt a b then (2 * (hole + 1) - 1)%nat else (2 * (hole + 1))%nat).
    assert (exists x, v !! (first + sc)%nat = Some x /\
              (sc = 2 * hole + 1 \/ sc = 2 * hole + 2)%nat /\
              forall c' z, (0 < c' < len)%nat -> heap_parent c' = hole ->
                v !! (first + c')%nat = Some z -> lt x z = false)
      as (x & Hx & Hsc & Hbig).
    { unfold sc. destruct (lt a b) eqn:Hab.
      - exists b. split; [assumption|]. split; [lia|].
        intros c' z Hc' Hp Hz.
        destruct (heap_parent_inv c' ltac:(lia)) as [E|E]; rewrite Hp in E.
        + replace (first + c')%nat with (first + (2 * (hole + 1) - 1))%nat in Hz by lia.
          assert (z = b) as -> by congruence. by apply not_after_refl.
        + replace (first + c')%nat with (first + 2 * (hole + 1))%nat in Hz by lia.
          assert (z = a) as -> by congruence. by apply lt_asym.
      - exists a. split; [assumption|]. split; [lia|].
        intros c' z Hc' Hp Hz.
        destruct (heap_parent_inv c' ltac:(lia)) as [E|E]; rewrite Hp in E.
        + replace (first + c')%nat with (first + (2 * (hole + 1) - 1))%nat in Hz by lia.
          assert (z = b) as -> by congruence. assumption.
        + replace (first + c')%nat with (first + 2 * (hole + 1))%nat in Hz by lia.
          assert (z = a) as -> by congruence. by apply not_after_refl. }
    rewrite (vget_Ok _ _ _ Hx). cbn [rbind]. rewrite vset_Ok by lia. cbn [rbind].
    assert (heap_parent sc = hole) as Hpsc by (apply heap_parent_child; lia).
    assert (heap_ok lt first len top (<[(first + hole)%nat := x]> v)) as Hok2.
    { apply (hole_move_heap first len top hole sc); try assumption; lia. }
    destruct (IH sc (<[(first + hole)%nat := x]> v))
      as (h' & v' & Hrun & Hl & Hout & Hperm & Hh' & Hleaf & Hd & Hk1 & Hk).
    + by rewrite length_insert.
    + lia.
    + lia.
    + by eapply heap_desc_child.
    + eapply heap_ok_mono; [|exact Hok2]. lia.
    + intros _. exact Hok2.
    + exists h', v'. split; [assumption|].
      rewrite length_insert in Hl. split; [assumption|].
      split.
      { eapply same_outside_trans; [|exact Hout].
        intros k Hk'. apply list_lookup_insert_ne. lia. }
      split.
      { rewrite Hperm. apply hole_move_perm; [lia|lia|assumption]. }
      split; [lia|]. split; [assumption|]. split; [assumption|].
      split; assumption.
  - exists hole, v. split; [reflexivity|]. split; [reflexivity|].
    split; [apply same_outside_refl|]. split; [reflexivity|].
    split; [lia|]. split; [lia|]. split; [assumption|]. split; assumption.
Qed.

Lemma push_heap_spec (fuel first hole top len : nat) (value : A) (v : list A) :
  (first + len <= length v)%nat -> (top <= hole < len)%nat -> (hole < fuel)%nat ->
  heap_desc top hole ->
  heap_ok lt first len top v ->
  (forall c x, (0 < c < len)%nat -> heap_parent c = hole ->
               v !! (first + c)%nat = Some x -> lt value x = false) ->
  exists v',
    push_heap lt fuel first hole top value v = Ok v' /\
    length v' = length v /\ same_outside first (first + len) v v' /\
    v' ≡ₚ <[(first + hole)%nat := value]> v /\
    heap_ok lt first len top v'.
Proof.
  revert hole v. induction fuel as [|fuel IH];
    intros hole v Hlen Hhole Hfuel Hdesc Hok Hch; [lia|].
  cbn [push_heap]. fold (heap_parent hole).
  assert (exists v',
            vset v (first + hole) value = Ok v' /\
            length v' = length v /\ same_outside first (first + len) v v' /\
            v' ≡ₚ <[(first + hole)%nat := value]> v /\
            (((top < hole)%nat ->
              forall y, v !! (first + heap_parent hole)%nat = Some y ->
                        lt y value = false) ->
             heap_ok lt first len top v')) as Hend.
  { exists (<[(first + hole)%nat := value]> v).
    split; [apply vset_Ok; lia|]. split; [apply length_insert|].
    split; [intros k Hk; apply list_lookup_insert_ne; lia|].
    split; [reflexivity|].
    intros Hpar c a b Hc Ht Ha Hb.
    pose proof (heap_parent_lt c ltac:(lia)) as Hpl.
    destruct (decide (c = hole)) as [->|Hne1].
    - rewrite list_lookup_insert_eq in Ha by lia. injection Ha as <-.
      rewrite list_lookup_insert_ne in Hb by lia.
      apply Hpar; [lia|assumption].
    - rewrite list_lookup_insert_ne in Ha by lia.
      destruct (decide (heap_parent c = hole)) as [Hp|Hne2].
      + rewrite Hp in Hb. rewrite list_lookup_insert_eq in Hb by lia.
        injection Hb as <-. by apply (Hch c).
      + rewrite list_lookup_insert_ne in Hb by lia. by apply (Hok c). }
  destruct (Nat.ltb_spec top hole) as [Hlt|Hge].
  - destruct (heap_desc_parent top hole Hdesc Hlt) as [Hdp Htp].
    pose proof (heap_parent_lt hole ltac:(lia)) as Hpl.
    destruct (lookup_lt_Some_ex v (first + heap_parent hole)) as [y Hy]; [lia|].
    rewrite (vget_Ok _ _ _ Hy). unfold mbind, res_bind. cbn [rbind].
    destruct (lt y value) eqn:Hyv.
    + rewrite vset_Ok by lia. cbn [rbind].
      destruct (IH (heap_parent hole) (<[(first + hole)%nat := y]> v))
        as (v' & Hrun & Hl & Hout & Hperm & Hk).
      * by rewrite length_insert.
      * lia.
      * lia.
      * assumption.
      * intros c a b Hc Ht Ha Hb.
        pose proof (heap_parent_lt c ltac:(lia)) as Hpc.
        destruct (decide (c = hole)) as [->|Hne1].
        -- rewrite list_lookup_insert_eq in Ha by lia. injection Ha as <-.
           rewrite list_lookup_insert_ne in Hb by lia.
           assert (b = y) as -> by congruence. by apply not_after_refl.
        -- rewrite list_lookup_insert_ne in Ha by lia.
           destruct (decide (heap_parent c = hole)) as [Hp|Hne2].
           ++ rewrite Hp in Hb. rewrite list_lookup_insert_eq in Hb by lia.
              injection Hb as <-.
              destruct (lookup_lt_Some_ex v (first + hole)) as [z Hz]; [lia|].
              apply (not_after_trans a z y).
              ** apply (Hok c); [assumption|lia|assumption|by rewrite Hp].
              ** apply (Hok hole); [lia|lia|assumption|assumption].
           ++ rewrite list_lookup_insert_ne in Hb by lia. by apply (Hok c).
      * intros c a Hc Hp Ha.
        destruct (decide (c = hole)) as [->|Hne1].
        -- rewrite list_lookup_insert_eq in Ha by lia. injection Ha as <-.
           by apply lt_asym.
        -- rewrite list_lookup_insert_ne in Ha by lia.
           apply (not_after_trans a y value); [|by apply lt_asym].
           apply (Hok c); [assumption|lia|assumption|by rewrite Hp].
      * exists v'. split; [assumption|]. rewrite length_insert in Hl.
        split; [assumption|].
        split.
        { eapply same_outside_trans; [|exact Hout].
          intros k Hk'. apply list_lookup_insert_ne. lia. }
        split; [|assumption].
        rewrite Hperm. apply hole_move_perm; [lia|lia|assumption].
    + destruct Hend as (v' & Hrun & Hl & Hout & Hperm & Hk).
      exists v'. repeat (split; [assumption|]). apply Hk.
      intros _ y' Hy'. congruence.
  - destruct Hend as (v' & Hrun & Hl & Hout & Hperm & Hk).
    exists v'. repeat (split; [assumption|]). apply Hk. lia.
Qed.

(** [__adjust_heap]: the value is put into the subtree of the hole. *)
Lemma adjust_heap_spec (first hole len : nat) (value : A) (v : list A) :
  (first + len <= length v)%nat -> (hole < len)%nat ->
  heap_ok lt first len (S hole) v ->
  exists v',
    adjust_heap lt first hole len value v = Ok v' /\
    length v' = length v /\ same_outside first (first + len) v v' /\
    v' ≡ₚ <[(first + hole)%nat := value]> v /\
    heap_ok lt first len hole v'.
Proof.
  intros Hlen Hhole Hok1. unfold adjust_heap.
  destruct (sift_down_spec (S len) first hole len hole v value)
    as (h1 & v1 & -> & L1 & O1 & P1 & Hh1 & Hleaf & D1 & K1 & K1');
    [assumption|lia|lia|apply heap_desc_refl|assumption|done|].
  unfold mbind, res_bind. cbn [rbind].
  replace (0 <? len)%nat with true by (symmetry; apply Nat.ltb_lt; lia).
  rewrite andb_true_r.
  pose proof (Nat.div_mod_eq (len - 1) 2) as Ediv.
  pose proof (Nat.mod_upper_bound (len - 1) 2 ltac:(lia)) as Bdiv.
  pose proof (Nat.div_mod_eq (len - 2) 2) as Ediv2.
  pose proof (Nat.mod_upper_bound (len - 2) 2 ltac:(lia)) as Bdiv2.
  assert (exists h2 v2,
    (if Nat.even len && (h1 =? (len - 2) / 2)%nat
     then rbind (vget v1 (first + (2 * (h1 + 1) - 1)))
            (fun x => rbind (vset v1 (first + h1) x)
               (fun v0 => Ok ((2 * (h1 + 1) - 1)%nat, v0)))
     else Ok (h1, v1)) = Ok (h2, v2) /\
    length v2 = length v /\ same_outside first (first + len) v v2 /\
    <[(first + h2)%nat := value]> v2 ≡ₚ <[(first + hole)%nat := value]> v /\
    (hole <= h2 < len)%nat /\ heap_desc hole h2 /\
    heap_ok lt first len hole v2 /\
    (forall c, (0 < c < len)%nat -> heap_parent c <> h2))
    as (h2 & v2 & -> & L2 & O2 & P2 & Hh2 & D2 & K2 & Hleaf2).
  { destruct (Nat.even len && (h1 =? (len - 2) / 2)%nat) eqn:Hcond.
    - apply andb_true_iff in Hcond as [Hev Hh].
      apply Nat.eqb_eq in Hh. apply Nat.even_spec in Hev as [m Hm].
      assert (len = 2 * h1 + 2)%nat as Elen by lia.
      destruct (lookup_lt_Some_ex v1 (first + (2 * (h1 + 1) - 1))) as [x Hx]; [lia|].
      rewrite (vget_Ok _ _ _ Hx). cbn [rbind]. rewrite vset_Ok by lia. cbn [rbind].
      exists (2 * (h1 + 1) - 1)%nat, (<[(first + h1)%nat := x]> v1).
      split; [reflexivity|]. split; [by rewrite length_insert|].
      split.
      { eapply same_outside_trans; [exact O1|].
        intros k Hk'. apply list_lookup_insert_ne. lia. }
      split.
      { rewrite <- P1. apply hole_move_perm; [lia|lia|assumption]. }
      split; [lia|].
      assert (heap_parent (2 * (h1 + 1) - 1) = h1) as Hpc
        by (apply heap_parent_child; lia).
      split; [by eapply heap_desc_child|].
      split.
      + apply (hole_move_heap first len hole h1 (2 * (h1 + 1) - 1));
          try assumption; try lia.
        intros c' z Hc' Hp Hz.
        destruct (heap_parent_inv c' ltac:(lia)) as [E|E]; rewrite Hp in E; [|lia].
        replace (first + c')%nat with (first + (2 * (h1 + 1) - 1))%nat in Hz by lia.
        assert (z = x) as -> by congruence. by apply not_after_refl.
      + intros c Hc Hp. destruct (heap_parent_inv c ltac:(lia)) as [E|E];
          rewrite Hp in E; lia.
    - exists h1, v1. split; [reflexivity|]. split; [assumption|].
      split; [assumption|]. split; [assumption|]. split; [lia|].
      split; [assumption|].
      assert (forall c, (0 < c < len)%nat -> heap_parent c <> h1) as Hl1.
      { intros c Hc Hp. destruct (heap_parent_inv c ltac:(lia)) as [E|E];
          rewrite Hp in E.
        - apply andb_false_iff in Hcond as [Hev|Hh].
          + assert (Nat.even len = true); [|congruence].
            apply Nat.even_spec.
            destruct (Nat.Even_or_Odd len) as [?|[m Hm]]; [assumption|lia].
          + apply Nat.eqb_neq in Hh.
            destruct (Nat.Even_or_Odd len) as [[m Hm]|[m Hm]]; lia.
        - lia. }
      split; [|assumption].
      destruct (decide (h1 = hole)) as [->|Hne]; [|by apply K1'].
      intros c a b Hc Ht Ha Hb.
      destruct (decide (heap_parent c = hole)) as [Hp|Hp];
        [by apply Hl1 in Hp|].
      apply (K1 c); [assumption|lia|assumption|assumption]. }
  cbn [rbind].
  destruct (push_heap_spec (S h2) first h2 hole len value v2)
    as (v' & -> & L3 & O3 & P3 & K3); [lia|lia|lia|assumption|assumption| |].
  { intros c x Hc Hp. by apply Hleaf2 in Hp. }
  exists v'. split; [reflexivity|]. split; [congruence|].
  split; [by eapply same_outside_trans|]. split; [by rewrite P3|assumption].
Qed.

Lemma make_heap_loop_spec (first len parent : nat) (v : list A) :
  (first + len <= length v)%nat -> (parent < len)%nat ->
  heap_ok lt first len (S parent) v ->
  exists v',
    make_heap_loop lt first len parent v = Ok v' /\
    v' ≡ₚ v /\ same_outside first (first + len) v v' /\
    heap_ok lt first len 0 v'.
Proof.
  revert v. induction parent as [|parent IH]; intros v Hlen Hp Hok;
    cbn [make_heap_loop].
  - destruct (lookup_lt_Some_ex v (first + 0)) as [value Hv]; [lia|].
    rewrite (vget_Ok _ _ _ Hv). unfold mbind, res_bind. cbn [rbind].
    destruct (adjust_heap_spec first 0 len value v)
      as (v' & -> & L & O & P & K); [assumption|assumption|assumption|].
    cbn [rbind]. exists v'. split; [reflexivity|].
    split; [by rewrite P, list_insert_id|]. split; assumption.
  - destruct (lookup_lt_Some_ex v (first + S parent)) as [value Hv]; [lia|].
    rewrite (vget_Ok _ _ _ Hv). unfold mbind, res_bind. cbn [rbind].
    destruct (adjust_heap_spec first (S parent) len value v)
      as (v1 & -> & L & O & P & K); [assumption|assumption|assumption|].
    cbn [rbind].
    destruct (IH v1) as (v' & Hrun & P' & O' & K'); [lia|lia|assumption|].
    exists v'. split; [assumption|].
    split; [by rewrite P', P, list_insert_id|].
    split; [by eapply same_outside_trans|assumption].
Qed.

Lemma make_heap_spec (first len : nat) (v : list A) :
  (first + len <= length v)%nat ->
  exists v',
    make_heap lt first (first + len) v = Ok v' /\
    v' ≡ₚ v /\ same_outside first (first + len) v v' /\
    heap_ok lt first len 0 v'.
Proof.
  intros Hlen. unfold make_heap.
  replace (first + len - first)%nat with len by lia.
  destruct (Nat.ltb_spec len 2) as [Hsmall|Hbig].
  - exists v. split; [reflexivity|]. split; [reflexivity|].
    split; [apply same_outside_refl|].
    intros c x y Hc _. pose proof (heap_parent_lt c ltac:(lia)). lia.
  - apply make_heap_loop_spec; [assumption| |].
    + pose proof (Nat.div_mod_eq (len - 2) 2).
      pose proof (Nat.mod_upper_bound (len - 2) 2 ltac:(lia)). lia.
    + intros c x y Hc Ht. exfalso.
      destruct (heap_parent_inv c ltac:(lia)) as [E|E];
        pose proof (Nat.div_mod_eq (len - 2) 2);
        pose proof (Nat.mod_upper_bound (len - 2) 2 ltac:(lia)); lia.
Qed.

(** In a heap no element comes after the first. *)
Lemma heap_root_max (first len : nat) (v : list A) (r : A) :
  heap_ok lt first len 0 v -> (first + len <= length v)%nat ->
  v !! first = Some r ->
  forall c x, (c < len)%nat -> v !! (first + c)%nat = Some x -> lt r x = false.
Proof.
  intros Hok Hlen Hr c. induction c as [c IH] using lt_wf_ind. intros x Hc Hx.
  destruct c as [|c'].
  - rewrite Nat.add_0_r in Hx. assert (x = r) as -> by congruence.
    by apply not_after_refl.
  - pose proof (heap_parent_lt (S c') ltac:(lia)) as Hpl.
    destruct (lookup_lt_Some_ex v (first + heap_parent (S c'))) as [y Hy]; [lia|].
    apply (not_after_trans x y r).
    + apply (Hok (S c')); [lia|lia|assumption|assumption].
    + apply (IH (heap_parent (S c'))); [assumption|lia|assumption].
Qed.

Lemma heap_ok_shrink (first len len' top : nat) (v : list A) :
  (len' <= len)%nat -> heap_ok lt first len top v -> heap_ok lt first len' top v.
Proof. intros Hle H c x y Hc. apply H. lia. Qed.

Lemma heap_ok_same (first len top : nat) (v v' : list A) :
  (forall k, (first <= k < first + len)%nat -> v' !! k = v !! k) ->
  heap_ok lt first len top v -> heap_ok lt first len top v'.
Proof.
  intros Heq H c x y Hc Ht Hx Hy.
  pose proof (heap_parent_lt c ltac:(lia)).
  rewrite Heq in Hx, Hy by lia. by apply (H c).
Qed.

(** [__pop_heap(first, last, last)]: the first element goes behind the
    heap, which becomes one shorter. *)
Lemma pop_heap_spec (first len : nat) (v : list A) (r : A) :
  (first + len < length v)%nat -> (0 < len)%nat ->
  heap_ok lt first len 0 v -> v !! first = Some r ->
  exists v',
    pop_heap lt first (first + len) (first + len) v = Ok v' /\
    v' ≡ₚ v /\ same_outside first (S (first + len)) v v' /\
    v' !! (first + len)%nat = Some r /\
    heap_ok lt first len 0 v'.
Proof.
  intros Hlen Hpos Hok Hr. unfold pop_heap.
  destruct (lookup_lt_Some_ex v (first + len)) as [value Hv]; [lia|].
  rewrite (vget_Ok _ _ _ Hv), (vget_Ok _ _ _ Hr).
  unfold mbind, res_bind. cbn [rbind]. rewrite vset_Ok by lia. cbn [rbind].
  replace (first + len - first)%nat with len by lia.
  destruct (adjust_heap_spec first 0 len value (<[(first + len)%nat := r]> v))
    as (v' & -> & L & O & P & K).
  - rewrite length_insert. lia.
  - assumption.
  - eapply heap_ok_mono; [|eapply heap_ok_same; [|exact Hok]]; [lia|].
    intros k Hk. apply list_lookup_insert_ne. lia.
  - rewrite length_insert in L. exists v'. split; [reflexivity|].
    split.
    { rewrite P, Nat.add_0_r. apply Permutation_insert_swap; assumption. }
    split.
    { intros k Hk. rewrite (O k) by lia. apply list_lookup_insert_ne. lia. }
    split; [|assumption].
    rewrite (O (first + len)%nat) by lia. apply list_lookup_insert_eq. lia.
Qed.

Local Abbreviation not_after := (fun a b => lt b a = false).

Lemma sort_heap_spec (first n : nat) (v : list A) :
  (first + n <= length v)%nat -> heap_ok lt first n 0 v ->
  exists v',
    sort_heap lt first n v = Ok v' /\
    v' ≡ₚ v /\ same_outside first (first + n) v v' /\
    StronglySorted not_after (slice first (first + n) v').
Proof.
  revert v. induction n as [|n IH]; intros v Hlen Hok; cbn [sort_heap].
  - exists v. split; [reflexivity|]. split; [reflexivity|].
    split; [apply same_outside_refl|]. unfold slice.
    replace (first + 0 - first)%nat with 0%nat by lia. constructor.
  - destruct (Nat.ltb_spec 1 (S n)) as [Hbig|Hsmall].
    + destruct (lookup_lt_Some_ex v first) as [r Hr]; [lia|].
      destruct (pop_heap_spec first n v r) as (v1 & -> & P1 & O1 & Hr1 & K1);
        [lia|lia|by eapply heap_ok_shrink; [|exact Hok]; lia|assumption|].
      unfold mbind, res_bind. cbn [rbind].
      assert (length v1 = length v) as L1 by (by apply Permutation_length).
      destruct (IH v1) as (v' & Hrun & P' & O' & S'); [lia|assumption|].
      assert (length v' = length v1) as L' by (by apply Permutation_length).
      exists v'. split; [assumption|]. split; [by rewrite P'|].
      split.
      { eapply same_outside_trans.
        - eapply same_outside_mono; [| |exact O1]; lia.
        - eapply same_outside_mono; [| |exact O']; lia. }
      assert (v' !! (first + n)%nat = Some r) as Hr'.
      { rewrite (O' (first + n)%nat) by lia. assumption. }
      replace (first + S n)%nat with (S (first + n)) by lia.
      rewrite (slice_snoc first (first + n) v' r) by (lia || assumption).
      apply (sorted_snoc lt); [assumption|].
      apply Forall_forall. intros x Hx.
      rewrite (frame_slice first (first + n) v1 v') in Hx by (lia || assumption).
      assert (x ∈ slice first (S (first + n)) v1) as Hx1.
      { rewrite (slice_snoc first (first + n) v1 r) by (lia || assumption).
        apply elem_of_app. by left. }
      rewrite (frame_slice first (S (first + n)) v v1) in Hx1
        by (lia || assumption).
      apply elem_of_slice in Hx1 as (k & Hk & Hkx).
      apply (heap_root_max first (S n) v r Hok Hlen Hr (k - first)); [lia|].
      by replace (first + (k - first))%nat with k by lia.
    + exists v. split; [reflexivity|]. split; [reflexivity|].
      split; [apply same_outside_refl|].
      assert (n = 0)%nat as -> by lia. unfold slice.
      replace (first + 1 - first)%nat with 1%nat by lia.
      destruct (drop first v) as [|x l]; cbn; repeat constructor.
Qed.

(** [__partial_sort(first, last, last)] is heap sort. *)
Lemma partial_sort_spec (first len : nat) (v : list A) :
  (first + len <= length v)%nat ->
  exists v',
    partial_sort lt first (first + len) (first + len) v = Ok v' /\
    v' ≡ₚ v /\ same_outside first (first + len) v v' /\
    StronglySorted not_after (slice first (first + len) v').
Proof.
  intros Hlen. unfold partial_sort.
  destruct (make_heap_spec first len v Hlen) as (v1 & -> & P1 & O1 & K1).
  unfold mbind, res_bind. cbn [rbind].
  rewrite Nat.sub_diag. cbn [heap_select_loop rbind].
  replace (first + len - first)%nat with len by lia.
  assert (length v1 = length v) as L1 by (by apply Permutation_length).
  destruct (sort_heap_spec first len v1) as (v' & -> & P' & O' & S');
    [lia|assumption|].
  exists v'. split; [reflexivity|]. split; [by rewrite P'|].
  split; [by eapply same_outside_trans|assumption].
Qed.

End HeapProofs.

Section IntroProofs.
Context {A : Type} (lt : A -> A -> bool).
Local Open Scope nat_scope.

Hypothesis lt_asym : forall a b, lt a b = true -> lt b a = false.
Hypothesis not_after_trans :
  forall a b c, lt b a = false -> lt c b = false -> lt c a = false.

Local Abbreviation not_after := (fun a b => lt b a = false).

(** *** The introsort loop and [std::sort] *)

Lemma exists_min (l : list A) :
  l <> [] -> exists y, y ∈ l /\ Forall (fun x => lt x y = false) l.
Proof.
  induction l as [|x l IH]; [done|]. intros _.
  destruct l as [|x' l'].
  - exists x. split; [apply list_elem_of_here|].
    constructor; [by apply (not_after_refl lt)|constructor].
  - destruct IH as (y & Hy & Hall); [done|].
    destruct (lt x y) eqn:Hxy.
    + exists x. split; [apply list_elem_of_here|].
      constructor; [by apply (not_after_refl lt)|].
      eapply Forall_impl; [exact Hall|]. cbn beta. intros z Hz.
      apply (not_after_trans x y z); [by apply lt_asym|assumption].
    + exists y. split; [by apply list_elem_of_further|].
      constructor; assumption.
Qed.

Lemma introsort_loop_spec (depth_limit first last : nat) (v : list A) :
  (first <= last <= length v)%nat ->
  exists v',
    introsort_loop lt depth_limit first last v = Ok v' /\
    v' ≡ₚ v /\ same_outside first last v v' /\
    ((first < last)%nat ->
     exists y, y ∈ slice first (last `min` (first + S_threshold)) v' /\
               Forall (fun x => lt x y = false) (slice first last v')).
Proof.
  revert first last v.
  induction depth_limit as [|d IH]; intros first last v Hfl;
    cbn [introsort_loop];
    destruct (Nat.ltb_spec S_threshold (last - first)) as [Hbig|Hsmall].
  - pose proof (partial_sort_spec lt lt_asym not_after_trans first
                  (last - first) v) as Hps.
    replace (first + (last - first))%nat with last in Hps by lia.
    destruct Hps as (v' & -> & P & O & Hs); [lia|].
    exists v'. split; [reflexivity|]. split; [assumption|].
    split; [assumption|]. intros _.
    assert (length v' = length v) as L by (by apply Permutation_length).
    destruct (lookup_lt_Some_ex v' first) as [y Hy];
      [unfold S_threshold in *; lia|].
    exists y. split.
    + apply elem_of_slice. exists first. split; [|assumption].
      unfold S_threshold in *. lia.
    + rewrite (slice_app first (S first) last) in Hs |- *
        by (unfold S_threshold in *; lia).
      rewrite (slice_snoc first first v' y) in Hs |- * by (lia || assumption).
      unfold slice at 1 in Hs. unfold slice at 1.
      rewrite Nat.sub_diag, take_0 in Hs |- *. cbn [app] in Hs |- *.
      apply StronglySorted_inv in Hs as [_ Hs].
      constructor; [by apply (not_after_refl lt)|assumption].
  - exists v. split; [reflexivity|]. split; [reflexivity|].
    split; [apply same_outside_refl|]. intros Hne.
    replace (last `min` (first + S_threshold))%nat with last by lia.
    apply exists_min. intros E.
    apply (f_equal length) in E. rewrite length_slice in E by lia.
    cbn in E. lia.
  - destruct (unguarded_partition_pivot_spec lt lt_asym not_after_trans first last v)
      as (cut & v1 & -> & P1 & O1 & Hcut & Hpart);
      [unfold S_threshold in *; lia|lia|].
    unfold mbind, res_bind. cbn [rbind].
    assert (length v1 = length v) as L1 by (by apply Permutation_length).
    destruct (IH cut last v1) as (v2 & -> & P2 & O2 & _); [lia|].
    cbn [rbind].
    assert (length v2 = length v1) as L2 by (by apply Permutation_length).
    destruct (IH first cut v2) as (v3 & -> & P3 & O3 & M3); [lia|].
    assert (length v3 = length v2) as L3 by (by apply Permutation_length).
    exists v3. split; [reflexivity|].
    split; [by rewrite P3, P2|].
    split.
    { eapply same_outside_trans; [exact O1|].
      eapply same_outside_trans.
      - eapply same_outside_mono; [| |exact O2]; lia.
      - eapply same_outside_mono; [| |exact O3]; lia. }
    intros _. destruct M3 as (y & Hy & Hall); [lia|].
    exists y. split.
    { apply elem_of_slice in Hy as (k & Hk & Hky).
      apply elem_of_slice. exists k. split; [lia|assumption]. }
    rewrite (slice_app first cut last) by lia.
    apply Forall_app. split; [assumption|].
    assert (y ∈ slice first cut v1) as Hy1.
    { rewrite <- (same_outside_slice cut last first cut v1 v2 O2) by lia.
      rewrite <- (frame_slice first cut v2 v3) by (lia || assumption).
      apply elem_of_slice in Hy as (k & Hk & Hky).
      apply elem_of_slice. exists k. split; [lia|assumption]. }
    apply elem_of_slice in Hy1 as (i & Hi & Hiy).
    apply Forall_forall. intros x Hx.
    rewrite (same_outside_slice first cut cut last v2 v3 O3) in Hx by lia.
    rewrite (frame_slice cut last v1 v2) in Hx by (lia || assumption).
    apply elem_of_slice in Hx as (j & Hj & Hjx).
    by apply (Hpart i y j x).
  - exists v. split; [reflexivity|]. split; [reflexivity|].
    split; [apply same_outside_refl|]. intros Hne.
    replace (last `min` (first + S_threshold))%nat with last by lia.
    apply exists_min. intros E.
    apply (f_equal length) in E. rewrite length_slice in E by lia.
    cbn in E. lia.
Qed.

(** [std::sort] on a whole vector returns, and returns the elements of
    the vector in order. *)
Lemma sort_spec (v : list A) :
  exists v',
    sort lt 0 (length v) v = Ok v' /\
    v' ≡ₚ v /\ StronglySorted not_after v'.
Proof.
  unfold sort. destruct (decide (0%nat = length v)) as [E|E].
  - exists v. split; [reflexivity|]. split; [reflexivity|].
    destruct v; [constructor|done].
  - destruct (introsort_loop_spec (Nat.log2 (length v - 0) * 2) 0 (length v) v)
      as (v1 & -> & P1 & _ & M1); [lia|].
    unfold mbind, res_bind. cbn [rbind].
    assert (length v1 = length v) as L1 by (by apply Permutation_length).
    destruct (final_insertion_sort_spec lt lt_asym not_after_trans (length v) v1)
      as (v' & -> & L' & _ & S' & P'); [lia| |].
    + destruct M1 as (y & Hy & Hall); [lia|]. left. exists y.
      rewrite slice_0 in Hy, Hall. split; [|assumption].
      apply elem_of_take in Hy as (i & Hi & Hlt).
      apply elem_of_take. exists i. split; [assumption|lia].
    + rewrite take_ge in S' by lia. rewrite !take_ge in P' by lia.
      exists v'. split; [reflexivity|]. split; [by rewrite P'|assumption].
Qed.

End IntroProofs.

(** ** The order of the input *)

Lemma string_lt_irrefl (a : bytes) : string_lt a a = false.
Proof. induction a as [|x a IH]; simpl; [reflexivity|]. by rewrite Z.ltb_irrefl. Qed.

Lemma string_lt_asym (a b : bytes) : string_lt a b = true -> string_lt b a = false.
Proof.
  revert b. induction a as [|x a IH]; intros [|y b]; simpl; try congruence.
  destruct (x <? y) eqn:Hxy, (y <? x) eqn:Hyx; try congruence; auto.
  apply Z.ltb_lt in Hxy, Hyx. lia.
Qed.

(** "Not after" composes: the order [operator<] induces is a total
    preorder on the keys. *)
Lemma string_le_trans (a b c : bytes) :
  string_lt b a = false -> string_lt c b = false -> string_lt c a = false.
Proof.
  revert b c. induction a as [|x a IH]; intros [|y b] [|z c]; simpl; try congruence.
  destruct (y <? x) eqn:Hyx; [congruence|].
  destruct (x <? y) eqn:Hxy.
  - intros _. destruct (z <? y) eqn:Hzy; [congruence|].
    apply Z.ltb_ge in Hyx, Hzy. apply Z.ltb_lt in Hxy.
    destruct (z <? x) eqn:Hzx; [apply Z.ltb_lt in Hzx; lia|].
    destruct (x <? z) eqn:Hxz; [reflexivity|]. apply Z.ltb_ge in Hxz. lia.
  - apply Z.ltb_ge in Hyx, Hxy. assert (x = y) as -> by lia. intros Hba.
    destruct (z <? y) eqn:Hzy; [congruence|].
    destruct (y <? z) eqn:Hyz; [reflexivity|]. by apply IH.
Qed.

Global Instance Pair_le_total : Total Pair_le.
Proof.
  intros a b. unfold Pair_le, Pair_lt.
  destruct (string_lt (Pair_in b) (Pair_in a)) eqn:H; [right|left; reflexivity].
  by apply string_lt_asym.
Qed.

Global Instance Pair_le_trans : Transitive Pair_le.
Proof.
  intros a b c. unfold Pair_le, Pair_lt. intros Hab Hbc.
  by apply (string_le_trans _ (Pair_in b)).
Qed.

Lemma Pair_lt_asym (a b : Pair) : Pair_lt a b = true -> Pair_lt b a = false.
Proof. unfold Pair_lt. apply string_lt_asym. Qed.

Lemma Pair_le_chain (a b c : Pair) :
  Pair_lt b a = false -> Pair_lt c b = false -> Pair_lt c a = false.
Proof. unfold Pair_lt. apply string_le_trans. Qed.

(** [std::sort] with [Pair::operator<] returns on every vector. *)
Lemma std_sort_Ok (v : list Pair) :
  sort Pair_lt 0 (length v) v = Ok (std_sort v).
Proof.
  destruct (sort_spec Pair_lt Pair_lt_asym Pair_le_chain v) as (v' & E & _).
  unfold std_sort. by rewrite E.
Qed.

Lemma std_sort_Permutation (v : list Pair) : std_sort v ≡ₚ v.
Proof.
  destruct (sort_spec Pair_lt Pair_lt_asym Pair_le_chain v) as (v' & E & P & _).
  unfold std_sort. by rewrite E.
Qed.

Lemma std_sort_sorted (v : list Pair) : StronglySorted Pair_le (std_sort v).
Proof.
  destruct (sort_spec Pair_lt Pair_lt_asym Pair_le_chain v) as (v' & E & _ & S).
  unfold std_sort. rewrite E. exact S.
Qed.

Lemma buildMAST_input (input : list Pair) :
  fst (buildMAST input) = std_sort input.
Proof. reflexivity. Qed.

Lemma BuildFST_input (input : list Pair) (err : string) :
  fst (fst (BuildFST input err)) = std_sort input.
Proof.
  unfold BuildFST. pose proof (buildMAST_input input) as H.
  destruct (buildMAST input) as [input' [[m h]| |f]]; simpl in *.
  - by destruct (buildMachine h m err).
  - done.
  - done.
Qed.

(** C10: whatever [BuildFST] then does (return a machine, throw or
    fault), the caller's vector has been rearranged by then: it holds the
    same pairs, each with its [in] and [out] as before, and no pair
    stands before one with a smaller key under the bytewise order of
    [Pair::operator<]. *)
Theorem C10_BuildFST_sorts_input (input : list Pair) (err : string) :
  Permutation (fst (fst (BuildFST input err))) input /\
  StronglySorted Pair_le (fst (fst (BuildFST input err))) /\
  fst (fst (BuildFST input err)) = fst (buildMAST input).
Proof.
  rewrite BuildFST_input, buildMAST_input. split; [|split].
  - apply std_sort_Permutation.
  - apply std_sort_sorted.
  - reflexivity.
Qed.

Example BuildFST_sorts_test_input :
  fst (fst (BuildFST [mkPair [98] 2; mkPair [97; 98] 3; mkPair [97] 1] ""))
  = [mkPair [97] 1; mkPair [97; 98] 3; mkPair [98] 2].
Proof. vm_compute. reflexivity. Qed.

(** ** The error of the compiler *)

Lemma next_addr_message_contains (s_id ch : Z) :
  contains "next addr is undefined" (next_addr_message s_id ch) = true.
Proof. reflexivity. Qed.

(** C8 as stated fails: when the unregistered successor is final, the
    guard [!next->isFinal] keeps [buildMachine] from writing the message;
    [*err] stays as the caller passed it. *)
Lemma C8_final_successor_no_message :
  ~ (forall h s first ch c err,
       successor_unregistered h s ch c ->
       contains "next addr is undefined" (fst (emit_edge h s first ch c err))
       = true).
Proof.
  intros H.
  specialize (H heap_final_succ state_one_edge true 97 cstate_init "").
  assert (successor_unregistered heap_final_succ state_one_edge 97 cstate_init) as Hu.
  { exists 1%nat, (mkState 3 ∅ ∅ [] true 0).
    split; [vm_compute; reflexivity|]. split; vm_compute; reflexivity. }
  specialize (H Hu). vm_compute in H. discriminate H.
Qed.

Example buildMachine_final_successor :
  buildMachine heap_final_succ (mkMast (Some 0%nat) [0%nat] []) ""
  = ("", Fault EndIterDeref).
Proof. vm_compute. reflexivity. Qed.

(** C8, amended: when [buildMachine] comes to the address test for an
    edge (the lookups of the successor and of the edge's output having
    succeeded) and no address is recorded for the successor, it writes
    "next addr is undefined: state(<id>), input(<byte>)" to [*err] if
    the successor is not final, and leaves [*err] alone if it is final. *)
Theorem C8_next_addr_message (h : heap) (s : State) (first : bool) (ch : Z)
    (c : cstate) (err : string) (next : loc) (nexts : State) (out : Z) :
  trans s !! ch = Some next ->
  output s !! ch = Some out ->
  h !! next = Some nexts ->
  cs_addrMap c !! id nexts = None ->
  fst (emit_edge h s first ch c err)
  = (if isFinal nexts then err else next_addr_message (id s) ch) /\
  (isFinal nexts = false ->
   contains "next addr is undefined" (fst (emit_edge h s first ch c err)) = true).
Proof.
  intros Ht Ho Hn Ha.
  assert (fst (emit_edge h s first ch c err)
          = if isFinal nexts then err else next_addr_message (id s) ch) as E.
  { unfold emit_edge, umap_at, deref. rewrite Ht, Ho, Hn, Ha.
    rewrite bool_decide_eq_true_2 by reflexivity.
    destruct (isFinal nexts); reflexivity. }
  split; [exact E|].
  intros Hf. rewrite E, Hf. apply next_addr_message_contains.
Qed.

Lemma C8_next_addr_message_witness :
  fst (emit_edge heap_nonfinal_succ state_one_edge true 97 cstate_init "")
  = next_addr_message 7 97 /\
  (false = false ->
   contains "next addr is undefined"
     (fst (emit_edge heap_nonfinal_succ state_one_edge true 97 cstate_init ""))
   = true).
Proof.
  apply (C8_next_addr_message heap_nonfinal_succ state_one_edge true 97
           cstate_init "" 1%nat (mkState 3 ∅ ∅ [] false 0) 5).
  - vm_compute. reflexivity.
  - vm_compute. reflexivity.
  - reflexivity.
  - vm_compute. reflexivity.
Defined.

Example next_addr_message_7_a :
  next_addr_message 7 97 = "next addr is undefined: state(7), input(a)".
Proof. vm_compute. reflexivity. Qed.

(** ** The output maps are sparse *)

Lemma umap_insert_Forall {V} (P : Z -> V -> Prop) (k : Z) (v : V) (m : gmap Z V) :
  map_Forall P m -> P k v -> map_Forall P (umap_insert k v m).
Proof.
  intros Hm Hv. unfold umap_insert. destruct (m !! k); [assumption|].
  by apply map_Forall_insert_2.
Qed.

Lemma setOutput_sparse (ch o : Z) (s : State) :
  State_sparse s -> State_sparse (setOutput ch o s).
Proof.
  unfold State_sparse, setOutput. intros Hs.
  destruct (o =? 0) eqn:Ho; [assumption|]. apply Z.eqb_neq in Ho.
  simpl. by apply umap_insert_Forall.
Qed.

Lemma removeOutput_sparse (ch : Z) (s : State) :
  State_sparse s -> State_sparse (removeOutput ch s).
Proof.
  unfold State_sparse, removeOutput. intros Hs. simpl.
  destruct (output s !! ch); [|assumption]. by apply map_Forall_delete.
Qed.

Lemma setTransition_sparse (ch : Z) (next : loc) (n : Z) (s : State) :
  State_sparse s -> State_sparse (setTransition ch next n s).
Proof. auto. Qed.

Lemma renew_sparse (s : State) : State_sparse (renew s).
Proof. unfold State_sparse. simpl. apply map_Forall_empty. Qed.

Lemma setOutput_all_sparse (o : Z) (chs : list Z) (s : State) :
  State_sparse s ->
  State_sparse (foldr (fun ch s => setOutput ch o s) s chs).
Proof. intros Hs. induction chs; simpl; auto using setOutput_sparse. Qed.

Lemma deref_sparse (h : heap) (p : loc) (s : State) :
  heap_sparse h -> deref h p = Ok s -> State_sparse s.
Proof.
  unfold deref. intros Hh. destruct (h !! p) eqn:E; [|discriminate].
  intros [= <-]. by eapply (Forall_lookup_1 _ _ _ _ Hh).
Qed.

Lemma mutate_sparse (p : loc) (f : State -> State) (h h' : heap) :
  (forall s, State_sparse s -> State_sparse (f s)) ->
  heap_sparse h -> mutate p f h = Ok h' -> heap_sparse h'.
Proof.
  intros Hf Hh. unfold mutate, deref. destruct (h !! p) eqn:E; [|discriminate].
  simpl. intros [= <-]. apply Forall_insert; [assumption|].
  apply Hf. by eapply (Forall_lookup_1 _ _ _ _ Hh).
Qed.

Lemma make_shared_sparse (s : State) (h : heap) :
  heap_sparse h -> State_sparse s -> heap_sparse (snd (make_shared s h)).
Proof. intros Hh Hs. simpl. apply Forall_app. split; [assumption|]. by constructor. Qed.

Lemma mbind_Ok {A B} (m : res A) (k : A -> res B) (b : B) :
  m ≫= k = Ok b -> exists a, m = Ok a /\ k a = Ok b.
Proof. apply rbind_Ok. Qed.

Ltac inv_res :=
  repeat match goal with
    | H : mbind _ _ = Ok _ |- _ =>
        let a := fresh "a" in let E := fresh "E" in
        apply mbind_Ok in H as (a & E & H)
    | H : (let '(_, _) := ?p in _) = Ok _ |- _ => destruct p
    | H : (if ?b then _ else _) = Ok _ |- _ =>
        let E := fresh "E" in destruct b eqn:E
    | H : match ?o with Some _ => _ | None => _ end = Ok _ |- _ =>
        let E := fresh "E" in destruct o eqn:E
    | H : Ok _ = Ok _ |- _ => injection H as H
    | H : Fault _ = Ok _ |- _ => discriminate H
    | H : Throw = Ok _ |- _ => discriminate H
    end.

Lemma addState_sparse (n : loc) (m m' : Mast) (h h' : heap) :
  heap_sparse h -> addState n m h = Ok (m', h') -> heap_sparse h'.
Proof.
  intros Hh H. unfold addState in H. inv_res. subst.
  eapply mutate_sparse; [|exact Hh|eassumption]. auto.
Qed.

Lemma link_sparse (buf : list loc) (word : list Z) (i : nat) (s : loc) (h h' : heap) :
  heap_sparse h -> link buf word i s h = Ok h' -> heap_sparse h'.
Proof.
  intros Hh H. unfold link in H. inv_res.
  eapply mutate_sparse; [|exact Hh|eassumption]. auto using setTransition_sparse.
Qed.

Lemma for_each_preserves {S} (P : S -> Prop) (body : nat -> S -> res S)
    (idx : list nat) (st st' : S) :
  (forall i a b, P a -> body i a = Ok b -> P b) ->
  P st -> for_each idx body st = Ok st' -> P st'.
Proof.
  intros Hbody. revert st. induction idx as [|i idx IH]; simpl; intros st Hst H.
  - by injection H as <-.
  - inv_res. eauto.
Qed.

Lemma freeze_step_sparse (buf : list loc) (prev : list Z) (i : nat)
    (st st' : bstate) :
  heap_sparse (b_heap st) -> freeze_step buf prev i st = Ok st' ->
  heap_sparse (b_heap st').
Proof.
  destruct st as [h dict m]. simpl. intros Hh H. unfold freeze_step in H.
  inv_res; subst; simpl.
  - eapply link_sparse; [|eassumption].
    eapply mutate_sparse; [| |eassumption]; [intros; apply renew_sparse|].
    congruence.
  - eapply link_sparse; [|eassumption].
    eapply mutate_sparse; [| |eassumption]; [intros; apply renew_sparse|].
    match goal with H : addState _ _ _ = Ok _ |- _ =>
      eapply addState_sparse in H end.
    + congruence.
    + apply Forall_app. split; [assumption|]. constructor; [|constructor].
      eapply deref_sparse; eassumption.
Qed.

Lemma flush_step_sparse (buf : list loc) (prev : list Z) (i : nat)
    (st st' : bstate) :
  heap_sparse (b_heap st) -> flush_step buf prev i st = Ok st' ->
  heap_sparse (b_heap st').
Proof.
  destruct st as [h dict m]. simpl. intros Hh H. unfold flush_step in H.
  inv_res; subst; simpl.
  - eapply link_sparse; [|eassumption]. congruence.
  - eapply link_sparse; [|eassumption].
    match goal with H : addState _ _ _ = Ok _ |- _ =>
      eapply addState_sparse in H end.
    + congruence.
    + eapply mutate_sparse; [| |eassumption]; [intros; apply renew_sparse|].
      apply Forall_app. split; [assumption|]. constructor; [|constructor].
      eapply deref_sparse; eassumption.
Qed.

Lemma extend_step_sparse (buf : list loc) (in_ : list Z) (i : nat) (h h' : heap) :
  heap_sparse h -> extend_step buf in_ i h = Ok h' -> heap_sparse h'.
Proof.
  intros Hh H. unfold extend_step in H. inv_res. eauto using link_sparse.
Qed.

Lemma redistribute_sparse (buf : list loc) (in_ : list Z) (js : list nat)
    (o o' : Z) (h h' : heap) :
  heap_sparse h -> redistribute buf in_ js o h = Ok (o', h') -> heap_sparse h'.
Proof.
  revert h. induction js as [|j js IH]; simpl; intros h Hh H.
  - injection H as _ <-. assumption.
  - inv_res; subst; try assumption.
    + eapply IH; [|eassumption].
      eapply mutate_sparse; [| |eassumption]; [auto|].
      eapply mutate_sparse; [| |eassumption];
        [intros; by apply setOutput_all_sparse|].
      eapply mutate_sparse; [| |eassumption]; [apply removeOutput_sparse|].
      assumption.
    + eapply IH; [|eassumption].
      eapply mutate_sparse; [| |eassumption];
        [intros; by apply setOutput_all_sparse|].
      eapply mutate_sparse; [| |eassumption]; [apply removeOutput_sparse|].
      assumption.
Qed.

Lemma add_pair_sparse (buf : list loc) (prev : list Z) (pr : Pair)
    (st st' : bstate) :
  heap_sparse (b_heap st) -> add_pair buf prev pr st = Ok st' ->
  heap_sparse (b_heap st').
Proof.
  intros Hh H. unfold add_pair in H.
  apply mbind_Ok in H as (prefixLen & _ & H).
  apply mbind_Ok in H as (st1 & Hfreeze & H).
  eapply (for_each_preserves (fun st => heap_sparse (b_heap st))) in Hfreeze;
    [|intros; eapply freeze_step_sparse; eassumption|assumption].
  destruct st1 as [h1 dict1 m1]. simpl in Hfreeze.
  apply mbind_Ok in H as (h2 & Hext & H).
  eapply (for_each_preserves heap_sparse) in Hext;
    [|intros; eapply extend_step_sparse; eassumption|assumption].
  apply mbind_Ok in H as (bl & _ & H).
  apply mbind_Ok in H as (h3 & Hfin & H).
  assert (heap_sparse h3) as Hh3.
  { destruct (negb (bool_decide (Pair_in pr = prev))).
    - eapply mutate_sparse; [| |eassumption]; auto.
    - by injection Hfin as <-. }
  apply mbind_Ok in H as ([o h4] & Hred & H).
  apply redistribute_sparse in Hred; [|assumption].
  apply mbind_Ok in H as (h5 & Hplace & H).
  injection H as <-. simpl.
  inv_res; subst; try assumption.
  - eapply mutate_sparse; [| |eassumption]; auto using setOutput_sparse.
  - eapply mutate_sparse; [| |eassumption]; auto.
Qed.

Lemma add_pairs_sparse (buf : list loc) (prev prev' : list Z) (input : list Pair)
    (st st' : bstate) :
  heap_sparse (b_heap st) -> add_pairs buf prev input st = Ok (prev', st') ->
  heap_sparse (b_heap st').
Proof.
  revert prev st. induction input as [|pr input IH]; simpl; intros prev st Hh H.
  - by injection H as _ <-.
  - apply mbind_Ok in H as (st1 & Hadd & H).
    eapply IH; [|eassumption]. eapply add_pair_sparse; eassumption.
Qed.

Lemma bstate_for_sparse (n : nat) : heap_sparse (b_heap (bstate_for n)).
Proof.
  unfold bstate_for. cbn [b_heap]. apply Forall_replicate.
  unfold State_sparse. simpl. apply map_Forall_empty.
Qed.

Lemma buildMAST_sparse (input : list Pair) (m : Mast) (h : heap) :
  snd (buildMAST input) = Ok (m, h) -> heap_sparse h.
Proof.
  unfold buildMAST. simpl. intros H.
  apply mbind_Ok in H as ([prev st] & Hadd & H).
  apply add_pairs_sparse in Hadd; [|apply bstate_for_sparse].
  apply mbind_Ok in H as (st1 & Hflush & H).
  assert (heap_sparse (b_heap st1)) as Hst1.
  { eapply (for_each_preserves (fun st => heap_sparse (b_heap st)));
      [|exact Hadd|exact Hflush].
    intros. eapply flush_step_sparse; eassumption. }
  destruct st1 as [h1 dict1 m1]. simpl in Hst1.
  eapply addState_sparse; eassumption.
Qed.

(** C7 as stated fails: in the MAST of the single pair (a, 0) the initial
    state has the transition [a] and an empty output map, [setOutput]
    having returned at once for the zero output. *)
Lemma C7_zero_output_not_stored :
  exists m h s,
    snd (buildMAST [mkPair [97] 0]) = Ok (m, h) /\
    initialState m = Some 0%nat /\ In 0%nat (states m) /\
    h !! 0%nat = Some s /\
    trans s !! 97 = Some 2%nat /\ output s = ∅ /\
    ~ outputs_defined s.
Proof.
  eexists. eexists. eexists.
  split; [vm_compute; reflexivity|].
  split; [reflexivity|].
  split; [right; left; reflexivity|].
  split; [reflexivity|].
  split; [vm_compute; reflexivity|].
  split; [vm_compute; reflexivity|].
  intros H. destruct (H 97) as [o Ho].
  - exists 2%nat. vm_compute. reflexivity.
  - vm_compute in Ho. discriminate Ho.
Qed.

(** C7, amended: the output maps are sparse. In every state of the store
    after any number of entries has been processed, and in every state of
    the MAST [buildMAST] returns, each byte that is a key of the output
    map carries a non-zero output; a transition whose output is zero (or
    was never set, or was moved on) has no entry. *)
Theorem C7_output_maps_sparse (input : list Pair) :
  (forall (k : nat) prev st,
     add_pairs (buf_for (maxInputWordLen (std_sort input))) []
       (take k (std_sort input)) (bstate_for (maxInputWordLen (std_sort input)))
     = Ok (prev, st) ->
     heap_sparse (b_heap st)) /\
  (forall m h,
     snd (buildMAST input) = Ok (m, h) ->
     heap_sparse h /\
     forall p s, In p (states m) -> h !! p = Some s ->
       forall ch o, output s !! ch = Some o -> o <> 0).
Proof.
  split.
  - intros k prev st H. eapply add_pairs_sparse; [|exact H].
    apply bstate_for_sparse.
  - intros m h H. pose proof (buildMAST_sparse _ _ _ H) as Hh.
    split; [exact Hh|]. intros p s _ Hs ch o Ho.
    eapply (Forall_lookup_1 _ _ _ _ Hh) in Hs. exact (Hs ch o Ho).
Qed.

Lemma C7_output_maps_sparse_witness :
  heap_sparse heap_a1 /\
  forall p s, In p (states mast_a1) -> heap_a1 !! p = Some s ->
    forall ch o, output s !! ch = Some o -> o <> 0.
Proof.
  apply (proj2 (C7_output_maps_sparse [mkPair [97] 1]) mast_a1 heap_a1).
  vm_compute. reflexivity.
Defined.

(** ** More on the stream helpers *)

Lemma lor_shifted_byte (x b : Z) :
  0 <= x -> 0 <= b < 256 -> Z.lor (x * 256) b = x * 256 + b.
Proof.
  intros Hx Hb. rewrite <- (Z.add_lor_land (x * 256) b).
  assert (Z.land (x * 256) b = 0) as ->; [|lia].
  change 256 with (2 ^ 8) in *. rewrite <- Z.shiftl_mul_pow2 by lia.
  rewrite <- (Z.mod_small b (2 ^ 8)) by lia. rewrite <- Z.land_ones by lia.
  Z.bitblast. rewrite Z.testbit_neg_r by lia. reflexivity.
Qed.

(** One pass of the loop on a byte in range, while the value has room. *)
Lemma ReadUint_step_value (sizeofT w : nat) (b value : Z) :
  is_byte b -> 0 <= value ->
  (value + 1) * 256 ^ Z.of_nat (S w) <= 2 ^ (8 * Z.of_nat sizeofT) ->
  Z.lor ((value * 256) mod 2 ^ (8 * Z.of_nat sizeofT)) (to_uint8 b)
  = value * 256 + b /\
  0 <= value * 256 + b /\
  (value * 256 + b + 1) * 256 ^ Z.of_nat w <= 2 ^ (8 * Z.of_nat sizeofT).
Proof.
  unfold is_byte. intros Hb Hv Hlt.
  rewrite Nat2Z.inj_succ, Z.pow_succ_r in Hlt by lia.
  assert (0 < 256 ^ Z.of_nat w) as Hpos by (apply Z.pow_pos_nonneg; lia).
  unfold to_uint8. rewrite (Z.mod_small b) by lia.
  rewrite (Z.mod_small (value * 256)) by nia.
  rewrite lor_shifted_byte by lia. split; [reflexivity|]. split; [lia|nia].
Qed.

Lemma ReadUint_loop_big_endian (sizeofT w : nat) (bs r : list Z) (buf : option Z)
    (value : Z) :
  length bs = w ->
  Forall is_byte bs ->
  0 <= value ->
  (value + 1) * 256 ^ Z.of_nat w <= 2 ^ (8 * Z.of_nat sizeofT) ->
  ReadUint_loop sizeofT w (bs ++ r) buf value
  = Ok (foldl (fun acc b => acc * 256 + b) value bs, r).
Proof.
  revert bs buf value. induction w as [|w IH]; intros bs buf value Hlen Hbs Hv Hlt.
  - destruct bs; [reflexivity|discriminate].
  - destruct bs as [|b bs]; [discriminate|]. injection Hlen as Hlen.
    apply Forall_cons in Hbs as [Hb Hbs].
    destruct (ReadUint_step_value sizeofT w b value Hb Hv Hlt) as (E & H0 & H1).
    cbn [app ReadUint_loop istream_read foldl]. rewrite E.
    by apply IH.
Qed.

(** X2: [ReadUint] takes exactly [sizeof(T)] bytes from the stream and puts
    them together with the first byte as the high-order one. *)
Theorem ReadUint_big_endian (sizeofT : nat) (bs r : list Z) :
  length bs = sizeofT ->
  Forall is_byte bs ->
  ReadUint sizeofT (bs ++ r) = Ok (be_value bs, r).
Proof.
  intros Hlen Hbs. unfold ReadUint, be_value.
  apply ReadUint_loop_big_endian; [assumption|assumption|lia|].
  rewrite Z.add_0_l, Z.mul_1_l, Z.pow_mul_r by lia. reflexivity.
Qed.

Lemma ReadUint_big_endian_witness :
  ReadUint 4 ([1; 2; 3; 4] ++ [9]) = Ok (be_value [1; 2; 3; 4], [9]).
Proof.
  apply (ReadUint_big_endian 4 [1; 2; 3; 4] [9]).
  - reflexivity.
  - unfold is_byte. repeat constructor; lia.
Defined.

(** The loop on a stream that ends early: [b] is the byte the buffer holds
    when the stream runs out. *)
Lemma ReadUint_loop_short (sizeofT w : nat) (bs : list Z) (buf : option Z)
    (b value : Z) :
  last bs = Some b \/ (bs = [] /\ buf = Some b) ->
  is_byte b -> Forall is_byte bs -> (length bs <= w)%nat ->
  0 <= value ->
  (value + 1) * 256 ^ Z.of_nat w <= 2 ^ (8 * Z.of_nat sizeofT) ->
  ReadUint_loop sizeofT w bs buf value
  = Ok (foldl (fun acc b => acc * 256 + b) value
          (bs ++ replicate (w - length bs) b), []).
Proof.
  revert bs buf value.
  induction w as [|w IH]; intros bs buf value Hb Hisb Hbs Hlen Hv Hlt.
  - destruct bs; [reflexivity|simpl in Hlen; lia].
  - destruct bs as [|x bs].
    + destruct Hb as [[=]|[_ ->]].
      destruct (ReadUint_step_value sizeofT w b value Hisb Hv Hlt) as (E & H0 & H1).
      cbn [ReadUint_loop istream_read length Nat.sub replicate app foldl].
      rewrite E.
      rewrite (IH [] (Some b)); [|by right|done|done|simpl; lia|done|done].
      cbn [length app]. by rewrite Nat.sub_0_r.
    + apply Forall_cons in Hbs as [Hx Hbs]. simpl in Hlen.
      destruct (ReadUint_step_value sizeofT w x value Hx Hv Hlt) as (E & H0 & H1).
      cbn [ReadUint_loop istream_read length Nat.sub app foldl]. rewrite E.
      apply IH; [|done|done|lia|done|done].
      destruct bs as [|y bs].
      * right. split; [reflexivity|]. destruct Hb as [[= ->]|[[=] _]]. reflexivity.
      * left. destruct Hb as [Hb|[[=] _]]. exact Hb.
Qed.

(** X3: on a stream that ends before [sizeof(T)] bytes were read,
    [ReadUint] does not stop: a read that fails stores nothing, so every
    missing byte is taken to be the last byte that was read, and the
    value returned is that of the bytes read followed by copies of the
    last one. Nothing is left on the stream. *)
Theorem ReadUint_short_stream (sizeofT : nat) (bs : list Z) (b : Z) :
  last bs = Some b ->
  (length bs <= sizeofT)%nat ->
  Forall is_byte bs ->
  ReadUint sizeofT bs
  = Ok (be_value (bs ++ replicate (sizeofT - length bs) b), []).
Proof.
  intros Hb Hlen Hbs. unfold ReadUint, be_value.
  apply ReadUint_loop_short; [by left| |done|done|lia|].
  - apply last_Some in Hb as [bs' ->]. apply Forall_app in Hbs as [_ Hbs].
    by apply Forall_cons in Hbs as [? _].
  - rewrite Z.add_0_l, Z.mul_1_l, Z.pow_mul_r by lia. reflexivity.
Qed.

Lemma ReadUint_short_stream_witness :
  ReadUint 4 [1; 2; 3]
  = Ok (be_value ([1; 2; 3] ++ replicate (4 - length [1; 2; 3]) 3), []) /\
  be_value ([1; 2; 3] ++ replicate (4 - length [1; 2; 3]) 3) = 16909059.
Proof.
  split; [|reflexivity].
  apply (ReadUint_short_stream 4 [1; 2; 3] 3).
  - reflexivity.
  - simpl. lia.
  - unfold is_byte. repeat constructor; lia.
Defined.

Lemma le_bytes_is_byte (w : nat) (value : Z) : Forall is_byte (le_bytes w value).
Proof.
  revert value. induction w as [|w IH]; intros value; simpl; constructor; [|apply IH].
  unfold is_byte, to_uint8. apply Z.mod_pos_bound. lia.
Qed.

(** X5: What [ReadUint] makes of the bytes [WriteUint] wrote for the same
    type: the value whose bytes are those of the original in reverse
    order. *)
Theorem ReadUint_WriteUint_reversed (sizeofT : nat) (value : Z) (r : list Z) :
  ReadUint sizeofT (WriteUint sizeofT [] value ++ r)
  = Ok (be_value (le_bytes sizeofT value), r).
Proof.
  rewrite WriteUint_app. simpl. unfold ReadUint, be_value.
  apply ReadUint_loop_big_endian;
    [apply le_bytes_length|apply le_bytes_is_byte|lia|].
  rewrite Z.add_0_l, Z.mul_1_l, Z.pow_mul_r by lia. reflexivity.
Qed.

(** ** The signature and the equality of states *)

Lemma to_int64_small (z : Z) : - 2 ^ 63 <= z < 2 ^ 63 -> to_int64 z = z.
Proof. intros H. unfold to_int64. rewrite Z.mod_small; lia. Qed.

Lemma to_int64_add_l (a b : Z) : to_int64 (to_int64 a + b) = to_int64 (a + b).
Proof.
  unfold to_int64.
  replace (((a + 2 ^ 63) mod 2 ^ 64 - 2 ^ 63 + b + 2 ^ 63))
    with ((a + 2 ^ 63) mod 2 ^ 64 + b) by lia.
  rewrite Zplus_mod_idemp_l. f_equal. f_equal. lia.
Qed.

Lemma State_eta (s : State) :
  mkState (id s) (trans s) (output s) (tail s) (isFinal s) (hcode s) = s.
Proof. by destruct s. Qed.

(** X9: [removeOutput] undoes [setOutput]: for an edge that had no output,
    setting one and removing it again gives back the state, signature
    included. *)
Theorem removeOutput_setOutput (ch o : Z) (s : State) :
  output s !! ch = None ->
  hcode_in_range s ->
  removeOutput ch (setOutput ch o s) = s.
Proof.
  intros Hnone Hh. unfold setOutput. destruct (o =? 0) eqn:Ho.
  - unfold removeOutput. rewrite Hnone. apply State_eta.
  - unfold removeOutput, umap_insert. cbn [output hcode id trans tail isFinal].
    rewrite Hnone, lookup_insert_eq, Ho, delete_insert_id by assumption.
    rewrite <- (State_eta s) at 7. f_equal.
    replace (to_int64 (hcode s + (ch + o) * 8191) - (ch + o) * 8191)
      with (to_int64 (hcode s + (ch + o) * 8191) + - ((ch + o) * 8191)) by lia.
    rewrite to_int64_add_l.
    replace (hcode s + (ch + o) * 8191 + - ((ch + o) * 8191)) with (hcode s) by lia.
    by apply to_int64_small.
Qed.

Lemma removeOutput_setOutput_witness :
  removeOutput 97 (setOutput 97 5 State_zero) = State_zero.
Proof.
  apply (removeOutput_setOutput 97 5 State_zero).
  - reflexivity.
  - unfold hcode_in_range. simpl. lia.
Defined.

Lemma umap_insert_comm {V} (k1 k2 : Z) (v1 v2 : V) (m : gmap Z V) :
  k1 <> k2 ->
  umap_insert k1 v1 (umap_insert k2 v2 m) = umap_insert k2 v2 (umap_insert k1 v1 m).
Proof.
  intros Hne. unfold umap_insert.
  destruct (m !! k1) eqn:E1, (m !! k2) eqn:E2;
    rewrite ?lookup_insert_ne, ?E1, ?E2 by congruence; try reflexivity.
  by apply insert_insert_ne.
Qed.

(** X10: The signature does not depend on the order of the updates: outputs
    of different edges can be set in either order, and an output and a
    transition can be set in either order, with the same state as the
    result. *)
Theorem setOutput_order (ch1 o1 ch2 o2 ch3 : Z) (next : loc) (n : Z) (s : State) :
  ch1 <> ch2 ->
  setOutput ch1 o1 (setOutput ch2 o2 s) = setOutput ch2 o2 (setOutput ch1 o1 s) /\
  setOutput ch1 o1 (setTransition ch3 next n s)
  = setTransition ch3 next n (setOutput ch1 o1 s).
Proof.
  intros Hne. split.
  - unfold setOutput. destruct (o1 =? 0), (o2 =? 0);
      cbn [output hcode id trans tail isFinal]; try reflexivity.
    f_equal; [by apply umap_insert_comm|].
    rewrite !to_int64_add_l. f_equal. lia.
  - unfold setOutput, setTransition. destruct (o1 =? 0);
      cbn [output hcode id trans tail isFinal]; try reflexivity.
    f_equal. rewrite !to_int64_add_l. f_equal. lia.
Qed.

Lemma setOutput_order_witness :
  setOutput 97 1 (setOutput 98 2 State_zero)
  = setOutput 98 2 (setOutput 97 1 State_zero) /\
  setOutput 97 1 (setTransition 99 3%nat 0 State_zero)
  = setTransition 99 3%nat 0 (setOutput 97 1 State_zero).
Proof. apply (setOutput_order 97 1 98 2 99 3%nat 0 State_zero). lia. Defined.

(** X11: A transition cannot be redirected: when [setTransition] is called a
    second time for the same byte the first successor stays in place,
    while the signature has received the contributions of both calls. *)
Theorem setTransition_twice (ch : Z) (n1 n2 : loc) (i1 i2 : Z) (s : State) :
  trans s !! ch = None ->
  let s' := setTransition ch n2 i2 (setTransition ch n1 i1 s) in
  trans s' = <[ch := n1]> (trans s) /\
  trans s' !! ch = Some n1 /\
  hcode s' = to_int64 (hcode s + (ch + i1) * 1001 + (ch + i2) * 1001).
Proof.
  intros Hnone. unfold setTransition, umap_insert.
  cbn [output hcode id trans tail isFinal]. rewrite Hnone, lookup_insert_eq.
  split; [reflexivity|]. split; [apply lookup_insert_eq|].
  by rewrite to_int64_add_l.
Qed.

Lemma setTransition_twice_witness :
  let s' := setTransition 97 5%nat 0 (setTransition 97 4%nat 0 State_zero) in
  trans s' = <[97 := 4%nat]> (trans State_zero) /\
  trans s' !! 97 = Some 4%nat /\
  hcode s' = to_int64 (hcode State_zero + (97 + 0) * 1001 + (97 + 0) * 1001).
Proof. apply (setTransition_twice 97 4%nat 5%nat 0 0 State_zero). reflexivity. Defined.

(** X12: [State::operator==] on two different addresses holds exactly when
    signature, transitions (same bytes to the same addresses), outputs,
    tails and finality agree; the ids play no part, and a state equals
    itself. *)
Theorem State_eqb_spec (p q : loc) (a b : State) :
  State_eqb p p a b = true /\
  (p <> q ->
   (State_eqb p q a b = true <->
    hcode a = hcode b /\ trans a = trans b /\ output a = output b /\
    tail a = tail b /\ isFinal a = isFinal b)).
Proof.
  split.
  - unfold State_eqb. by rewrite bool_decide_eq_true_2.
  - intros Hne. unfold State_eqb. rewrite bool_decide_eq_false_2 by assumption.
    split.
    + destruct (hcode a =? hcode b) eqn:Hh; simpl; [|discriminate].
      apply Z.eqb_eq in Hh.
      destruct (_ || negb (eqb (isFinal a) (isFinal b))) eqn:Hs; [discriminate|].
      apply orb_false_iff in Hs as [_ Hf]. apply negb_false_iff, eqb_prop in Hf.
      destruct (bool_decide (trans a = trans b)) eqn:Ht; simpl; [|discriminate].
      destruct (bool_decide (output a = output b)) eqn:Ho; simpl; [|discriminate].
      destruct (bool_decide (tail a = tail b)) eqn:Hl; simpl; [|discriminate].
      apply bool_decide_eq_true_1 in Ht, Ho, Hl. intros _.
      repeat split; assumption.
    + intros (Hh & Ht & Ho & Hl & Hf). rewrite Hh, Ht, Ho, Hl, Hf.
      rewrite Z.eqb_refl, !Nat.eqb_refl, eqb_reflx, !bool_decide_eq_true_2 by reflexivity.
      reflexivity.
Qed.

Lemma State_eqb_spec_witness :
  State_eqb 1%nat 1%nat State_zero (set_id 7 State_zero) = true /\
  (1%nat <> 2%nat ->
   (State_eqb 1%nat 2%nat State_zero (set_id 7 State_zero) = true <->
    hcode State_zero = hcode (set_id 7 State_zero) /\
    trans State_zero = trans (set_id 7 State_zero) /\
    output State_zero = output (set_id 7 State_zero) /\
    tail State_zero = tail (set_id 7 State_zero) /\
    isFinal State_zero = isFinal (set_id 7 State_zero))).
Proof. exact (State_eqb_spec 1%nat 2%nat State_zero (set_id 7 State_zero)). Defined.

(** ** Keys: order and common prefixes *)

Lemma commonPrefixLen_from_spec (k : Z) (a b : list Z) :
  (length a <= length b)%nat \/ Forall (fun x => x <> 0) a ->
  exists n : nat,
    commonPrefixLen_from k a b = Ok (k + Z.of_nat n) /\
    (n <= length a)%nat /\ (n <= length b)%nat /\
    take n a = take n b /\
    (forall x y, a !! n = Some x -> b !! n = Some y -> x <> y).
Proof.
  revert k b. induction a as [|x a IH]; intros k b H.
  - exists 0%nat. simpl. rewrite Z.add_0_r.
    split; [reflexivity|]. split; [lia|]. split; [lia|].
    split; [by destruct b|]. intros ? ? [=].
  - destruct b as [|y b].
    + exists 0%nat. simpl.
      destruct H as [H|H]; [simpl in H; lia|].
      apply Forall_cons in H as [Hx _].
      destruct (x =? 0) eqn:E; [apply Z.eqb_eq in E; contradiction|].
      rewrite Z.add_0_r.
      split; [reflexivity|]. split; [lia|]. split; [lia|].
      split; [reflexivity|]. intros ? ? _ [=].
    + simpl. destruct (x =? y) eqn:E.
      * apply Z.eqb_eq in E as ->.
        destruct (IH (k + 1) b) as (n & Hn & Ha & Hb & Ht & Hd).
        { destruct H as [H|H]; [left; simpl in H; lia|right].
          by apply Forall_cons in H as [_ H]. }
        exists (S n). rewrite Hn.
        split; [f_equal; lia|]. split; [lia|]. split; [lia|].
        split; [simpl; by rewrite Ht|]. exact Hd.
      * apply Z.eqb_neq in E. exists 0%nat. rewrite Z.add_0_r.
        split; [reflexivity|]. split; [lia|]. split; [lia|].
        split; [reflexivity|]. simpl. intros ? ? [= <-] [= <-]. exact E.
Qed.

(** X6: [commonPrefixLen(a, b)], when [a] is not longer than [b] or has no
    zero byte: the result is the length of the longest common prefix: it
    is at most both lengths, the two strings agree before it, and they
    differ at it when both go on. *)
Theorem commonPrefixLen_spec (a b : list Z) :
  (length a <= length b)%nat \/ Forall (fun x => x <> 0) a ->
  exists n : nat,
    commonPrefixLen a b = Ok (Z.of_nat n) /\
    (n <= length a)%nat /\ (n <= length b)%nat /\
    take n a = take n b /\
    (forall x y, a !! n = Some x -> b !! n = Some y -> x <> y).
Proof. intros H. exact (commonPrefixLen_from_spec 0 a b H). Qed.

Lemma commonPrefixLen_spec_witness :
  exists n : nat,
    commonPrefixLen [97; 98; 99] [97; 98; 100; 101] = Ok (Z.of_nat n) /\
    (n <= length [97; 98; 99])%nat /\ (n <= length [97; 98; 100; 101])%nat /\
    take n [97; 98; 99] = take n [97; 98; 100; 101] /\
    (forall x y, [97; 98; 99] !! n = Some x ->
                 [97; 98; 100; 101] !! n = Some y -> x <> y).
Proof.
  apply (commonPrefixLen_spec [97; 98; 99] [97; 98; 100; 101]).
  left. simpl. lia.
Defined.

Lemma commonPrefixLen_from_app (k : Z) (b a' : list Z) :
  commonPrefixLen_from k (b ++ a') b
  = commonPrefixLen_from (k + Z.of_nat (length b)) a' [].
Proof.
  revert k. induction b as [|y b IH]; intros k; simpl.
  - by rewrite Z.add_0_r.
  - rewrite Z.eqb_refl, IH. f_equal. lia.
Qed.

(** X7: Zero bytes behind a common prefix: when [a] is [b] followed by one
    zero byte, the zero is compared with the terminator of [b] and the
    length reported is that of [a], one more than [b] has; when more
    bytes follow the zero, the comparison leaves the string [b]. *)
Theorem commonPrefixLen_zero_byte (b : list Z) (x : Z) (rest : list Z) :
  commonPrefixLen (b ++ [0]) b = Ok (vec_size b + 1) /\
  commonPrefixLen (b ++ 0 :: x :: rest) b = Fault OobRead.
Proof.
  unfold commonPrefixLen, vec_size. rewrite !commonPrefixLen_from_app. simpl.
  split; reflexivity.
Qed.

Lemma string_lt_antisym (a b : list Z) :
  string_lt a b = false -> string_lt b a = false -> a = b.
Proof.
  revert b. induction a as [|x a IH]; intros [|y b]; simpl; try congruence.
  destruct (x <? y) eqn:Hxy; [congruence|].
  destruct (y <? x) eqn:Hyx; [congruence|].
  apply Z.ltb_ge in Hxy, Hyx. intros H1 H2.
  assert (x = y) as -> by lia. f_equal. by apply IH.
Qed.

Lemma string_lt_trans (a b c : list Z) :
  string_lt a b = true -> string_lt b c = true -> string_lt a c = true.
Proof.
  intros Hab Hbc. destruct (string_lt a c) eqn:Hac; [reflexivity|].
  apply string_lt_asym in Hbc.
  pose proof (string_le_trans b c a Hbc Hac) as H. congruence.
Qed.

Lemma string_lt_prefix (a : list Z) (x : Z) (r : list Z) :
  string_lt a (a ++ x :: r) = true.
Proof.
  induction a as [|y a IH]; simpl; [reflexivity|].
  by rewrite Z.ltb_irrefl.
Qed.

(** X8: [Pair::operator<] looks at the keys only, and on the keys it is a
    strict total order in which a proper prefix comes first: no pair is
    below itself, the order is transitive, two pairs neither of which is
    below the other have the same key, and a pair is below every pair
    whose key properly extends its own. *)
Theorem Pair_lt_strict_weak (p q r : Pair) (x : Z) (rest : list Z) (o : Z) :
  Pair_lt p p = false /\
  (Pair_lt p q = true -> Pair_lt q r = true -> Pair_lt p r = true) /\
  (Pair_lt p q = false -> Pair_lt q p = false -> Pair_in p = Pair_in q) /\
  Pair_lt p (mkPair (Pair_in p ++ x :: rest) o) = true.
Proof.
  unfold Pair_lt. cbn [Pair_in].
  split; [apply string_lt_irrefl|]. split; [apply string_lt_trans|].
  split; [apply string_lt_antisym|apply string_lt_prefix].
Qed.

(** ** The names of the opcodes *)

(** X13: The names [getOperationString] gives: "NA" exactly for the bytes
    that are none of the six opcodes, and six different names for the
    six opcodes. *)
Theorem getOperationString_names (b1 b2 : Z) :
  0 <= b1 < 256 -> 0 <= b2 < 256 ->
  (getOperationString b1 = "NA" <-> Operation_of b1 = None) /\
  (getOperationString b1 = getOperationString b2 ->
   Operation_of b1 = Operation_of b2).
Proof.
  intros H1 H2.
  assert (forall b, 0 <= b < 256 ->
            b = 0 \/ b = 1 \/ b = 2 \/ b = 3 \/ b = 4 \/ b = 5 \/ b = 6 \/
            (7 <= b /\ getOperationString b = "NA" /\ Operation_of b = None)) as Hcases.
  { intros b Hb. destruct (Z_lt_le_dec b 7) as [Hlt|Hge]; [lia|].
    do 7 right. split; [assumption|]. split.
    - unfold getOperationString, to_uint8. rewrite Z.mod_small by lia.
      destruct (Z.ltb_spec b (vec_size opStr)) as [Hl|]; [|reflexivity].
      unfold vec_size in Hl. simpl in Hl. lia.
    - unfold Operation_of.
      repeat match goal with
        | |- context [?x =? ?y] => destruct (Z.eqb_spec x y); [lia|]
        end.
      reflexivity. }
  destruct (Hcases b1 H1) as [->|[->|[->|[->|[->|[->|[->|(? & E1 & O1)]]]]]]];
    destruct (Hcases b2 H2) as [->|[->|[->|[->|[->|[->|[->|(? & E2 & O2)]]]]]]];
    rewrite ?E1, ?E2, ?O1, ?O2;
    (split; [split; (discriminate || reflexivity)|]);
    try reflexivity; try discriminate.
Qed.

Lemma getOperationString_names_witness :
  (getOperationString 3 = "NA" <-> Operation_of 3 = None) /\
  (getOperationString 3 = getOperationString 200 ->
   Operation_of 3 = Operation_of 200).
Proof. apply (getOperationString_names 3 200); lia. Defined.

(** ** What the virtual machine reports *)

Lemma run_unfold (u : uninit) (t : FST) (input : list Z) :
  run u t input
  = if run_cond t input (run_init u)
    then match run_body t input (run_init u) with
         | Ok (Continue r') =>
             match run_loop (S (length input) * S (length (prog t))) t input r' with
             | Some r => r
             | None => Ok ([], false)
             end
         | Ok (Goto_L_END r') => Ok (run_end input r')
         | Ok (Return s) => Ok (s, false)
         | Throw => Throw
         | Fault f => Fault f
         end
    else Ok (run_end input (run_init u)).
Proof.
  unfold run, run_fuel. cbn [run_loop].
  destruct (run_cond t input (run_init u)); [|reflexivity].
  destruct (run_body t input (run_init u)) as [[r'|r'|s]| |f]; reflexivity.
Qed.

Lemma run_end_snap (input : list Z) (r : regs) : fst (run_end input r) = snap r.
Proof. unfold run_end. repeat case_match; reflexivity. Qed.

Lemma run_empty_program (u : uninit) (t : FST) (input : list Z) :
  prog t = [] -> exists acc, run u t input = Ok ([], acc).
Proof.
  intros Hp. rewrite run_unfold. unfold run_cond. rewrite Hp.
  cbn [pc run_init vec_size length Z.of_nat].
  change (0 <? 0) with false. rewrite andb_false_r. cbn [andb].
  pose proof (run_end_snap input (run_init u)) as Hs.
  destruct (run_end input (run_init u)) as [s acc]. simpl in Hs. subst s.
  by exists acc.
Qed.

Lemma empty_prog_answers (u : uninit) (t : FST) (input : list Z) :
  prog t = [] ->
  Search u t input = Ok [] /\
  PrefixSearch u t input = Ok ([], -1) /\
  CommonPrefixSearch u t input = Ok ([], []).
Proof.
  intros Hp. destruct (run_empty_program u t input Hp) as [acc Hrun].
  unfold Search, PrefixSearch, CommonPrefixSearch. rewrite Hrun.
  unfold mbind, res_bind. cbn [rbind last map vec_size length Z.of_nat].
  rewrite orb_true_r. repeat split; reflexivity.
Qed.

(** X14: The machine with the empty program (the one [BuildFST] returns for
    no pairs) has no answer to any query: [Search] and
    [CommonPrefixSearch] return nothing and [PrefixSearch] reports the
    length -1, for every input and whatever the data array holds. *)
Theorem empty_program_answers (u : uninit) (data : list Z) (input : list Z) :
  Search u (mkFST [] data) input = Ok [] /\
  PrefixSearch u (mkFST [] data) input = Ok ([], -1) /\
  CommonPrefixSearch u (mkFST [] data) input = Ok ([], []).
Proof. by apply empty_prog_answers. Qed.

Lemma run_body_default (t : FST) (input : list Z) (r : regs) (c : Z) :
  vec_at (prog t) (pc r) = Ok c ->
  Operation_of (ops_op c) = None ->
  run_body t input r = Ok (Return (snap r)).
Proof.
  intros Hc Hop. unfold run_body. rewrite Hc.
  unfold mbind, res_bind. cbn [rbind]. cbv zeta. rewrite Hop. reflexivity.
Qed.

(** X15: A program whose first cell carries none of the six opcodes has no
    answer to any query either: the run returns at once. *)
Theorem bad_first_opcode_answers (u : uninit) (c : Z) (rest data input : list Z) :
  Operation_of (ops_op c) = None ->
  Search u (mkFST (c :: rest) data) input = Ok [] /\
  PrefixSearch u (mkFST (c :: rest) data) input = Ok ([], -1) /\
  CommonPrefixSearch u (mkFST (c :: rest) data) input = Ok ([], []).
Proof.
  intros Hop. unfold Search, PrefixSearch, CommonPrefixSearch. rewrite run_unfold.
  assert (run_cond (mkFST (c :: rest) data) input (run_init u) = true) as ->.
  { unfold run_cond, vec_size. cbn [prog pc hd run_init length].
    apply andb_true_iff. split; [apply andb_true_iff; split|].
    - reflexivity.
    - apply Z.ltb_lt. lia.
    - apply Z.leb_le. lia. }
  rewrite (run_body_default _ _ _ c) by (assumption || reflexivity).
  unfold mbind, res_bind. cbn [rbind snap run_init last map vec_size length Z.of_nat orb negb].
  repeat split; reflexivity.
Qed.

Lemma bad_first_opcode_answers_witness :
  Search (mkUninit 0 0) (mkFST [0; 1] []) [97] = Ok [] /\
  PrefixSearch (mkUninit 0 0) (mkFST [0; 1] []) [97] = Ok ([], -1) /\
  CommonPrefixSearch (mkUninit 0 0) (mkFST [0; 1] []) [97] = Ok ([], []).
Proof.
  apply (bad_first_opcode_answers (mkUninit 0 0) 0 [1] [] [97]). reflexivity.
Defined.

(** ** The snapshots of a run *)

Lemma Operation_of_value (b : Z) (o : Operation) :
  Operation_of b = Some o -> b = Operation_value o.
Proof.
  unfold Operation_of.
  repeat match goal with
    | |- context [?x =? ?y] => destruct (Z.eqb_spec x y); [intros [= <-]; assumption|]
    end.
  discriminate.
Qed.

Lemma run_body_shape (t : FST) (input : list Z) (r : regs) (k : ctl) :
  run_body t input r = Ok k ->
  match k with
  | Continue r' | Goto_L_END r' => step_shape r r'
  | Return s => s = snap r
  end.
Proof.
  intros Hb. unfold run_body in Hb.
  unfold mbind, res_bind in Hb. apply rbind_Ok in Hb as (code & Hcode & Hb).
  cbv zeta in Hb.
  destruct (Operation_of (ops_op code)) as [o|] eqn:Hop.
  - apply Operation_of_value in Hop.
    destruct o; cbn [pc hd out op snap] in Hb; cbn [Operation_value] in *.
    all: res_inv; subst; unfold step_shape; cbn [pc hd out op snap].
    all: try (right; eexists; split; reflexivity).
    all: try (left; rewrite Hop; repeat split; (reflexivity || lia)).
    all: try reflexivity.
  - injection Hb as <-. reflexivity.
Qed.

Lemma StronglySorted_snoc {A} (R : A -> A -> Prop) (l : list A) (x : A) :
  StronglySorted R l -> Forall (fun y => R y x) l -> StronglySorted R (l ++ [x]).
Proof.
  induction 1 as [|y l Hl IH Hy]; intros Hx; simpl.
  - constructor; constructor.
  - apply Forall_cons in Hx as [Hyx Hx]. constructor; [by apply IH|].
    apply Forall_app. split; [exact Hy|]. by constructor.
Qed.

Lemma regs_inv_step (t : FST) (input : list Z) (r r' : regs) :
  run_cond t input r = true -> regs_inv t input r -> step_shape r r' ->
  regs_inv t input r'.
Proof.
  unfold run_cond. intros Hc (Hhd & Hall & Hsort & Hlast) Hs.
  apply andb_true_iff in Hc as [Hc HhdN]. apply andb_true_iff in Hc as [Hpc0 HpcL].
  apply Z.leb_le in HhdN, Hpc0. apply Z.ltb_lt in HpcL.
  destruct Hs as [(Hsnap & Hle & Ho1 & Ho2)|(o & Hsnap & Heq)]; unfold regs_inv.
  - rewrite Hsnap. split; [lia|]. split; [|split; [assumption|]].
    + eapply Forall_impl; [exact Hall|]. intros c [? ?]. split; [assumption|lia].
    + intros [?|?]; contradiction.
  - rewrite Hsnap, Heq. split; [lia|]. split; [|split].
    + apply Forall_app. split; [exact Hall|]. constructor; [|constructor].
      unfold snap_ok. simpl. lia.
    + apply StronglySorted_snoc; [assumption|].
      eapply Forall_impl; [exact Hall|]. intros c [_ ?]. unfold hd_le. simpl. lia.
    + intros _ c. rewrite last_snoc. intros [= <-]. reflexivity.
Qed.

Lemma run_end_accept (input : list Z) (r : regs) :
  snd (run_end input r) = true ->
  hd r = vec_size input /\ (op r = 1 \/ op r = 2).
Proof.
  unfold run_end. cbn [Operation_value].
  destruct (Z.eqb_spec (hd r) (vec_size input)) as [Hhd|]; cbn [negb];
    [|intros [=]].
  destruct (Z.eqb_spec (op r) 1) as [H1|], (Z.eqb_spec (op r) 2) as [H2|];
    cbn [negb andb snd]; auto. intros [=].
Qed.

Lemma regs_inv_end (t : FST) (input : list Z) (r : regs) (s : list Configuration)
    (acc : bool) :
  regs_inv t input r -> run_end input r = (s, acc) ->
  Forall (snap_ok t input) s /\ StronglySorted hd_le s /\
  (acc = true -> forall c, last s = Some c -> c_hd c = vec_size input).
Proof.
  intros (Hhd & Hall & Hsort & Hlast) He.
  pose proof (run_end_snap input r) as Hs. rewrite He in Hs. simpl in Hs. subst s.
  split; [|split; [assumption|]].
  - eapply Forall_impl; [exact Hall|]. by intros c [? _].
  - intros -> c Hc.
    pose proof (run_end_accept input r) as Ha. rewrite He in Ha.
    destruct (Ha eq_refl) as [HN Hop]. rewrite <- HN. by apply Hlast.
Qed.

Lemma run_loop_inv (t : FST) (input : list Z) (fuel : nat) (r : regs)
    (s : list Configuration) (acc : bool) :
  regs_inv t input r ->
  run_loop fuel t input r = Some (Ok (s, acc)) ->
  Forall (snap_ok t input) s /\ StronglySorted hd_le s /\
  (acc = true -> forall c, last s = Some c -> c_hd c = vec_size input).
Proof.
  revert r. induction fuel as [|fuel IH]; intros r Hinv; simpl; [intros [=]|].
  destruct (run_cond t input r) eqn:Hc.
  - destruct (run_body t input r) as [[r'|r'|s']| |f] eqn:Hb; try discriminate.
    + apply IH. eapply regs_inv_step; [exact Hc|exact Hinv|].
      exact (run_body_shape _ _ _ _ Hb).
    + intros [= He]. eapply regs_inv_end; [|exact He].
      eapply regs_inv_step; [exact Hc|exact Hinv|].
      exact (run_body_shape _ _ _ _ Hb).
    + intros [= <- <-]. apply run_body_shape in Hb. simpl in Hb. subst s'.
      destruct Hinv as (_ & Hall & Hsort & _).
      split; [|split; [assumption|discriminate]].
      eapply Forall_impl; [exact Hall|]. by intros c [? _].
  - intros [= He]. eapply regs_inv_end; eassumption.
Qed.

Lemma regs_inv_init (u : uninit) (t : FST) (input : list Z) :
  regs_inv t input (run_init u).
Proof.
  unfold regs_inv, run_init. simpl. split; [lia|]. split; [constructor|].
  split; [constructor|]. intros _ c [=].
Qed.

(** Every snapshot [run] returns was taken inside the program and inside
    the input, the snapshots are in the order of their head positions,
    and when the run accepts, the last snapshot was taken at the end of
    the input. *)
Lemma run_snapshots (u : uninit) (t : FST) (input : list Z)
    (s : list Configuration) (acc : bool) :
  run u t input = Ok (s, acc) ->
  Forall (snap_ok t input) s /\ StronglySorted hd_le s /\
  (acc = true -> forall c, last s = Some c -> c_hd c = vec_size input).
Proof.
  unfold run. intros H.
  destruct (run_loop (run_fuel t input) t input (run_init u)) as [x|] eqn:E.
  - subst x. eapply run_loop_inv; [apply regs_inv_init|exact E].
  - injection H as <- <-. split; [constructor|]. split; [constructor|].
    intros [=].
Qed.

Lemma StronglySorted_map_hd (s : list Configuration) :
  StronglySorted hd_le s -> StronglySorted Z.le (map c_hd s).
Proof.
  induction 1 as [|c s Hs IH Hc]; simpl; constructor; [assumption|].
  apply Forall_map. exact Hc.
Qed.

(** X16: [CommonPrefixSearch] returns one output list per length, every
    length lies between 0 and the length of the input, and the lengths
    come in ascending order. *)
Theorem CommonPrefixSearch_lens (u : uninit) (t : FST) (input : list Z)
    (outputs : list (list Z)) (lens : list Z) :
  CommonPrefixSearch u t input = Ok (outputs, lens) ->
  length outputs = length lens /\
  Forall (fun l => 0 <= l <= vec_size input) lens /\
  StronglySorted Z.le lens.
Proof.
  unfold CommonPrefixSearch, mbind, res_bind. intros H.
  apply rbind_Ok in H as ([s acc] & Hrun & H). injection H as <- <-.
  apply run_snapshots in Hrun as (Hall & Hsort & _).
  split; [by rewrite !length_map|]. split.
  - apply Forall_map. eapply Forall_impl; [exact Hall|]. by intros c [? _].
  - by apply StronglySorted_map_hd.
Qed.

Lemma CommonPrefixSearch_lens_witness :
  length [[1]] = length [1] /\
  Forall (fun l => 0 <= l <= vec_size [97; 98]) [1] /\
  StronglySorted Z.le [1].
Proof.
  apply (CommonPrefixSearch_lens (mkUninit 0 0) F_ab [97; 98] [[1]] [1]).
  vm_compute. reflexivity.
Defined.

(** X17: [PrefixSearch] reports the length -1, with no outputs, exactly when
    the run took no snapshot; any other length it reports lies between 0
    and the length of the input. *)
Theorem PrefixSearch_length (u : uninit) (t : FST) (input : list Z)
    (outs : list Z) (len : Z) :
  PrefixSearch u t input = Ok (outs, len) ->
  (len = -1 /\ outs = [] /\ CommonPrefixSearch u t input = Ok ([], [])) \/
  (0 <= len <= vec_size input /\
   exists outputs lens,
     CommonPrefixSearch u t input = Ok (outputs, lens) /\
     last outputs = Some outs /\ last lens = Some len).
Proof.
  unfold PrefixSearch, CommonPrefixSearch, mbind, res_bind. intros H.
  apply rbind_Ok in H as ([s acc] & Hrun & H). rewrite Hrun. cbn [rbind].
  destruct (last s) as [c|] eqn:Hlast.
  - injection H as <- <-. right.
    apply run_snapshots in Hrun as (Hall & _ & _).
    split.
    + apply last_Some in Hlast as [s' ->].
      apply Forall_app in Hall as [_ Hc]. apply Forall_cons in Hc as [[Hc _] _].
      exact Hc.
    + exists (map c_out s), (map c_hd s). split; [reflexivity|].
      apply last_Some in Hlast as [s' ->]. rewrite !map_app. cbn [map].
      by rewrite !last_snoc.
  - injection H as <- <-. left. apply last_None in Hlast as ->.
    repeat split; reflexivity.
Qed.

Lemma PrefixSearch_length_witness :
  (1 = -1 /\ [1] = [] /\
   CommonPrefixSearch (mkUninit 0 0) F_ab [97; 98] = Ok ([], [])) \/
  (0 <= 1 <= vec_size [97; 98] /\
   exists outputs lens,
     CommonPrefixSearch (mkUninit 0 0) F_ab [97; 98] = Ok (outputs, lens) /\
     last outputs = Some [1] /\ last lens = Some 1).
Proof.
  apply (PrefixSearch_length (mkUninit 0 0) F_ab [97; 98] [1] 1).
  vm_compute. reflexivity.
Defined.

(** X18: An answer of [Search] is an answer of [PrefixSearch] for the whole
    input: when [Search] returns outputs, [PrefixSearch] returns the same
    outputs with the length of the input. *)
Theorem Search_PrefixSearch (u : uninit) (t : FST) (input : list Z)
    (outs : list Z) :
  Search u t input = Ok outs -> outs <> [] ->
  PrefixSearch u t input = Ok (outs, vec_size input).
Proof.
  unfold Search, PrefixSearch, mbind, res_bind. intros H Hne.
  apply rbind_Ok in H as ([s acc] & Hrun & H). rewrite Hrun. cbn [rbind].
  destruct (negb acc || (vec_size s =? 0)) eqn:E; [congruence|].
  apply orb_false_iff in E as [Hacc _]. apply negb_false_iff in Hacc.
  destruct (last s) as [c|] eqn:Hlast; [|congruence].
  injection H as <-.
  apply run_snapshots in Hrun as (_ & _ & Hend).
  by rewrite (Hend Hacc c Hlast).
Qed.

Lemma Search_PrefixSearch_witness :
  PrefixSearch (mkUninit 0 0) F_ab [97] = Ok ([1], vec_size [97]).
Proof.
  apply (Search_PrefixSearch (mkUninit 0 0) F_ab [97] [1]).
  - vm_compute. reflexivity.
  - discriminate.
Defined.

(** ** The locals [run] does not initialise *)

Lemma run_uninit_op (o op1 op2 : Z) (t : FST) (input : list Z) :
  run (mkUninit o op1) t input = run (mkUninit o op2) t input \/
  exists acc1 acc2,
    run (mkUninit o op1) t input = Ok ([], acc1) /\
    run (mkUninit o op2) t input = Ok ([], acc2).
Proof.
  rewrite !run_unfold.
  assert (run_cond t input (run_init (mkUninit o op1))
          = run_cond t input (run_init (mkUninit o op2))) as <- by reflexivity.
  destruct (run_cond t input (run_init (mkUninit o op1))).
  - left. reflexivity.
  - right. unfold run_end, run_init. cbn [hd op snap uninit_out uninit_op].
    repeat case_match; eauto.
Qed.

(** X28: The first value of the local [op] never shows in an answer: whatever
    it is, [Search], [PrefixSearch] and [CommonPrefixSearch] return the
    same. *)
Theorem uninit_op_irrelevant (o op1 op2 : Z) (t : FST) (input : list Z) :
  Search (mkUninit o op1) t input = Search (mkUninit o op2) t input /\
  PrefixSearch (mkUninit o op1) t input = PrefixSearch (mkUninit o op2) t input /\
  CommonPrefixSearch (mkUninit o op1) t input
  = CommonPrefixSearch (mkUninit o op2) t input.
Proof.
  unfold Search, PrefixSearch, CommonPrefixSearch.
  destruct (run_uninit_op o op1 op2 t input) as [->|(a1 & a2 & -> & ->)].
  - repeat split; reflexivity.
  - unfold mbind, res_bind. cbn [rbind vec_size length Z.of_nat last map].
    rewrite !orb_true_r. repeat split; reflexivity.
Qed.

(** X29: The first value of the local [out] can show: when the program
    begins with an Accept or AcceptBreak cell whose character field is 0,
    the empty input is accepted at once and the output reported is the
    value [out] happened to hold, since no Output instruction has
    assigned it. *)
Theorem uninit_out_reported (u : uninit) (c : Z) (rest d : list Z) :
  Operation_of (ops_op c) = Some Accept \/
  Operation_of (ops_op c) = Some AcceptBreak ->
  ops_ch c = 0 ->
  Search u (mkFST (c :: rest) d) [] = Ok [uninit_out u] /\
  PrefixSearch u (mkFST (c :: rest) d) [] = Ok ([uninit_out u], 0) /\
  CommonPrefixSearch u (mkFST (c :: rest) d) [] = Ok ([[uninit_out u]], [0]).
Proof.
  intros Hop Hch.
  assert (run u (mkFST (c :: rest) d) []
          = Ok ([mkConfiguration 0 0 [uninit_out u]], true)) as Hrun.
  { rewrite run_unfold.
    assert (run_cond (mkFST (c :: rest) d) [] (run_init u) = true) as ->.
    { unfold run_cond, vec_size. cbn [prog pc hd run_init length].
      apply andb_true_iff. split; [apply andb_true_iff; split|].
      - reflexivity.
      - apply Z.ltb_lt. lia.
      - reflexivity. }
    unfold run_body. cbn [prog pc hd out snap run_init vec_at Z.ltb Z.compare].
    change (Z.to_nat 0) with 0%nat. cbn [lookup list_lookup].
    unfold mbind, res_bind. cbn [rbind]. cbv zeta.
    cbn [pc hd out op snap]. rewrite Hch.
    change (int_checked (0 + 1)) with (Ok 1 : res Z).
    change (0 =? 0) with true. cbn [rbind app vec_size length Z.of_nat].
    change (0 =? 0) with true. rewrite orb_true_r.
    destruct Hop as [Hop|Hop]; rewrite Hop; apply Operation_of_value in Hop;
      unfold run_end; cbn [hd op snap vec_size length Z.of_nat negb];
      change (0 =? 0) with true; cbn [negb]; rewrite Hop; reflexivity. }
  unfold Search, PrefixSearch, CommonPrefixSearch. rewrite Hrun.
  repeat split; reflexivity.
Qed.

Lemma uninit_out_reported_witness :
  Search (mkUninit 12345 0) (mkFST (op_cell Accept 0 0 :: []) []) [] = Ok [12345] /\
  PrefixSearch (mkUninit 12345 0) (mkFST (op_cell Accept 0 0 :: []) []) []
  = Ok ([12345], 0) /\
  CommonPrefixSearch (mkUninit 12345 0) (mkFST (op_cell Accept 0 0 :: []) []) []
  = Ok ([[12345]], [0]).
Proof.
  apply (uninit_out_reported (mkUninit 12345 0) (op_cell Accept 0 0) [] []).
  - left. vm_compute. reflexivity.
  - vm_compute. reflexivity.
Defined.

(** ** What [Write] puts on the stream *)

Lemma Write_prog_stream_n (n : nat) (cells : list Z) (w : list Z) :
  (length cells <= n)%nat ->
  Write_prog cells w
  = res_map (fun '(b, v) => (b, w ++ v)) (Write_prog cells []).
Proof.
  revert cells w. induction n as [|n IH]; intros cells w Hn.
  - destruct cells; [|simpl in Hn; lia]. simpl. by rewrite app_nil_r.
  - destruct cells as [|code rest]; [simpl; by rewrite app_nil_r|].
    simpl in Hn. cbn [Write_prog]. cbv zeta.
    rewrite !WriteUint_app. cbn [app].
    destruct (Operation_of (ops_op code)) as [[]|].
    all: repeat match goal with
           | |- context [if ?b then _ else _] => destruct b
           | |- context [match ?l with [] => _ | _ :: _ => _ end] =>
               destruct l; [try reflexivity|]
           end.
    all: try reflexivity.
    all: simpl in Hn.
    all: rewrite ?WriteUint_app; rewrite <- ?app_assoc.
    all: try match goal with
           | |- Write_prog ?r (?w ++ ?y) = res_map _ (Write_prog ?r ?y) =>
               rewrite (IH r (w ++ y)), (IH r y) by lia;
               destruct (Write_prog r []) as [[b v]| |]; cbn [res_map];
               rewrite <- ?app_assoc; reflexivity
           end.
    all: cbn [res_map]; rewrite <- ?app_assoc; reflexivity.
Qed.

Lemma Write_prog_stream (cells : list Z) (w : list Z) :
  Write_prog cells w
  = res_map (fun '(b, v) => (b, w ++ v)) (Write_prog cells []).
Proof. by apply (Write_prog_stream_n (length cells)). Qed.

Lemma Write_data_app (data : list Z) (w : list Z) :
  Write_data data w = w ++ Write_data data [].
Proof.
  unfold Write_data. revert w. induction data as [|v data IH]; intros w;
    cbn [foldl].
  - by rewrite app_nil_r.
  - rewrite (IH (WriteUint _ w _)), (IH (WriteUint _ [] _)).
    rewrite !WriteUint_app. cbn [app]. by rewrite <- app_assoc.
Qed.

(** X19: [Write] only appends: what it returns and the bytes it adds do not
    depend on what the stream already holds. The bytes start with the
    eight bytes of [data.size()], low-order byte first. *)
Theorem Write_appends (t : FST) (w : list Z) :
  Write t w = res_map (fun '(b, v) => (b, w ++ v)) (Write t []) /\
  forall b v, Write t [] = Ok (b, v) ->
    take 8 v = le_bytes sizeof_size_t (vec_size (data t)).
Proof.
  unfold Write. cbv zeta.
  rewrite !(WriteUint_app sizeof_size_t).
  rewrite (Write_data_app _ (w ++ _)), (Write_data_app _ ([] ++ _)).
  cbn [app]. rewrite <- !app_assoc.
  rewrite (Write_prog_stream _ (w ++ _)).
  rewrite (Write_prog_stream _ (le_bytes _ _ ++ _)).
  destruct (Write_prog (prog t) []) as [[b v]| |]; cbn [res_map].
  - split; [by rewrite <- !app_assoc|].
    intros b' v' [= _ <-]. reflexivity.
  - split; [reflexivity|intros ? ? [=]].
  - split; [reflexivity|intros ? ? [=]].
Qed.

Lemma Write_prog_app_n (n : nat) (pre l w v : list Z) :
  (length pre <= n)%nat ->
  Write_prog pre [] = Ok (true, v) ->
  Write_prog (pre ++ l) w = Write_prog l (w ++ v).
Proof.
  revert pre w v. induction n as [|n IH]; intros pre w v Hn H.
  - destruct pre; [|simpl in Hn; lia]. injection H as <-. by rewrite app_nil_r.
  - destruct pre as [|code rest].
    { injection H as <-. by rewrite app_nil_r. }
    simpl in Hn. cbn [app Write_prog] in *. cbv zeta in *.
    destruct (Operation_of (ops_op code)) as [[]|]; try discriminate.
    all: repeat match goal with
           | H : context [if ?b then _ else _] |- _ => destruct b
           | H : context [match ?r with [] => _ | _ :: _ => _ end] |- _ =>
               destruct r; try discriminate
           end.
    all: simpl in Hn; cbn [app].
    all: rewrite ?WriteUint_app in *; cbn [app] in H.
    all: rewrite Write_prog_stream in H;
         match type of H with
         | context [Write_prog ?r []] =>
             destruct (Write_prog r []) as [[b v1]| |] eqn:E;
             cbn [res_map] in H; try discriminate;
             injection H as -> <-;
             rewrite (IH r _ v1) by (lia || exact E)
         end.
    all: rewrite <- ?app_assoc; reflexivity.
Qed.

(** A program is written instruction by instruction: when the cells
    [pre] are written completely and successfully, writing [pre ++ l]
    goes on with [l] behind the bytes of [pre]. *)
Lemma Write_prog_app (pre l w v : list Z) :
  Write_prog pre [] = Ok (true, v) ->
  Write_prog (pre ++ l) w = Write_prog l (w ++ v).
Proof. by apply (Write_prog_app_n (length pre)). Qed.

(** X20: [Write] cannot succeed on a program that has an Output or OutputBreak
    instruction with the jump in a raw cell (jump field 0): behind any
    instructions that were written, such an instruction makes [Write]
    return false (or read past the program when its raw cells are
    missing). *)
Theorem Write_extended_output_fails (pre v : list Z) (c : Z) (rest d w w' : list Z) :
  Write_prog pre [] = Ok (true, v) ->
  Operation_of (ops_op c) = Some Output \/ Operation_of (ops_op c) = Some OutputBreak ->
  ops_jump c = 0 ->
  Write (mkFST (pre ++ c :: rest) d) w <> Ok (true, w').
Proof.
  intros Hpre Hop Hj. unfold Write. cbv zeta. cbn [prog data].
  rewrite (Write_prog_app pre _ _ v Hpre).
  cbn [Write_prog]. cbv zeta. rewrite Hj. cbn [Z.eqb negb].
  destruct Hop as [-> | ->]; destruct rest as [|c1 [|c2 rest]]; discriminate.
Qed.

Lemma Write_extended_output_fails_witness :
  Write (mkFST ([op_cell Accept 0 0] ++ op_cell Output 97 0 :: [raw_cell 1; raw_cell 70000]) [])
    [] <> Ok (true, []).
Proof.
  apply (Write_extended_output_fails [op_cell Accept 0 0] [1; 0]
           (op_cell Output 97 0) [raw_cell 1; raw_cell 70000] [] [] []).
  - vm_compute. reflexivity.
  - left. vm_compute. reflexivity.
  - vm_compute. reflexivity.
Defined.

(** ** What [Read] takes and what it appends *)

Lemma ReadUint_suffix (sizeofT : nat) (r r' : list Z) (v : Z) :
  ReadUint sizeofT r = Ok (v, r') -> r' `suffix_of` r.
Proof. apply ReadUint_loop_suffix. Qed.

Lemma Read_data_appends (fuel : nat) (n : Z) (r r' : list Z) (d d' : list Z) :
  Read_data fuel n r d = Ok (d', r') ->
  exists x, d' = d ++ x /\ Z.of_nat (length x) = n /\ r' `suffix_of` r.
Proof.
  revert n r d. induction fuel as [|fuel IH]; intros n r d; cbn [Read_data];
    destruct (Z.eqb_spec n 0) as [->|Hn].
  - intros [= <- <-]. exists []. by rewrite app_nil_r.
  - intros H. apply mbind_Ok in H as ([v r1] & _ & H). discriminate.
  - intros [= <- <-]. exists []. by rewrite app_nil_r.
  - intros H. apply mbind_Ok in H as ([v r1] & Hr & H).
    apply ReadUint_suffix in Hr.
    apply IH in H as (x & -> & Hx & Hs).
    exists (to_int32 v :: x). rewrite <- app_assoc. split; [reflexivity|].
    split; [simpl length; lia|by etrans].
Qed.

Ltac read_inv H :=
  repeat match type of H with
    | mbind _ (ReadUint _ _) = Ok _ =>
        let Hr := fresh "Hr" in
        apply mbind_Ok in H as ([? ?] & Hr & H);
        apply ReadUint_suffix in Hr
    | (if ?b then _ else _) = Ok _ => destruct b
    end.

Lemma Read_prog_appends (fuel : nat) (n : Z) (r r' : list Z) (code : Z)
    (p p' : list Z) (ok : bool) :
  Read_prog fuel n r code p = Ok (ok, p', r') ->
  p `prefix_of` p' /\ r' `suffix_of` r.
Proof.
  revert n r code p. induction fuel as [|fuel IH]; intros n r code p;
    cbn [Read_prog]; destruct (n =? 0).
  - intros [= _ <- <-]. by split.
  - intros H. apply mbind_Ok in H as ([v r1] & _ & H). discriminate.
  - intros [= _ <- <-]. by split.
  - intros H. read_inv H.
    destruct (Operation_of _) as [[]|]; cbv zeta in H; read_inv H.
    all: try (apply IH in H as [Hp Hs]; split;
              [ etrans; [|exact Hp]; rewrite <- ?app_assoc; by apply prefix_app_r
              | repeat (etrans; [exact Hs|]); repeat (etrans; [eassumption|]);
                try eassumption; try reflexivity ]).
    all: try (injection H as _ <- <-; split; [reflexivity|]).
    all: repeat (etrans; [eassumption|]); try eassumption; try reflexivity.
Qed.

(** X30: [Read] only appends and only takes from the front: when it
    returns, the vectors [data] and [prog] of the object begin with what
    they held before, and the rest of the stream is a tail of the stream
    given. *)
Theorem Read_appends (a : room) (t t' : FST) (r r' : list Z) (ok : bool) :
  Read a t r = Ok (ok, t', r') ->
  data t `prefix_of` data t' /\ prog t `prefix_of` prog t' /\
  r' `suffix_of` r.
Proof.
  unfold Read. intros H.
  apply mbind_Ok in H as ([dataLen r1] & H1 & H).
  apply ReadUint_suffix in H1 as S1.
  apply mbind_Ok in H as (_ & _ & H).
  apply mbind_Ok in H as ([data' r2] & H2 & H).
  apply Read_data_appends in H2 as (x & -> & _ & S2).
  apply mbind_Ok in H as ([progLen r3] & H3 & H).
  apply ReadUint_suffix in H3 as S3.
  apply mbind_Ok in H as (_ & _ & H).
  apply mbind_Ok in H as ([[ok' prog'] r4] & H4 & H).
  apply Read_prog_appends in H4 as [P4 S4].
  injection H as _ <- <-. cbn [prog data].
  split; [by apply prefix_app_r|]. split; [assumption|].
  by repeat (etrans; [eassumption|]).
Qed.

Lemma Read_appends_witness :
  data FST_new `prefix_of` data fst_one_entry /\
  prog FST_new `prefix_of` prog fst_one_entry /\
  [9] `suffix_of` stream_one_entry.
Proof.
  apply (Read_appends (mkRoom 1 0) FST_new fst_one_entry stream_one_entry [9] true).
  vm_compute. reflexivity.
Defined.

(** ** Running the MAST *)

Lemma Mast_accept_from_prefix (h : heap) (s : option loc) (a b : list Z) :
  Mast_accept_from h s (a ++ b) = Ok true -> Mast_accept_from h s a = Ok true.
Proof.
  revert s. induction a as [|c a IH]; intros s; simpl; [reflexivity|].
  unfold mbind, res_bind. destruct (deref_ptr h s) as [st| |]; simpl; try discriminate.
  destruct (trans st !! to_uint8 c); [apply IH|discriminate].
Qed.

(** X21: [Mast::accept] follows transitions only: the empty string is always
    accepted, and with a string every prefix of it is accepted, whether
    or not the state reached is final. *)
Theorem Mast_accept_prefix (h : heap) (m : Mast) (a b : list Z) :
  Mast_accept h m [] = Ok true /\
  (Mast_accept h m (a ++ b) = Ok true -> Mast_accept h m a = Ok true).
Proof. split; [reflexivity|apply Mast_accept_from_prefix]. Qed.

Lemma Mast_accept_prefix_witness :
  Mast_accept heap_a1 mast_a1 [] = Ok true /\
  (Mast_accept heap_a1 mast_a1 ([] ++ [97]) = Ok true ->
   Mast_accept heap_a1 mast_a1 [] = Ok true).
Proof. exact (Mast_accept_prefix heap_a1 mast_a1 [] [97]). Defined.

Lemma Mast_run_from_ok (h : heap) (s : option loc) (input out out' : list Z)
    (ok ok' : bool) :
  Mast_run_from h s input out ok = Ok (out', ok') ->
  (Mast_accept_from h s input = Ok true /\ ok' = ok) \/
  (Mast_accept_from h s input = Ok false /\ ok' = false).
Proof.
  revert s out. induction input as [|c input IH]; intros s out; simpl;
    unfold mbind, res_bind;
    destruct (deref_ptr h s) as [st| |]; simpl; try discriminate.
  - intros [= _ <-]. by left.
  - destruct (trans st !! to_uint8 c); [apply IH|].
    intros [= _ <-]. by right.
Qed.

(** X22: [Mast::run] and [Mast::accept] agree on whether the input can be
    followed: [run] leaves [*ok] as it was when [accept] holds and sets
    it to false when [accept] does not; it never sets it to true. *)
Theorem Mast_run_ok (h : heap) (m : Mast) (input out : list Z) (ok ok' : bool) :
  Mast_run h m input ok = Ok (out, ok') ->
  (Mast_accept h m input = Ok true /\ ok' = ok) \/
  (Mast_accept h m input = Ok false /\ ok' = false).
Proof. apply Mast_run_from_ok. Qed.

Lemma Mast_run_ok_witness :
  (Mast_accept heap_a1 mast_a1 [97] = Ok true /\ false = false) \/
  (Mast_accept heap_a1 mast_a1 [97] = Ok false /\ false = false).
Proof.
  apply (Mast_run_ok heap_a1 mast_a1 [97] [1] false false).
  vm_compute. reflexivity.
Defined.

(** ** The cells the compiler emits *)

Lemma op_cell_any_code (o ch j c : Z) :
  set_ops_jump j (set_ops_ch ch (set_ops_op o c))
  = set_ops_jump j (set_ops_ch ch (set_ops_op o 0)).
Proof. cell_bits. Qed.

Lemma set_ops_jump_uint16 (j c : Z) :
  set_ops_jump (to_uint16 j) c = set_ops_jump j c.
Proof. unfold set_ops_jump, to_uint16. by rewrite Z.mod_mod. Qed.

Lemma to_uint32_to_int32 (z : Z) : to_uint32 (to_int32 z) = to_uint32 z.
Proof.
  unfold to_uint32, to_int32.
  rewrite Zminus_mod_idemp_l. f_equal. lia.
Qed.

(** X23: The cells of one edge. When the successor's address is on record,
    [buildMachine] appends, in this order: a raw cell with the jump if
    the jump does not fit 16 bits, a raw cell with the output if the
    output is not zero, and the op cell, whose jump field is the jump or
    0 when the jump went into the raw cell. Nothing else changes, and
    [*err] is not written. *)
Theorem emit_edge_cells (h : heap) (s : State) (first : bool) (ch : Z)
    (c : cstate) (err : string) (next : loc) (nexts : State) (out addr : Z) :
  trans s !! ch = Some next ->
  output s !! ch = Some out ->
  h !! next = Some nexts ->
  cs_addrMap c !! id nexts = Some addr ->
  exists c',
    emit_edge h s first ch c err = (err, Ok c') /\
    cs_prog c'
    = cs_prog c
      ++ (if UINT16_MAX <? edge_jump c addr then [raw_cell (edge_jump c addr)] else [])
      ++ (if out =? 0 then [] else [raw_cell out])
      ++ [op_cell (edge_op first out) ch
            (if UINT16_MAX <? edge_jump c addr then 0 else edge_jump c addr)] /\
    cs_data c' = cs_data c /\ cs_addrMap c' = cs_addrMap c.
Proof.
  intros Ht Ho Hn Ha. unfold emit_edge, umap_at, deref.
  rewrite Ht, Ho, Hn, Ha. rewrite bool_decide_eq_false_2 by discriminate.
  cbn [andb]. fold (edge_jump c addr).
  unfold op_cell, raw_cell, edge_op.
  destruct (UINT16_MAX <? edge_jump c addr) eqn:Hbig;
    destruct (out =? 0) eqn:Hout; cbn [negb];
    eexists; (split; [reflexivity|]);
    cbn [push_code with_code cs_prog cs_data cs_code cs_addrMap];
    rewrite ?set_ops_jump_uint16; unfold set_v32;
    rewrite ?to_uint32_to_int32, <- ?app_assoc;
    rewrite op_cell_any_code; repeat split; reflexivity.
Qed.

Lemma emit_edge_cells_witness :
  exists c',
    emit_edge heap_a1 state_a1_initial true 97 cstate_a1_edge "" = ("", Ok c') /\
    cs_prog c'
    = cs_prog cstate_a1_edge
      ++ (if UINT16_MAX <? edge_jump cstate_a1_edge 1
          then [raw_cell (edge_jump cstate_a1_edge 1)] else [])
      ++ (if 1 =? 0 then [] else [raw_cell 1])
      ++ [op_cell (edge_op true 1) 97
            (if UINT16_MAX <? edge_jump cstate_a1_edge 1
             then 0 else edge_jump cstate_a1_edge 1)] /\
    cs_data c' = cs_data cstate_a1_edge /\
    cs_addrMap c' = cs_addrMap cstate_a1_edge.
Proof.
  apply (emit_edge_cells heap_a1 state_a1_initial true 97 cstate_a1_edge ""
           2%nat (mkState 0 ∅ ∅ [] true 0) 1 1).
  - vm_compute. reflexivity.
  - vm_compute. reflexivity.
  - reflexivity.
  - vm_compute. reflexivity.
Defined.

(** ** The machines [BuildFST] returns *)

(** X25: Whenever [BuildFST] returns a machine, the program of the machine
    is empty, and the machine has no answer to any query: a non-empty
    provisional stream cannot be copied into the new machine. *)
Theorem BuildFST_Ok_answers_nothing (input input' : list Pair) (err err' : string)
    (t : FST) :
  BuildFST input err = (input', err', Ok t) ->
  prog t = [] /\
  forall (u : uninit) (q : list Z),
    Search u t q = Ok [] /\
    PrefixSearch u t q = Ok ([], -1) /\
    CommonPrefixSearch u t q = Ok ([], []).
Proof.
  unfold BuildFST. destruct (buildMAST input) as [sorted [[m h]| |f]];
    try congruence.
  destruct (buildMachine h m err) as [e ret] eqn:Hb. intros [= _ -> ->].
  apply buildMachine_Ok_nil in Hb as [Hp _].
  split; [assumption|]. intros u q. by apply empty_prog_answers.
Qed.

Lemma BuildFST_Ok_answers_nothing_witness :
  prog FST_new = [] /\
  forall (u : uninit) (q : list Z),
    Search u FST_new q = Ok [] /\
    PrefixSearch u FST_new q = Ok ([], -1) /\
    CommonPrefixSearch u FST_new q = Ok ([], []).
Proof.
  apply (BuildFST_Ok_answers_nothing [] [] "" "" FST_new).
  vm_compute. reflexivity.
Defined.

Lemma add_pair_empty_key (pr : Pair) (s : State) :
  Pair_in pr = [] ->
  add_pair (buf_for 0) [] pr (mkBstate [s] ∅ Mast_new)
  = Ok (mkBstate [addTail (Pair_out pr) s] ∅ Mast_new).
Proof.
  intros Hin. unfold add_pair. rewrite Hin. cbv zeta.
  unfold mbind, res_bind, commonPrefixLen. cbn [commonPrefixLen_from rbind].
  change (Z.to_nat 0) with 0%nat.
  cbn [length Nat.sub seq rev for_each rbind redistribute].
  rewrite bool_decide_eq_true_2 by reflexivity. cbn [negb rbind].
  unfold buf_for, vec_size. cbn [seq length Z.of_nat vec_at Z.ltb Z.compare].
  change (Z.to_nat 0) with 0%nat. cbn [lookup list_lookup rbind].
  unfold mutate, deref, mbind, res_bind. cbn [lookup list_lookup rbind].
  destruct (Pair_out pr =? 0); reflexivity.
Qed.

Lemma add_pairs_empty_keys (input : list Pair) (s : State) :
  Forall (fun p => Pair_in p = []) input ->
  trans s = ∅ -> isFinal s = false ->
  exists s', add_pairs (buf_for 0) [] input (mkBstate [s] ∅ Mast_new)
             = Ok ([], mkBstate [s'] ∅ Mast_new) /\
             trans s' = ∅ /\ isFinal s' = false.
Proof.
  intros Hall. revert s. induction Hall as [|pr input Hin _ IH]; intros s Ht Hf.
  - exists s. by repeat split.
  - cbn [add_pairs]. rewrite add_pair_empty_key by assumption.
    unfold mbind, res_bind. cbn [rbind]. rewrite Hin. by apply IH.
Qed.

Lemma maxInputWordLen_empty_keys (input : list Pair) :
  Forall (fun p => Pair_in p = []) input -> maxInputWordLen input = 0%nat.
Proof.
  unfold maxInputWordLen. induction 1 as [|pr input Hin _ IH]; [reflexivity|].
  cbn [foldl]. rewrite Hin. exact IH.
Qed.

(** X26: Pairs with the empty key leave no trace: when every key of the input
    is the empty string, [BuildFST] returns the machine with no program
    and no data, whatever the outputs are, and does not write [*err]. *)
Theorem BuildFST_empty_keys (input : list Pair) (err : string) :
  Forall (fun p => Pair_in p = []) input ->
  exists sorted, BuildFST input err = (sorted, err, Ok FST_new).
Proof.
  intros Hall. exists (std_sort input).
  assert (Forall (fun p => Pair_in p = []) (std_sort input)) as Hs.
  { by rewrite std_sort_Permutation. }
  unfold BuildFST, buildMAST. cbv zeta.
  rewrite (maxInputWordLen_empty_keys _ Hs).
  destruct (add_pairs_empty_keys (std_sort input) State_zero Hs eq_refl eq_refl)
    as (s' & Hadd & Ht & Hf).
  unfold bstate_for. cbn [replicate]. rewrite Hadd.
  unfold mbind, res_bind. cbn [rbind length seq rev for_each].
  unfold buf_for. cbn [seq vec_at Z.ltb Z.compare].
  change (Z.to_nat 0) with 0%nat. cbn [lookup list_lookup rbind].
  unfold addState, mutate, deref, mbind, res_bind.
  cbn [states finalStates initialState Mast_new lookup list_lookup rbind
       insert list_insert isFinal set_id app].
  rewrite Hf. unfold buildMachine, provisional. cbn [states emit_states].
  unfold emit_state, deref. cbn [lookup list_lookup].
  unfold edges_of. cbn [trans set_id]. rewrite Ht, map_to_list_empty.
  cbn [map foldr rev emit_edges]. unfold emit_final.
  change (isFinal (set_id (to_int32 (vec_size [])) s')) with (isFinal s').
  rewrite Hf.
  reflexivity.
Qed.

Lemma BuildFST_empty_keys_witness :
  exists sorted,
    BuildFST [mkPair [] 5; mkPair [] 0; mkPair [] 7] "e" = (sorted, "e", Ok FST_new).
Proof.
  apply (BuildFST_empty_keys [mkPair [] 5; mkPair [] 0; mkPair [] 7] "e").
  repeat constructor.
Defined.

(** ** The states the builder registers *)

Lemma buf_only_refl (nb : nat) (h : heap) : buf_only nb h h.
Proof. by split. Qed.

Lemma buf_only_trans (nb : nat) (h1 h2 h3 : heap) :
  buf_only nb h1 h2 -> buf_only nb h2 h3 -> buf_only nb h1 h3.
Proof.
  intros [L1 E1] [L2 E2]. split; [congruence|].
  intros q Hq. by rewrite E2, E1.
Qed.

Lemma mutate_buf_only (nb : nat) (p : loc) (f : State -> State) (h h' : heap) :
  (p < nb)%nat -> mutate p f h = Ok h' -> buf_only nb h h'.
Proof.
  intros Hp. unfold mutate, deref. destruct (h !! p); [|discriminate].
  simpl. intros [= <-]. split; [apply length_insert|].
  intros q Hq. apply list_lookup_insert_ne. lia.
Qed.

Lemma is_final_at_ext (h h' : heap) (p : loc) :
  h' !! p = h !! p -> is_final_at h' p = is_final_at h p.
Proof. unfold is_final_at. by intros ->. Qed.

Lemma Mast_inv_buf_only (nb : nat) (h h' : heap) (m : Mast) :
  Mast_inv nb h m -> buf_only nb h h' -> Mast_inv nb h' m.
Proof.
  intros (Hlen & Hrange & Hsort & Hid & Hfin) [L E]. unfold Mast_inv.
  rewrite L. split; [assumption|]. split; [assumption|]. split; [assumption|].
  split.
  - intros k p Hk. destruct (Hid k p Hk) as (s & Hs & His). exists s.
    split; [|assumption]. rewrite E; [assumption|].
    apply (Forall_lookup_1 _ _ _ _ Hrange) in Hk. lia.
  - rewrite Hfin. apply List.filter_ext_in. intros p Hp. symmetry.
    apply is_final_at_ext, E.
    apply list_elem_of_In in Hp.
    apply (proj1 (Forall_forall _ _) Hrange) in Hp. lia.
Qed.

Lemma vec_at_Ok {A} (v : list A) (i : Z) (a : A) :
  vec_at v i = Ok a -> 0 <= i /\ v !! Z.to_nat i = Some a.
Proof.
  unfold vec_at. destruct (Z.ltb_spec i 0); [discriminate|].
  destruct (v !! Z.to_nat i); [|discriminate]. intros [= ->]. split; [lia|reflexivity].
Qed.

Lemma vec_at_buf (n : nat) (i : Z) (p : loc) :
  vec_at (buf_for n) i = Ok p -> (p < S n)%nat /\ p = Z.to_nat i.
Proof.
  intros H. apply vec_at_Ok in H as [_ H]. unfold buf_for in H.
  apply lookup_seq in H as [-> ?]. simpl. lia.
Qed.

Lemma addState_new (nb : nat) (h h1 h2 : heap) (m m1 : Mast) :
  Mast_inv nb h m ->
  length h1 = S (length h) ->
  (forall q, (q < length h)%nat -> (nb <= q)%nat -> h1 !! q = h !! q) ->
  addState (length h) m h1 = Ok (m1, h2) ->
  Mast_inv nb h2 m1 /\ states m1 = states m ++ [length h] /\
  initialState m1 = initialState m /\
  length h2 = length h1 /\ (forall q, q <> length h -> h2 !! q = h1 !! q).
Proof.
  intros (Hlen & Hrange & Hsort & Hid & Hfin) L1 E1 H.
  unfold addState, mutate, deref in H.
  destruct (h1 !! length h) as [s0|] eqn:Hs0; [|discriminate].
  unfold mbind, res_bind in H. cbn [rbind] in H.
  rewrite list_lookup_insert_eq in H by lia. cbn [rbind] in H.
  injection H as <- <-. cbn [states initialState finalStates isFinal set_id].
  assert (forall q, q <> length h ->
            <[length h:=set_id (to_int32 (vec_size (states m))) s0]> h1 !! q = h1 !! q)
    as Hne by (intros; by apply list_lookup_insert_ne).
  split; [|split; [reflexivity|split; [reflexivity|split; [apply length_insert|exact Hne]]]].
  unfold Mast_inv. cbn [states finalStates]. rewrite length_insert, L1.
  split; [lia|]. split; [|split; [|split]].
  - apply Forall_app. split.
    + eapply Forall_impl; [exact Hrange|]. intros p ?. simpl in *. lia.
    + constructor; [lia|constructor].
  - apply StronglySorted_snoc; [assumption|].
    eapply Forall_impl; [exact Hrange|]. intros p ?. simpl in *. lia.
  - intros k p Hk. apply lookup_app_Some in Hk as [Hk|[Hge Hk]].
    + destruct (Hid k p Hk) as (s & Hs & His). exists s. split; [|assumption].
      apply (Forall_lookup_1 _ _ _ _ Hrange) in Hk.
      rewrite Hne by lia. rewrite E1 by lia. assumption.
    + destruct (k - length (states m))%nat eqn:Hd; [|destruct n; discriminate].
      injection Hk as <-. eexists. rewrite list_lookup_insert_eq by lia.
      split; [reflexivity|]. cbn [id set_id]. unfold vec_size. f_equal. lia.
  - rewrite List.filter_app. cbn [List.filter].
    assert (is_final_at
              (<[length h:=set_id (to_int32 (vec_size (states m))) s0]> h1) (length h)
            = isFinal s0) as ->.
    { unfold is_final_at. by rewrite list_lookup_insert_eq by lia. }
    assert (List.filter
              (is_final_at (<[length h:=set_id (to_int32 (vec_size (states m))) s0]> h1))
              (states m) = finalStates m) as ->.
    { rewrite Hfin. apply List.filter_ext_in. intros p Hp.
      apply list_elem_of_In in Hp.
      apply (proj1 (Forall_forall _ _) Hrange) in Hp.
      apply is_final_at_ext. rewrite Hne by lia. apply E1; lia. }
    destruct (isFinal s0); [reflexivity|]. by rewrite app_nil_r.
Qed.

Lemma find_equal_In (h : heap) (cs : list loc) (bi : loc) (sbi : State) (c : loc) :
  find_equal h cs bi sbi = Ok (Some c) -> c ∈ cs.
Proof.
  induction cs as [|c0 cs IH]; simpl; [discriminate|].
  unfold mbind, res_bind. destruct (deref h c0) as [sc| |]; simpl; try discriminate.
  destruct (State_eqb c0 bi sc sbi).
  - intros [= ->]. by left.
  - intros H. right. by apply IH.
Qed.

Lemma dict_ok_mono (dict : gmap Z (list loc)) (m m1 : Mast) :
  dict_ok dict m -> (forall p, p ∈ states m -> p ∈ states m1) -> dict_ok dict m1.
Proof.
  intros Hd Hsub k cs Hk. eapply Forall_impl; [exact (Hd k cs Hk)|]. exact Hsub.
Qed.

Lemma lookup_dict_ok (h : heap) (dict dict1 : gmap Z (list loc)) (bi : loc)
    (s : option loc) (m : Mast) :
  dict_ok dict m -> lookup_dict h dict bi = Ok (s, dict1) ->
  dict_ok dict1 m /\ (forall c, s = Some c -> c ∈ states m).
Proof.
  intros Hd H. unfold lookup_dict, mbind, res_bind in H.
  apply rbind_Ok in H as (sbi & _ & H).
  destruct (dict !! hcode sbi) as [cs|] eqn:Hcs.
  - apply rbind_Ok in H as (s' & Hfind & H). injection H as <- <-.
    split; [assumption|]. intros c ->. apply find_equal_In in Hfind.
    exact (proj1 (Forall_forall _ _) (Hd _ _ Hcs) c Hfind).
  - injection H as <- <-. split; [|discriminate].
    unfold umap_insert. rewrite Hcs. intros k cs Hk.
    destruct (decide (hcode sbi = k)) as [<-|Hne].
    + rewrite lookup_insert_eq in Hk. injection Hk as <-. constructor.
    + rewrite lookup_insert_ne in Hk by assumption. by apply (Hd k).
Qed.

Lemma dict_push_ok (h : heap) (bi s : loc) (dict dict1 : gmap Z (list loc))
    (m : Mast) :
  dict_ok dict m -> s ∈ states m -> dict_push h bi s dict = Ok dict1 ->
  dict_ok dict1 m.
Proof.
  intros Hd Hs H. unfold dict_push, mbind, res_bind in H.
  apply rbind_Ok in H as (sbi & _ & H). apply rbind_Ok in H as (cs & Hcs & H).
  injection H as <-. unfold umap_at in Hcs.
  destruct (dict !! hcode sbi) as [cs'|] eqn:E; [|discriminate].
  injection Hcs as ->. intros k cs1 Hk.
  destruct (decide (hcode sbi = k)) as [<-|Hne].
  - rewrite lookup_insert_eq in Hk. injection Hk as <-.
    apply Forall_app. split; [by apply (Hd (hcode sbi))|]. by constructor.
  - rewrite lookup_insert_ne in Hk by assumption. by apply (Hd k).
Qed.

Lemma link_buf_only (n : nat) (word : list Z) (i : nat) (s : loc) (h h' : heap) :
  link (buf_for n) word i s h = Ok h' -> buf_only (S n) h h'.
Proof.
  intros H. unfold link, mbind, res_bind in H.
  apply rbind_Ok in H as (p & Hp & H). apply rbind_Ok in H as (ch & _ & H).
  apply rbind_Ok in H as (ss & _ & H). apply vec_at_buf in Hp as [Hp _].
  eapply mutate_buf_only; eassumption.
Qed.

Lemma extend_step_buf_only (n : nat) (in_ : list Z) (i : nat) (h h' : heap) :
  extend_step (buf_for n) in_ i h = Ok h' -> buf_only (S n) h h'.
Proof.
  intros H. unfold extend_step, mbind, res_bind in H.
  apply rbind_Ok in H as (bi & _ & H). by eapply link_buf_only.
Qed.

Lemma redistribute_buf_only (n : nat) (in_ : list Z) (js : list nat) (o o' : Z)
    (h h' : heap) :
  redistribute (buf_for n) in_ js o h = Ok (o', h') -> buf_only (S n) h h'.
Proof.
  revert h. induction js as [|j js IH]; simpl; intros h H.
  - injection H as _ <-. apply buf_only_refl.
  - unfold mbind, res_bind in H.
    apply rbind_Ok in H as (p & Hp & H). apply rbind_Ok in H as (c & _ & H).
    apply rbind_Ok in H as (sp & _ & H). apply rbind_Ok in H as (o1 & _ & H).
    destruct (o1 =? o); [injection H as _ <-; apply buf_only_refl|].
    apply rbind_Ok in H as (outSuff & _ & H). apply rbind_Ok in H as (h1 & H1 & H).
    apply rbind_Ok in H as (bj & Hbj & H). apply rbind_Ok in H as (sj & _ & H).
    apply rbind_Ok in H as (h2 & H2 & H). apply rbind_Ok in H as (sj' & _ & H).
    apply rbind_Ok in H as (h3 & H3 & H).
    apply vec_at_buf in Hp as [Hp _]. apply vec_at_buf in Hbj as [Hbj _].
    apply mutate_buf_only with (nb := S n) in H1; [|assumption].
    apply mutate_buf_only with (nb := S n) in H2; [|assumption].
    assert (buf_only (S n) h2 h3) as H3'.
    { destruct (isFinal sj' && negb (outSuff =? 0)).
      - by eapply mutate_buf_only.
      - injection H3 as <-. apply buf_only_refl. }
    apply IH in H.
    eauto using buf_only_trans.
Qed.

Lemma register_new (nb : nat) (h h1 h2 : heap) (dict dict1 : gmap Z (list loc))
    (m m1 : Mast) (bi : loc) :
  Mast_inv nb h m -> dict_ok dict m -> initialState m = None ->
  length h1 = S (length h) ->
  (forall q, (q < length h)%nat -> (nb <= q)%nat -> h1 !! q = h !! q) ->
  addState (length h) m h1 = Ok (m1, h2) ->
  dict_push h2 bi (length h) dict = Ok dict1 ->
  build_inv nb (mkBstate h2 dict1 m1).
Proof.
  intros Hm Hd Hi L1 E1 Hadd Hpush.
  destruct (addState_new _ _ _ _ _ _ Hm L1 E1 Hadd) as (Hm1 & Hst & Hi1 & _ & _).
  split; [exact Hm1|]. split; [|cbn; congruence].
  cbn [b_dict b_m]. eapply dict_push_ok; [| |exact Hpush].
  - eapply dict_ok_mono; [exact Hd|]. intros p Hp. rewrite Hst.
    apply elem_of_app. by left.
  - rewrite Hst. apply elem_of_app. right. by constructor.
Qed.

Lemma build_inv_buf_only (nb : nat) (h h' : heap) (dict : gmap Z (list loc))
    (m : Mast) :
  build_inv nb (mkBstate h dict m) -> buf_only nb h h' ->
  build_inv nb (mkBstate h' dict m).
Proof.
  intros (Hm & Hd & Hi) Hb. split; [|split; assumption].
  by eapply Mast_inv_buf_only.
Qed.

Lemma freeze_step_inv (n : nat) (prev : list Z) (i : nat) (st st' : bstate) :
  build_inv (S n) st -> freeze_step (buf_for n) prev i st = Ok st' ->
  build_inv (S n) st'.
Proof.
  destruct st as [h dict m]. intros Hinv H. unfold freeze_step in H.
  apply mbind_Ok in H as (bi & Hbi & H). apply vec_at_buf in Hbi as [Hbi _].
  apply mbind_Ok in H as ([s dict1] & Hlook & H).
  destruct Hinv as (Hm & Hd & Hi). cbn [b_heap b_dict b_m] in *.
  destruct (lookup_dict_ok _ _ _ _ _ _ Hd Hlook) as [Hd1 Hs].
  apply mbind_Ok in H as ([[[s1 h2] dict2] m1] & Hreg & H).
  apply mbind_Ok in H as (h3 & Hrenew & H).
  apply mbind_Ok in H as (h4 & Hlink & H). injection H as <-.
  apply mutate_buf_only with (nb := S n) in Hrenew; [|assumption].
  apply link_buf_only in Hlink.
  apply (build_inv_buf_only _ h2); [|eauto using buf_only_trans].
  destruct s as [c|].
  - injection Hreg as <- <- <- <-. split; [|split]; assumption.
  - apply mbind_Ok in Hreg as (sbi & _ & Hreg). cbn [make_shared] in Hreg.
    apply mbind_Ok in Hreg as ([m' h'] & Hadd & Hreg).
    apply mbind_Ok in Hreg as (dict' & Hpush & Hreg).
    injection Hreg as <- <- <- <-.
    eapply (register_new _ h (h ++ [sbi])); try eassumption.
    + rewrite length_app. simpl. lia.
    + intros q Hq _. by apply lookup_app_l.
Qed.

Lemma flush_step_inv (n : nat) (prev : list Z) (i : nat) (st st' : bstate) :
  build_inv (S n) st -> flush_step (buf_for n) prev i st = Ok st' ->
  build_inv (S n) st'.
Proof.
  destruct st as [h dict m]. intros Hinv H. unfold flush_step in H.
  apply mbind_Ok in H as (bi & Hbi & H). apply vec_at_buf in Hbi as [Hbi _].
  apply mbind_Ok in H as ([s dict1] & Hlook & H).
  destruct Hinv as (Hm & Hd & Hi). cbn [b_heap b_dict b_m] in *.
  destruct (lookup_dict_ok _ _ _ _ _ _ Hd Hlook) as [Hd1 Hs].
  apply mbind_Ok in H as ([[[s1 h2] dict2] m1] & Hreg & H).
  apply mbind_Ok in H as (h4 & Hlink & H). injection H as <-.
  apply link_buf_only in Hlink.
  apply (build_inv_buf_only _ h2); [|assumption].
  destruct s as [c|].
  - injection Hreg as <- <- <- <-. split; [|split]; assumption.
  - apply mbind_Ok in Hreg as (sbi & _ & Hreg). cbn [make_shared] in Hreg.
    apply mbind_Ok in Hreg as (h1 & Hrenew & Hreg).
    apply mbind_Ok in Hreg as ([m' h'] & Hadd & Hreg).
    apply mbind_Ok in Hreg as (dict' & Hpush & Hreg).
    injection Hreg as <- <- <- <-.
    apply mutate_buf_only with (nb := S n) in Hrenew as [L E]; [|assumption].
    eapply (register_new _ h h1); try eassumption.
    + rewrite L, length_app. simpl. lia.
    + intros q Hq Hnb. rewrite E by assumption. by apply lookup_app_l.
Qed.

Lemma add_pair_inv (n : nat) (prev : list Z) (pr : Pair) (st st' : bstate) :
  build_inv (S n) st -> add_pair (buf_for n) prev pr st = Ok st' ->
  build_inv (S n) st'.
Proof.
  intros Hinv H. unfold add_pair in H.
  apply mbind_Ok in H as (prefixLen & _ & H).
  apply mbind_Ok in H as (st1 & Hfreeze & H).
  assert (build_inv (S n) st1) as Hinv1.
  { eapply (for_each_preserves (build_inv (S n))); [|exact Hinv|exact Hfreeze].
    intros. eapply freeze_step_inv; eassumption. }
  destruct st1 as [h1 dict1 m1].
  apply mbind_Ok in H as (h2 & Hext & H).
  assert (buf_only (S n) h1 h2) as B12.
  { eapply (for_each_preserves (buf_only (S n) h1)); [|apply buf_only_refl|exact Hext].
    intros i a b Ha Hb. apply extend_step_buf_only in Hb.
    eauto using buf_only_trans. }
  apply mbind_Ok in H as (bl & Hbl & H). apply vec_at_buf in Hbl as [Hbl _].
  apply mbind_Ok in H as (h3 & Hfin & H).
  assert (buf_only (S n) h2 h3) as B23.
  { destruct (negb (bool_decide (Pair_in pr = prev))).
    - by eapply mutate_buf_only.
    - injection Hfin as <-. apply buf_only_refl. }
  apply mbind_Ok in H as ([o h4] & Hred & H).
  apply redistribute_buf_only in Hred.
  apply mbind_Ok in H as (h5 & Hplace & H). injection H as <-.
  assert (buf_only (S n) h4 h5) as B45.
  { destruct (negb (bool_decide (Pair_in pr = prev))).
    - apply mbind_Ok in Hplace as (p & Hp & Hplace).
      apply mbind_Ok in Hplace as (c & _ & Hplace).
      apply vec_at_buf in Hp as [Hp _]. by eapply mutate_buf_only.
    - destruct ((Pair_out pr =? 0) || negb (o =? 0)).
      + by eapply mutate_buf_only.
      + injection Hplace as <-. apply buf_only_refl. }
  apply (build_inv_buf_only _ h1); [assumption|].
  eauto using buf_only_trans.
Qed.

Lemma add_pairs_inv (n : nat) (prev prev' : list Z) (input : list Pair)
    (st st' : bstate) :
  build_inv (S n) st -> add_pairs (buf_for n) prev input st = Ok (prev', st') ->
  build_inv (S n) st'.
Proof.
  revert prev st. induction input as [|pr input IH]; simpl; intros prev st Hinv H.
  - by injection H as _ <-.
  - apply mbind_Ok in H as (st1 & Hadd & H).
    eapply IH; [|exact H]. eapply add_pair_inv; eassumption.
Qed.

Lemma bstate_for_inv (n : nat) : build_inv (S n) (bstate_for n).
Proof.
  unfold build_inv, bstate_for, Mast_inv, Mast_new. cbn.
  rewrite length_replicate. repeat split; try constructor; try lia.
  - intros k p [=].
  - intros k cs Hk. rewrite lookup_empty in Hk. discriminate.
Qed.

Lemma StronglySorted_lt_NoDup (l : list nat) : StronglySorted lt l -> NoDup l.
Proof.
  induction 1 as [|x l Hs IH Hx]; constructor; [|assumption].
  intros Hin. apply (proj1 (Forall_forall _ _) Hx) in Hin. lia.
Qed.

(** X27: The MAST that [buildMAST] returns: the initial state is the buffer
    state at address 0 and is registered last, no state is registered
    twice, the id of every state is its position in [states], and
    [finalStates] lists the final states, in the order of [states]. *)
Theorem buildMAST_registered (input : list Pair) (m : Mast) (h : heap) :
  (buildMAST input).2 = Ok (m, h) ->
  initialState m = Some 0%nat /\
  last (states m) = Some 0%nat /\
  NoDup (states m) /\
  (forall (k : nat) p, states m !! k = Some p ->
     exists s, h !! p = Some s /\ id s = to_int32 (Z.of_nat k)) /\
  finalStates m = List.filter (is_final_at h) (states m).
Proof.
  unfold buildMAST. cbn [snd]. intros H.
  apply mbind_Ok in H as ([prev st] & Hadd & H).
  apply add_pairs_inv in Hadd; [|apply bstate_for_inv].
  apply mbind_Ok in H as (st1 & Hflush & H).
  assert (build_inv (S (maxInputWordLen (std_sort input))) st1) as Hinv.
  { eapply (for_each_preserves (build_inv _)); [|exact Hadd|exact Hflush].
    intros. eapply flush_step_inv; eassumption. }
  clear Hadd Hflush. destruct st1 as [h1 dict1 m1].
  destruct Hinv as ((Hlen & Hrange & Hsort & Hid & Hfin) & _ & _).
  cbn [b_heap b_m] in *.
  apply mbind_Ok in H as (b0 & Hb0 & H). apply vec_at_buf in Hb0 as [_ ->].
  change (Z.to_nat 0) with 0%nat in H.
  unfold addState, mutate, deref in H. cbn [states initialState finalStates] in H.
  destruct (h1 !! 0%nat) as [s0|] eqn:Hs0; [|discriminate].
  unfold mbind, res_bind in H. cbn [rbind] in H.
  rewrite list_lookup_insert_eq in H by lia. cbn [rbind] in H.
  injection H as <- <-. cbn [states initialState finalStates isFinal set_id].
  assert (forall p, p ∈ states m1 ->
            <[0%nat:=set_id (to_int32 (vec_size (states m1))) s0]> h1 !! p = h1 !! p)
    as Hne.
  { intros p Hp. apply list_lookup_insert_ne.
    apply (proj1 (Forall_forall _ _) Hrange) in Hp. lia. }
  split; [reflexivity|]. split; [apply last_snoc|]. split; [|split].
  - apply NoDup_app. split; [by apply StronglySorted_lt_NoDup|].
    split; [|apply NoDup_singleton].
    intros p Hp Hp0. apply list_elem_of_singleton in Hp0 as ->.
    apply (proj1 (Forall_forall _ _) Hrange) in Hp. lia.
  - intros k p Hk. apply lookup_app_Some in Hk as [Hk|[Hge Hk]].
    + destruct (Hid k p Hk) as (s & Hs & His). exists s. split; [|assumption].
      rewrite Hne; [assumption|]. by eapply list_elem_of_lookup_2.
    + destruct (k - length (states m1))%nat eqn:Hd; [|destruct n; discriminate].
      injection Hk as <-. eexists. rewrite list_lookup_insert_eq by lia.
      split; [reflexivity|]. cbn [id set_id]. unfold vec_size. f_equal. lia.
  - rewrite List.filter_app. cbn [List.filter].
    assert (is_final_at
              (<[0%nat:=set_id (to_int32 (vec_size (states m1))) s0]> h1) 0%nat
            = isFinal s0) as ->.
    { unfold is_final_at. by rewrite list_lookup_insert_eq by lia. }
    assert (List.filter
              (is_final_at (<[0%nat:=set_id (to_int32 (vec_size (states m1))) s0]> h1))
              (states m1) = finalStates m1) as ->.
    { rewrite Hfin. apply List.filter_ext_in. intros p Hp.
      apply list_elem_of_In in Hp. unfold is_final_at. by rewrite Hne. }
    destruct (isFinal s0); [reflexivity|]. by rewrite app_nil_r.
Qed.

Lemma buildMAST_registered_witness :
  (buildMAST [mkPair [97] 1]).2 = Ok (mast_a1, heap_a1) /\
  initialState mast_a1 = Some 0%nat /\
  last (states mast_a1) = Some 0%nat /\
  NoDup (states mast_a1) /\
  (forall (k : nat) p, states mast_a1 !! k = Some p ->
     exists s, heap_a1 !! p = Some s /\ id s = to_int32 (Z.of_nat k)) /\
  finalStates mast_a1 = List.filter (is_final_at heap_a1) (states mast_a1).
Proof.
  split; [vm_compute; reflexivity|].
  apply (buildMAST_registered [mkPair [97] 1]). vm_compute. reflexivity.
Defined.
